(** * Event manager of Isaac Lab (Orbit): shallow embedding and checked properties

    Source: [omni/isaac/lab/managers/event_manager.py], class [EventManager].

    The manager groups event terms by a user-defined mode, keeps one
    time-remaining tensor per "interval" term and one last-triggered-step
    tensor per "reset" term, and calls the terms of a mode from [apply].

    Modelling choices.
    - A 1-D tensor is a list; the list of tensors held by the manager is a
      list of lists, read with stdpp's [!!] and written with [<[i:=x]>].
    - A Python [dict] is an association list in insertion order: the
      iteration order of [_mode_term_names.items()] decides which term
      [get_term_cfg] and [set_term_cfg] find first.
    - Exceptions are values of [Exn]; [apply] returns a record holding the
      manager after the call, the term invocations made, the warnings logged
      and the exception that ended the call, if any.
    - Time values are floating-point numbers in the source.  The embedding is
      generic in the scalar type and its operations (class [Scalar]), so no
      law of real arithmetic is assumed; the rational instance [Q_scalar] is
      used where a claim fixes values that floats represent exactly.
    - [torch.rand] is a stream of draws [rand : nat -> T] read at a cursor.
    - Step counts and minimum step counts are Python integers ([Z]); the
      last-triggered-step tensors are [int32].  An integer that meets such a
      tensor in a subtraction or a comparison is converted to a scalar and
      cast to [int32], which wraps it; an integer stored into the tensor must
      fit.
    - A term's callable is opaque: an invocation is recorded in a trace. *)

From Stdlib Require Import ZArith QArith String List Lia Bool.
From stdpp Require Import base list strings pretty.

Open Scope string_scope.
Open Scope list_scope.
Open Scope nat_scope.

(** ** Python exceptions *)

Inductive Exn :=
| ValueError (msg : string)
| TypeError (msg : string)
| RuntimeError (msg : string)
| KeyError (key : string)
| IndexError
| OverflowError.

(** ** Tensor operations used by the manager *)

Module Torch.

(** [torch.int32] arithmetic wraps around. *)
Definition wrap32 (z : Z) : Z := ((z + 2 ^ 31) mod 2 ^ 32 - 2 ^ 31)%Z.

(** A Python integer is stored into an [int32] tensor only when it fits;
    otherwise the assignment raises. *)
Definition fits_int32 (z : Z) : bool := ((- 2 ^ 31 <=? z) && (z <? 2 ^ 31))%Z.

(** A Python integer that meets a tensor in an arithmetic operation or a
    comparison is first converted to a scalar: a signed or an unsigned 64-bit
    integer.  Integers from [2 ^ 64] on, and below [- 2 ^ 63], have no such
    scalar ([OverflowError]).  Against an [int32] tensor the scalar is then
    cast to [int32], which wraps it ([wrap32]). *)
Definition fits_scalar (z : Z) : bool := ((- 2 ^ 63 <=? z) && (z <? 2 ^ 64))%Z.

(** [mask.nonzero().flatten()]: the positions of the true entries. *)
Fixpoint nonzero_from (i : Z) (mask : list bool) : list Z :=
  match mask with
  | [] => []
  | b :: rest =>
      if b then i :: nonzero_from (i + 1)%Z rest else nonzero_from (i + 1)%Z rest
  end.

Definition nonzero (mask : list bool) : list Z := nonzero_from 0%Z mask.

(** An index [i] into a dimension of size [n]: negative indices count from
    the end, anything outside [-n, n) is an [IndexError]. *)
Definition resolve_index (n : nat) (i : Z) : option nat :=
  if ((0 <=? i) && (i <? Z.of_nat n))%Z then Some (Z.to_nat i)
  else if ((- Z.of_nat n <=? i) && (i <? 0))%Z then Some (Z.to_nat (i + Z.of_nat n))
  else None.

(** [t[ids]] for an index sequence [ids]. *)
Fixpoint index_select {A} (t : list A) (ids : list Z) : option (list A) :=
  match ids with
  | [] => Some []
  | i :: rest =>
      match resolve_index (length t) i with
      | None => None
      | Some k =>
          match t !! k, index_select t rest with
          | Some x, Some xs => Some (x :: xs)
          | _, _ => None
          end
      end
  end.

(** [t[ids] = v] for a scalar [v]. *)
Fixpoint index_fill {A} (t : list A) (ids : list Z) (v : A) : option (list A) :=
  match ids with
  | [] => Some t
  | i :: rest =>
      match resolve_index (length t) i with
      | None => None
      | Some k => index_fill (<[k := v]> t) rest v
      end
  end.

(** [t[ids] = vs] for a tensor [vs] with one value per index. *)
Fixpoint index_put {A} (t : list A) (ids : list Z) (vs : list A) : option (list A) :=
  match ids, vs with
  | [], _ => Some t
  | i :: rest, v :: vs' =>
      match resolve_index (length t) i with
      | None => None
      | Some k => index_put (<[k := v]> t) rest vs'
      end
  | _ :: _, [] => None
  end.

End Torch.

(** ** Python dictionaries with string keys, in insertion order *)

Module PyDict.

Definition dict (V : Type) := list (string * V).

Fixpoint dget {V} (d : dict V) (k : string) : option V :=
  match d with
  | [] => None
  | (k', v) :: rest => if String.eqb k k' then Some v else dget rest k
  end.

(** [k in d] *)
Definition dmem {V} (d : dict V) (k : string) : bool :=
  match dget d k with Some _ => true | None => false end.

(** [d[k] = v]: an existing key keeps its position, a new key goes last. *)
Fixpoint dset {V} (d : dict V) (k : string) (v : V) : dict V :=
  match d with
  | [] => [(k, v)]
  | (k', v') :: rest =>
      if String.eqb k k' then (k', v) :: rest else (k', v') :: dset rest k v
  end.

Definition dkeys {V} (d : dict V) : list string := map fst d.

End PyDict.

Import PyDict.

(** ** Scalars: the floating-point operations the manager performs *)

Class Scalar (T : Type) := {
  (** [upper - lower] on the two Python floats of [interval_range_s] *)
  py_sub : T -> T -> T;
  (** [tensor * scalar] *)
  t_mul : T -> T -> T;
  (** [tensor + scalar] *)
  t_add : T -> T -> T;
  (** [tensor -= dt] *)
  t_sub : T -> T -> T;
  (** [tensor <= 0.0] *)
  t_le0 : T -> bool
}.

(** [torch.rand(..) * (upper - lower) + lower] applied to one draw [u]. *)
Definition scale_sample {T} `{Scalar T} (lower upper u : T) : T :=
  t_add (t_mul u (py_sub upper lower)) lower.

(** ** Term descriptors *)

(** What [term_cfg.func] can hold. *)
Inductive Callable :=
| FuncPath (path : string)      (* string reference, before resolution *)
| Function (name : string)      (* plain function *)
| TermClass (name : string)     (* subclass of ManagerTermBase, not yet instantiated *)
| TermInstance (name : string). (* instance of ManagerTermBase *)

(** [isinstance(func, ManagerTermBase)] *)
Definition is_manager_term (f : Callable) : bool :=
  match f with TermInstance _ => true | _ => false end.

Definition Params := list (string * string).

(** Modelled from the spec: [EventTermCfg] is declared in
    [manager_term_cfg.py], which is not part of the sources at hand.  The
    record has the attributes that [event_manager.py] reads: the callable, its
    parameter mapping, the mode tag, the interval sampling range, the
    global-timing flag and the reset gate. *)
Module EventTermCfg.
Record t (T : Type) := mk {
  func : Callable;
  params : Params;
  mode : string;
  interval_range_s : option (T * T);
  is_global_time : bool;
  min_step_count_between_reset : Z
}.
Arguments mk {T}.
Arguments func {T}.
Arguments params {T}.
Arguments mode {T}.
Arguments interval_range_s {T}.
Arguments is_global_time {T}.
Arguments min_step_count_between_reset {T}.
End EventTermCfg.

(** A value found under a term name in the configuration. *)
Inductive CfgEntry (T : Type) :=
| EntryNone
| EntryTerm (term_cfg : EventTermCfg.t T)
| EntryOther (type_name : string).
Arguments EntryNone {T}.
Arguments EntryTerm {T}.
Arguments EntryOther {T}.

(** The configuration is a [dict] or an object read through [__dict__]. *)
Inductive ManagerCfg (T : Type) :=
| CfgDict (items : list (string * CfgEntry T))
| CfgObject (attrs : list (string * CfgEntry T)).
Arguments CfgDict {T}.
Arguments CfgObject {T}.

Definition cfg_items {T} (cfg : ManagerCfg T) : list (string * CfgEntry T) :=
  match cfg with
  | CfgDict items => items
  | CfgObject attrs => attrs
  end.

(** The [env_ids] variable of [apply]: [None], [slice(None)] or a sequence
    (tensor) of indices. *)
Inductive EnvIds :=
| IdsNone
| IdsAll
| IdsList (ids : list Z).

(** One invocation [term_cfg.func(self._env, env_ids, **term_cfg.params)]. *)
Record Call := mkCall {
  call_func : Callable;
  call_env_ids : EnvIds;
  call_params : Params
}.

(** ** Manager state *)

Record EventManager (T : Type) := mkManager {
  _mode_term_names : dict (list string);
  _mode_term_cfgs : dict (list (EventTermCfg.t T));
  _mode_class_term_cfgs : dict (list (EventTermCfg.t T));
  _interval_term_time_left : list (list T);
  _reset_term_last_triggered_step_id : list (list Z)
}.
Arguments mkManager {T}.
Arguments _mode_term_names {T}.
Arguments _mode_term_cfgs {T}.
Arguments _mode_class_term_cfgs {T}.
Arguments _interval_term_time_left {T}.
Arguments _reset_term_last_triggered_step_id {T}.

(** [active_terms] *)
Definition active_terms {T} (m : EventManager T) : dict (list string) :=
  _mode_term_names m.

(** [available_modes] *)
Definition available_modes {T} (m : EventManager T) : list string :=
  dkeys (_mode_term_names m).

(** ** Exceptions as results *)

Notation "'let!' x ':=' c 'in' k" := (match c with inl e => inl e | inr x => k end)
  (at level 10, x name, c at level 200, k at level 200, only parsing).

(** [d[k].append(v)]; a missing key is a [KeyError]. *)
Definition dappend {V} (d : dict (list V)) (k : string) (v : V) : Exn + dict (list V) :=
  match dget d k with
  | Some l => inr (dset d k (l ++ [v]))
  | None => inl (KeyError k)
  end.

(** [enumerate(l)] *)
Fixpoint enumerate_from {A} (i : nat) (l : list A) : list (nat * A) :=
  match l with
  | [] => []
  | x :: rest => (i, x) :: enumerate_from (S i) rest
  end.

Definition enumerate {A} (l : list A) : list (nat * A) := enumerate_from 0 l.

(** [terms.index(term_name)], defined when [term_name in terms]. *)
Fixpoint list_index (term_name : string) (terms : list string) : option nat :=
  match terms with
  | [] => None
  | x :: rest =>
      if String.eqb term_name x then Some 0
      else match list_index term_name rest with
           | Some i => Some (S i)
           | None => None
           end
  end.

(** The loop shared by [set_term_cfg] and [get_term_cfg]: the first mode, in
    dictionary order, whose term list holds the name, and the position there. *)
Fixpoint find_term (names : dict (list string)) (term_name : string) : option (string * nat) :=
  match names with
  | [] => None
  | (mode, terms) :: rest =>
      match list_index term_name terms with
      | Some i => Some (mode, i)
      | None => find_term rest term_name
      end
  end.

(** ** Messages *)

Definition msg_mode_not_defined (mode : string) : string :=
  "Event mode '" +:+ mode +:+ "' is not defined. Skipping event.".

Definition msg_requires_dt (mode : string) : string :=
  "Event mode '" +:+ mode +:+ "' requires the time-step of the environment.".

Definition msg_requires_step_count (mode : string) : string :=
  "Event mode '" +:+ mode +:+ "' requires the total number of environment steps to be provided.".

Definition msg_term_not_found (term_name : string) : string :=
  "Event term '" +:+ term_name +:+ "' not found.".

Definition msg_not_event_term_cfg (term_name type_name : string) : string :=
  "Configuration for the term '" +:+ term_name +:+ "' is not of type EventTermCfg."
  +:+ " Received: '" +:+ type_name +:+ "'.".

Definition msg_min_step_ignored (term_name : string) : string :=
  "Event term '" +:+ term_name +:+ "' has 'min_step_count_between_reset' set to a non-zero value"
  +:+ " but the mode is not 'reset'. Ignoring the 'min_step_count_between_reset' value.".

Definition msg_no_interval_range (term_name : string) : string :=
  "Event term '" +:+ term_name +:+ "' has mode 'interval' but 'interval_range_s' is not specified.".

Definition msg_negative_min_step (term_name : string) (v : Z) : string :=
  "Event term '" +:+ term_name +:+ "' has mode 'reset' but 'min_step_count_between_reset' is"
  +:+ " negative: " +:+ pretty v +:+ ". Please provide a non-negative value.".

Definition msg_unpack_none : string := "cannot unpack non-iterable NoneType object".

Definition msg_ambiguous_bool : string :=
  "Boolean value of Tensor with more than one value is ambiguous".

Definition msg_no_values_bool : string :=
  "Boolean value of Tensor with no values is ambiguous".

Definition msg_int32_overflow : string :=
  "value cannot be converted to type int without overflow".

(** What storing the Python integer [z] into an [int32] tensor raises when
    [z] does not fit. *)
Definition store_error (z : Z) : Exn :=
  if Torch.fits_scalar z then RuntimeError msg_int32_overflow else OverflowError.

(** The descriptor after [_resolve_common_term_cfg] has updated it in place:
    callable and parameters as resolved, the timing attributes as configured. *)
Definition resolved_cfg {T} (tc : EventTermCfg.t T) (r : Callable * Params)
  : EventTermCfg.t T :=
  EventTermCfg.mk (fst r) (snd r) (EventTermCfg.mode tc) (EventTermCfg.interval_range_s tc)
    (EventTermCfg.is_global_time tc) (EventTermCfg.min_step_count_between_reset tc).

(** ** The manager *)

Section Manager.

Context {T : Type} `{Scalar T}.

(** [self.num_envs] *)
Variable num_envs : nat.

(** The draws of [torch.rand], in the order they are taken. *)
Variable rand : nat -> T.

(** [ManagerBase._resolve_common_term_cfg] lives in [manager_base.py], which
    is not part of the sources at hand.  It validates the descriptor against
    the callable's signature and raises on a mismatch; on success it has
    replaced the callable (a string reference is resolved, a term class is
    instantiated) and the parameters it resolved. *)
Variable _resolve_common_term_cfg :
  string -> EventTermCfg.t T -> Exn + (Callable * Params).

Import EventTermCfg.

Definition draws (cursor n : nat) : list T := map rand (seq cursor n).

(** *** [_prepare_terms] *)

Record PrepState := mkPrep {
  ps_manager : EventManager T;
  ps_cursor : nat;
  ps_log : list string
}.

Definition empty_manager : EventManager T := mkManager [] [] [] [] [].

(** The body of the loop over [cfg_items]. *)
Definition prepare_term (st : PrepState) (term_name : string) (entry : CfgEntry T)
  : Exn + PrepState :=
  match entry with
  | EntryNone => inr st
  | EntryOther type_name => inl (TypeError (msg_not_event_term_cfg term_name type_name))
  | EntryTerm term_cfg =>
      let log :=
        if negb (String.eqb (mode term_cfg) "reset")
           && negb (min_step_count_between_reset term_cfg =? 0)%Z
        then ps_log st ++ [msg_min_step_ignored term_name]
        else ps_log st in
      let! resolved := _resolve_common_term_cfg term_name term_cfg in
      let term_cfg := resolved_cfg term_cfg resolved in
      let m := ps_manager st in
      let is_new := negb (dmem (_mode_term_names m) (mode term_cfg)) in
      let names := if is_new then dset (_mode_term_names m) (mode term_cfg) []
                   else _mode_term_names m in
      let cfgs := if is_new then dset (_mode_term_cfgs m) (mode term_cfg) []
                  else _mode_term_cfgs m in
      let class_cfgs := if is_new then dset (_mode_class_term_cfgs m) (mode term_cfg) []
                        else _mode_class_term_cfgs m in
      let! names := dappend names (mode term_cfg) term_name in
      let! cfgs := dappend cfgs (mode term_cfg) term_cfg in
      let! class_cfgs := (if is_manager_term (func term_cfg)
                      then dappend class_cfgs (mode term_cfg) term_cfg
                      else inr class_cfgs) in
      if String.eqb (mode term_cfg) "interval" then
        match interval_range_s term_cfg with
        | None => inl (ValueError (msg_no_interval_range term_name))
        | Some (lower, upper) =>
            let n := if is_global_time term_cfg then 1 else num_envs in
            let time_left := map (scale_sample lower upper) (draws (ps_cursor st) n) in
            inr (mkPrep
                   (mkManager names cfgs class_cfgs
                      (_interval_term_time_left m ++ [time_left])
                      (_reset_term_last_triggered_step_id m))
                   (ps_cursor st + n) log)
        end
      else if String.eqb (mode term_cfg) "reset" then
        if (min_step_count_between_reset term_cfg <? 0)%Z then
          inl (ValueError (msg_negative_min_step term_name
                             (min_step_count_between_reset term_cfg)))
        else
          let step_count := repeat 0%Z num_envs in
          inr (mkPrep
                 (mkManager names cfgs class_cfgs
                    (_interval_term_time_left m)
                    (_reset_term_last_triggered_step_id m ++ [step_count]))
                 (ps_cursor st) log)
      else
        inr (mkPrep
               (mkManager names cfgs class_cfgs
                  (_interval_term_time_left m)
                  (_reset_term_last_triggered_step_id m))
               (ps_cursor st) log)
  end.

Fixpoint prepare_loop (items : list (string * CfgEntry T)) (st : PrepState)
  : Exn + PrepState :=
  match items with
  | [] => inr st
  | (term_name, entry) :: rest =>
      let! st' := prepare_term st term_name entry in
      prepare_loop rest st'
  end.

(** [_prepare_terms], run by the constructor; [cursor] is the position in
    the stream of random draws when construction starts. *)
Definition _prepare_terms (cfg : ManagerCfg T) (cursor : nat) : Exn + PrepState :=
  prepare_loop (cfg_items cfg) (mkPrep empty_manager cursor []).

(** *** [apply] *)

(** What the loop of [apply] reads and writes. *)
Record LoopState := mkLoop {
  ls_interval : list (list T);
  ls_reset : list (list Z);
  ls_cursor : nat;
  ls_env_ids : EnvIds;
  ls_calls : list Call
}.

Definition with_interval (st : LoopState) (b : list (list T)) : LoopState :=
  mkLoop b (ls_reset st) (ls_cursor st) (ls_env_ids st) (ls_calls st).
Definition with_reset (st : LoopState) (b : list (list Z)) : LoopState :=
  mkLoop (ls_interval st) b (ls_cursor st) (ls_env_ids st) (ls_calls st).
Definition with_cursor (st : LoopState) (c : nat) : LoopState :=
  mkLoop (ls_interval st) (ls_reset st) c (ls_env_ids st) (ls_calls st).
Definition with_env_ids (st : LoopState) (e : EnvIds) : LoopState :=
  mkLoop (ls_interval st) (ls_reset st) (ls_cursor st) e (ls_calls st).
Definition with_call (st : LoopState) (c : Call) : LoopState :=
  mkLoop (ls_interval st) (ls_reset st) (ls_cursor st) (ls_env_ids st) (ls_calls st ++ [c]).

(** How one iteration ends before the call: the term is called, the
    iteration is left with [continue], or an exception is raised. *)
Inductive Gate :=
| Invoke (st : LoopState)
| Skip (st : LoopState)
| Raise (e : Exn) (st : LoopState).

(** The loop state an iteration leaves behind. *)
Definition gate_state (g : Gate) : LoopState :=
  match g with Invoke st | Skip st | Raise _ st => st end.

(** The branch [if mode == "interval"]. *)
Definition interval_gate (index : nat) (term_cfg : EventTermCfg.t T) (dt : T)
    (st : LoopState) : Gate :=
  match ls_interval st !! index with
  | None => Raise IndexError st
  | Some time_left =>
      let time_left := map (fun x => t_sub x dt) time_left in
      let st := with_interval st (<[index := time_left]> (ls_interval st)) in
      if is_global_time term_cfg then
        match time_left with
        | [x] =>
            if t_le0 x then
              match interval_range_s term_cfg with
              | None => Raise (TypeError msg_unpack_none) st
              | Some (lower, upper) =>
                  let sampled_interval :=
                    map (scale_sample lower upper) (draws (ls_cursor st) 1) in
                  Invoke (with_cursor
                            (with_interval st (<[index := sampled_interval]> (ls_interval st)))
                            (ls_cursor st + 1))
              end
            else Skip st
        | [] => Raise (RuntimeError msg_no_values_bool) st
        | _ => Raise (RuntimeError msg_ambiguous_bool) st
        end
      else
        let env_ids := Torch.nonzero (map t_le0 time_left) in
        let st := with_env_ids st (IdsList env_ids) in
        if 0 <? length env_ids then
          match interval_range_s term_cfg with
          | None => Raise (TypeError msg_unpack_none) st
          | Some (lower, upper) =>
              let sampled_time :=
                map (scale_sample lower upper) (draws (ls_cursor st) (length env_ids)) in
              let st := with_cursor st (ls_cursor st + length env_ids) in
              match Torch.index_put time_left env_ids sampled_time with
              | None => Raise IndexError st
              | Some time_left =>
                  Invoke (with_interval st (<[index := time_left]> (ls_interval st)))
              end
          end
        else Skip st
  end.

(** [steps_since_reset[env_ids]] *)
Definition select_env_ids {A} (t : list A) (env_ids : EnvIds) : option (list A) :=
  match env_ids with
  | IdsNone => None
  | IdsAll => Some t
  | IdsList ids => Torch.index_select t ids
  end.

(** The branch [elif mode == "reset"]. *)
Definition reset_gate (index : nat) (term_cfg : EventTermCfg.t T)
    (global_env_step_count : Z) (st : LoopState) : Gate :=
  let min_step_count := min_step_count_between_reset term_cfg in
  if (min_step_count =? 0)%Z then
    match ls_reset st !! index with
    | None => Raise IndexError st
    | Some last =>
        if Torch.fits_int32 global_env_step_count then
          Invoke (with_reset st
                    (<[index := map (fun _ => global_env_step_count) last]> (ls_reset st)))
        else Raise (store_error global_env_step_count) st
    end
  else
    let st := match ls_env_ids st with
              | IdsNone => with_env_ids st IdsAll
              | _ => st
              end in
    match ls_reset st !! index with
    | None => Raise IndexError st
    | Some last_reset_step =>
        (* [global_env_step_count - last_reset_step]: the step count becomes
           a scalar, the difference is taken in [int32] *)
        if negb (Torch.fits_scalar global_env_step_count) then Raise OverflowError st
        else
        let steps_since_reset :=
          map (fun l => Torch.wrap32 (global_env_step_count - l)) last_reset_step in
        match select_env_ids steps_since_reset (ls_env_ids st) with
        | None => Raise IndexError st
        | Some selected =>
            (* [... >= min_step_count]: the threshold becomes a scalar and is
               compared in [int32] *)
            if negb (Torch.fits_scalar min_step_count) then Raise OverflowError st
            else
            let env_ids :=
              Torch.nonzero
                (map (fun s => (Torch.wrap32 min_step_count <=? s)%Z) selected) in
            let st := with_env_ids st (IdsList env_ids) in
            if 0 <? length env_ids then
              if Torch.fits_int32 global_env_step_count then
                match Torch.index_fill last_reset_step env_ids global_env_step_count with
                | None => Raise IndexError st
                | Some last =>
                    Invoke (with_reset st (<[index := last]> (ls_reset st)))
                end
              else Raise (store_error global_env_step_count) st
            else Skip st
        end
    end.

(** The mode of the call together with the argument that mode needs. *)
Inductive ModeCtx :=
| ModeInterval (dt : T)
| ModeReset (global_env_step_count : Z)
| ModeOther.

Definition gate (ctx : ModeCtx) (index : nat) (term_cfg : EventTermCfg.t T)
    (st : LoopState) : Gate :=
  match ctx with
  | ModeInterval dt => interval_gate index term_cfg dt st
  | ModeReset g => reset_gate index term_cfg g st
  | ModeOther => Invoke st
  end.

(** The loop [for index, term_cfg in enumerate(self._mode_term_cfgs[mode])]. *)
Fixpoint apply_terms (ctx : ModeCtx) (terms : list (nat * EventTermCfg.t T))
    (st : LoopState) : LoopState * option Exn :=
  match terms with
  | [] => (st, None)
  | (index, term_cfg) :: rest =>
      match gate ctx index term_cfg st with
      | Raise e st' => (st', Some e)
      | Skip st' => apply_terms ctx rest st'
      | Invoke st' =>
          apply_terms ctx rest
            (with_call st' (mkCall (func term_cfg) (ls_env_ids st') (params term_cfg)))
      end
  end.

(** The two argument checks that follow the mode check. *)
Definition mode_ctx (mode : string) (dt : option T) (global_env_step_count : option Z)
  : Exn + ModeCtx :=
  if String.eqb mode "interval" then
    match dt with
    | None => inl (ValueError (msg_requires_dt mode))
    | Some dt => inr (ModeInterval dt)
    end
  else if String.eqb mode "reset" then
    match global_env_step_count with
    | None => inl (ValueError (msg_requires_step_count mode))
    | Some g => inr (ModeReset g)
    end
  else inr ModeOther.

Record ApplyResult := mkResult {
  ap_manager : EventManager T;
  ap_cursor : nat;
  ap_calls : list Call;
  ap_warnings : list string;
  ap_raised : option Exn
}.

Definition apply (m : EventManager T) (cursor : nat) (mode : string) (env_ids : EnvIds)
    (dt : option T) (global_env_step_count : option Z) : ApplyResult :=
  if negb (dmem (_mode_term_names m) mode) then
    mkResult m cursor [] [msg_mode_not_defined mode] None
  else
    match mode_ctx mode dt global_env_step_count with
    | inl e => mkResult m cursor [] [] (Some e)
    | inr ctx =>
        match dget (_mode_term_cfgs m) mode with
        | None => mkResult m cursor [] [] (Some (KeyError mode))
        | Some term_cfgs =>
            let st := mkLoop (_interval_term_time_left m)
                        (_reset_term_last_triggered_step_id m) cursor env_ids [] in
            let '(st', raised) := apply_terms ctx (enumerate term_cfgs) st in
            mkResult
              (mkManager (_mode_term_names m) (_mode_term_cfgs m) (_mode_class_term_cfgs m)
                 (ls_interval st') (ls_reset st'))
              (ls_cursor st') (ls_calls st') [] raised
        end
    end.

(** *** [set_term_cfg] and [get_term_cfg] *)

Definition set_term_cfg (m : EventManager T) (term_name : string) (cfg : EventTermCfg.t T)
  : Exn + EventManager T :=
  match find_term (_mode_term_names m) term_name with
  | None => inl (ValueError (msg_term_not_found term_name))
  | Some (mode, i) =>
      match dget (_mode_term_cfgs m) mode with
      | None => inl (KeyError mode)
      | Some term_cfgs =>
          if i <? length term_cfgs then
            inr (mkManager (_mode_term_names m)
                   (dset (_mode_term_cfgs m) mode (<[i := cfg]> term_cfgs))
                   (_mode_class_term_cfgs m)
                   (_interval_term_time_left m)
                   (_reset_term_last_triggered_step_id m))
          else inl IndexError
      end
  end.

Definition get_term_cfg (m : EventManager T) (term_name : string)
  : Exn + EventTermCfg.t T :=
  match find_term (_mode_term_names m) term_name with
  | None => inl (ValueError (msg_term_not_found term_name))
  | Some (mode, i) =>
      match dget (_mode_term_cfgs m) mode with
      | None => inl (KeyError mode)
      | Some term_cfgs =>
          match term_cfgs !! i with
          | Some cfg => inr cfg
          | None => inl IndexError
          end
      end
  end.

(** *** [reset] *)

(** One call [term_cfg.func.reset(env_ids=env_ids)]. *)
Record ResetCall := mkResetCall {
  reset_func : Callable;
  reset_env_ids : EnvIds
}.

(** [reset]: the [reset] of every class term, mode by mode in dictionary
    order; the returned dictionary of metrics is empty. *)
Definition reset (m : EventManager T) (env_ids : EnvIds) : list ResetCall * dict T :=
  (flat_map (fun mode_cfg =>
               map (fun term_cfg => mkResetCall (func term_cfg) env_ids) (snd mode_cfg))
     (_mode_class_term_cfgs m),
   []).

(** *** Repeated calls *)

(** The environment loop calling [apply] [n] times in a row with the same
    arguments, each call on the manager and random stream the previous one
    left; the results are listed first call first. *)
Fixpoint repeat_apply (n : nat) (m : EventManager T) (cursor : nat) (mode : string)
    (env_ids : EnvIds) (dt : option T) (global_env_step_count : option Z)
  : list ApplyResult :=
  match n with
  | 0 => []
  | S n' =>
      let r := apply m cursor mode env_ids dt global_env_step_count in
      r :: repeat_apply n' (ap_manager r) (ap_cursor r) mode env_ids dt global_env_step_count
  end.

End Manager.

(** ** A concrete setting *)

(** Rational scalars, kept in lowest terms.  On the values the claims fix
    (0, 0.5, 1.0 and their sums and differences) binary floating point is
    exact, so this instance computes what the tensors hold. *)
#[export] Instance Q_scalar : Scalar Q := {|
  py_sub a b := Qred (a - b);
  t_mul a b := Qred (a * b);
  t_add a b := Qred (a + b);
  t_sub a b := Qred (a - b);
  t_le0 a := Qle_bool a 0
|}.

Module Demo.

Import EventTermCfg.

(** A resolver that accepts every descriptor and keeps its callable. *)
Definition resolve_ok (term_name : string) (c : EventTermCfg.t Q)
  : Exn + (Callable * Params) := inr (func c, params c).

(** Draws that are all zero: every sample is the lower bound. *)
Definition rand_zero (i : nat) : Q := 0%Q.

(** Draws 1/2, 0, 0, ... *)
Definition rand_half_then_zero (i : nat) : Q :=
  match i with 0 => (1 # 2)%Q | _ => 0%Q end.

Definition reset_term (name : string) (min_steps : Z) : EventTermCfg.t Q :=
  mk (Function name) [] "reset" None false min_steps.

Definition interval_term (name : string) (lower upper : Q) (global : bool)
  : EventTermCfg.t Q :=
  mk (Function name) [] "interval" (Some (lower, upper)) global 0%Z.

Definition startup_term (name : string) : EventTermCfg.t Q :=
  mk (Function name) [] "startup" None false 0%Z.

(** The manager and cursor that construction yields, or the empty manager
    when construction fails. *)
Definition build (num_envs : nat) (rand : nat -> Q) (cfg : ManagerCfg Q)
  : EventManager Q * nat :=
  match _prepare_terms num_envs rand resolve_ok cfg 0 with
  | inr st => (ps_manager st, ps_cursor st)
  | inl _ => (empty_manager, 0)
  end.

(** A resolver that fails on a string reference, instantiates a term class
    and keeps any other callable. *)
Definition resolve_paths (term_name : string) (c : EventTermCfg.t Q)
  : Exn + (Callable * Params) :=
  match func c with
  | FuncPath path => inl (ValueError ("cannot resolve " +:+ path))
  | TermClass name => inr (TermInstance name, params c)
  | f => inr (f, params c)
  end.

(** A configuration with a startup term, a per-environment interval term
    that carries a reset gate it cannot use, a disabled term, a gated reset
    term given as a class, and an ungated reset term. *)
Definition sample_cfg : ManagerCfg Q :=
  CfgObject
    [("init", EntryTerm (startup_term "init"));
     ("push", EntryTerm (mk (Function "push") [] "interval"
                           (Some ((1 # 2)%Q, (3 # 2)%Q)) false 3%Z));
     ("off", EntryNone);
     ("respawn", EntryTerm (mk (TermClass "Respawn") [] "reset" None false 5%Z));
     ("recolor", EntryTerm (reset_term "recolor" 0))].

(** A configuration with a per-environment interval term of a proper range,
    a per-environment term and a global term of fixed intervals after it, and a
    reset term in between. *)
Definition fixed_cfg : ManagerCfg Q :=
  CfgDict
    [("shove", EntryTerm (interval_term "shove" (1 # 2) (3 # 2) false));
     ("push", EntryTerm (interval_term "push" (1 # 2) (1 # 2) false));
     ("respawn", EntryTerm (reset_term "respawn" 5));
     ("blink", EntryTerm (interval_term "blink" 1 1 true))].

(** What construction yields, or the initial state when it fails. *)
Definition prepared (num_envs : nat) (rand : nat -> Q)
    (resolve : string -> EventTermCfg.t Q -> Exn + (Callable * Params))
    (cfg : ManagerCfg Q) : PrepState :=
  match _prepare_terms num_envs rand resolve cfg 0 with
  | inr st => st
  | inl _ => mkPrep empty_manager 0 []
  end.

Definition sample_state : PrepState :=
  prepared 3 rand_half_then_zero resolve_paths sample_cfg.

End Demo.

(** ** Notions used to state the properties *)

(** The two dictionaries of the manager agree: mode keys are not repeated,
    every mode with names has a descriptor list of the same length, and has an
    entry among the class terms. *)
Definition manager_wf {T} (m : EventManager T) : Prop :=
  NoDup (dkeys (_mode_term_names m)) /\
  Forall (fun '(mode, terms) =>
            exists l, dget (_mode_term_cfgs m) mode = Some l /\ length l = length terms)
         (_mode_term_names m) /\
  (forall mode, dmem (_mode_term_names m) mode = true ->
                dmem (_mode_class_term_cfgs m) mode = true).

(** A term name is configured when some mode lists it. *)
Definition term_configured {T} (m : EventManager T) (term_name : string) : Prop :=
  exists mode terms, In (mode, terms) (_mode_term_names m) /\ In term_name terms.

Definition is_entry_none {T} (e : CfgEntry T) : bool :=
  match e with EntryNone => true | _ => false end.

(** The configuration without its disabled ([None]) entries. *)
Definition enabled_items {T} (items : list (string * CfgEntry T)) : list (string * CfgEntry T) :=
  List.filter (fun ne => negb (is_entry_none (snd ne))) items.

Definition enabled_cfg {T} (cfg : ManagerCfg T) : ManagerCfg T :=
  match cfg with
  | CfgDict items => CfgDict (enabled_items items)
  | CfgObject attrs => CfgObject (enabled_items attrs)
  end.

(** The number of descriptors of a mode in the configuration. *)
Definition count_mode {T} (mode : string) (items : list (string * CfgEntry T)) : nat :=
  length (List.filter (fun ne => match snd ne with
                            | EntryTerm tc => String.eqb (EventTermCfg.mode tc) mode
                            | _ => false
                            end) items).

(** A descriptor that preparation rejects for its timing attributes. *)
Definition bad_timing {T} (tc : EventTermCfg.t T) : Prop :=
  (EventTermCfg.mode tc = "interval" /\ EventTermCfg.interval_range_s tc = None) \/
  (EventTermCfg.mode tc = "reset" /\ (EventTermCfg.min_step_count_between_reset tc < 0)%Z).

Definition bad_timing_error {T} (term_name : string) (tc : EventTermCfg.t T) : Exn :=
  if String.eqb (EventTermCfg.mode tc) "interval"
  then ValueError (msg_no_interval_range term_name)
  else ValueError (msg_negative_min_step term_name
                     (EventTermCfg.min_step_count_between_reset tc)).

(** Whether the gate of a term of the mode at hand assigns [env_ids]: a
    per-environment interval term and a reset term with a positive gate do; a
    global interval term, a reset term without gate and a term of any other
    mode do not. *)
Definition rebinds_env_ids {T} (ctx : ModeCtx (T:=T)) (tc : EventTermCfg.t T) : bool :=
  match ctx with
  | ModeInterval _ => negb (EventTermCfg.is_global_time tc)
  | ModeReset _ => negb (EventTermCfg.min_step_count_between_reset tc =? 0)%Z
  | ModeOther => false
  end.

(** [t[mask] = vs] read entry by entry: the entries under a true mask bit
    take the values of [vs] in order, the other entries stay. *)
Fixpoint masked_scatter {A} (mask : list bool) (t vs : list A) : list A :=
  match mask, t with
  | true :: mask', x :: t' =>
      match vs with
      | v :: vs' => v :: masked_scatter mask' t' vs'
      | [] => x :: t'
      end
  | false :: mask', x :: t' => x :: masked_scatter mask' t' vs
  | _, _ => t
  end.

(** The descriptors of a mode as preparation stores them, with their names,
    in configuration order: the enabled entries of that mode, each with the
    callable and parameters its resolution returned. *)
Definition resolved_entry {T} (resolve : string -> EventTermCfg.t T -> Exn + (Callable * Params))
    (mode : string) (ne : string * CfgEntry T) : list (string * EventTermCfg.t T) :=
  match snd ne with
  | EntryTerm tc =>
      if String.eqb (EventTermCfg.mode tc) mode then
        match resolve (fst ne) tc with
        | inr r => [(fst ne, resolved_cfg tc r)]
        | inl _ => []
        end
      else []
  | _ => []
  end.

Definition mode_terms {T} (resolve : string -> EventTermCfg.t T -> Exn + (Callable * Params))
    (mode : string) (items : list (string * CfgEntry T)) : list (string * EventTermCfg.t T) :=
  flat_map (resolved_entry resolve mode) items.

(** What a dictionary of lists holds under a key after the elements [l] were
    appended to it one by one, the key being created on the first append. *)
Definition appended {A} (l : list A) : option (list A) :=
  match l with
  | [] => None
  | _ => Some l
  end.

(** [isinstance(term_cfg.func, ManagerTermBase)] on a stored descriptor. *)
Definition is_class_term {T} (tc : EventTermCfg.t T) : bool :=
  is_manager_term (EventTermCfg.func tc).

(** The warning of preparation for an entry, if it logs one. *)
Definition entry_warning {T} (ne : string * CfgEntry T) : list string :=
  match snd ne with
  | EntryTerm tc =>
      if negb (String.eqb (EventTermCfg.mode tc) "reset")
         && negb (EventTermCfg.min_step_count_between_reset tc =? 0)%Z
      then [msg_min_step_ignored (fst ne)]
      else []
  | _ => []
  end.

(** [t[mask] = v] read entry by entry. *)
Fixpoint masked_fill {A} (mask : list bool) (t : list A) (v : A) : list A :=
  match mask, t with
  | b :: mask', x :: t' => (if b then v else x) :: masked_fill mask' t' v
  | _, _ => t
  end.

(** The tensor of an interval term has the shape its descriptor asks for:
    one entry for global timing, one per environment otherwise; and the
    descriptor has a sampling range. *)
Definition interval_shape_ok {T} (num_envs : nat) (tc : EventTermCfg.t T) (time_left : list T)
  : Prop :=
  EventTermCfg.interval_range_s tc <> None /\
  length time_left = if EventTermCfg.is_global_time tc then 1 else num_envs.

(** Every interval and reset descriptor has its tensor, at its index, of the
    right shape. *)
Definition buffers_ready {T} (num_envs : nat) (m : EventManager T) : Prop :=
  Forall2 (interval_shape_ok num_envs)
    (default [] (dget (_mode_term_cfgs m) "interval")) (_interval_term_time_left m) /\
  Forall2 (fun (_ : EventTermCfg.t T) last => length last = num_envs)
    (default [] (dget (_mode_term_cfgs m) "reset")) (_reset_term_last_triggered_step_id m).

(** The minimum step counts of the manager's reset descriptors fit
    [int32], the type of the tensors they are compared with. *)
Definition reset_thresholds_fit {T} (m : EventManager T) : Prop :=
  Forall (fun tc => Torch.fits_int32 (EventTermCfg.min_step_count_between_reset tc) = true)
         (default [] (dget (_mode_term_cfgs m) "reset")).

(** An [env_ids] argument that addresses environments: [None], the full
    slice, or at most [num_envs] indices within [0, num_envs). *)
Definition env_ids_valid (num_envs : nat) (env_ids : EnvIds) : Prop :=
  match env_ids with
  | IdsList ids =>
      length ids <= num_envs /\ Forall (fun z => (0 <= z < Z.of_nat num_envs)%Z) ids
  | _ => True
  end.

(** The manager and the cursor on which the call number [k] (counted from
    0) of a run of [repeat_apply] is made: those the call before it left. *)
Definition before_call {T} `{Scalar T} (rand : nat -> T) (k : nat) (m : EventManager T)
    (cursor : nat) (mode : string) (env_ids : EnvIds) (dt : option T) (g : option Z)
  : EventManager T * nat :=
  match last (repeat_apply rand k m cursor mode env_ids dt g) with
  | Some r => (ap_manager r, ap_cursor r)
  | None => (m, cursor)
  end.

(** What the call [apply("interval", env_ids, dt)] on [m] does with the
    interval term at [index]: the loop runs over the terms before it without
    an exception and reaches it in the state [st_a]; the iteration of the
    term ends in the call [c] of its callable ([outcome = Some c]) or in
    [continue] ([outcome = None]); the loop then runs over the terms after it
    without an exception.  The calls of [apply] are those made before the
    term, the call of the term if any, and those made after it. *)
Definition interval_iteration {T} `{Scalar T} (rand : nat -> T) (m : EventManager T)
    (cursor : nat) (env_ids : EnvIds) (dt : T) (g : option Z) (index : nat)
    (outcome : option Call) : Prop :=
  exists tcs tc st_a st_b st_c later,
    dget (_mode_term_cfgs m) "interval" = Some tcs /\
    tcs !! index = Some tc /\
    apply_terms rand (ModeInterval dt) (enumerate (take index tcs))
      (mkLoop (_interval_term_time_left m) (_reset_term_last_triggered_step_id m)
         cursor env_ids [])
    = (st_a, None) /\
    gate rand (ModeInterval dt) index tc st_a
    = match outcome with Some _ => Invoke st_b | None => Skip st_b end /\
    match outcome with
    | Some c => c = mkCall (EventTermCfg.func tc) (ls_env_ids st_b) (EventTermCfg.params tc)
    | None => True
    end /\
    apply_terms rand (ModeInterval dt) (enumerate_from (S index) (drop (S index) tcs))
      (match outcome with Some c => with_call st_b c | None => st_b end)
    = (st_c, None) /\
    ls_calls st_c
    = ls_calls st_a ++ match outcome with Some c => [c] | None => [] end ++ later /\
    let r := apply rand m cursor "interval" env_ids (Some dt) g in
    ap_raised r = None /\ ap_calls r = ls_calls st_c.

(** The interval term [tc] is stored at [index], and its tensor, of the
    shape the term asks for, holds [x] in every entry; the manager is of the
    kind construction leaves. *)
Definition fixed_interval_term {T} (num_envs : nat) (m : EventManager T) (index : nat)
    (tc : EventTermCfg.t T) (x : T) : Prop :=
  manager_wf m /\
  buffers_ready num_envs m /\
  dmem (_mode_term_names m) "interval" = true /\
  (exists tcs, dget (_mode_term_cfgs m) "interval" = Some tcs /\ tcs !! index = Some tc) /\
  _interval_term_time_left m !! index
  = Some (repeat x (if EventTermCfg.is_global_time tc then 1 else num_envs)).

(** [env_ids] results from gating that started at [subset]: it is [subset]
    itself, or positions selected within [subset] (at most as many). *)
Definition gated_from (subset : list Z) (env_ids : EnvIds) : Prop :=
  exists l, env_ids = IdsList l /\
            length l <= length subset /\
            (l = subset \/ Forall (fun z => (0 <= z < Z.of_nat (length subset))%Z) l).

(** * Properties *)

(** ** Dictionaries *)

Section DictFacts.

Context {V : Type}.
Implicit Types (d : dict V) (k : string) (v : V).

Lemma dget_dset d k v k' :
  dget (dset d k v) k' = if String.eqb k' k then Some v else dget d k'.
Proof.
  induction d as [|[k0 v0] d IH]; simpl.
  - destruct (String.eqb k' k); reflexivity.
  - destruct (String.eqb k k0) eqn:E; simpl.
    + apply String.eqb_eq in E. subst k0.
      destruct (String.eqb k' k); reflexivity.
    + destruct (String.eqb k' k0) eqn:E'.
      * apply String.eqb_eq in E'. subst k0.
        rewrite String.eqb_sym, E. reflexivity.
      * exact IH.
Qed.

Lemma dmem_dset d k v k' :
  dmem (dset d k v) k' = String.eqb k' k || dmem d k'.
Proof.
  unfold dmem. rewrite dget_dset. destruct (String.eqb k' k); reflexivity.
Qed.

Lemma dget_In d k v : dget d k = Some v -> In (k, v) d.
Proof.
  induction d as [|[k0 v0] d IH]; simpl; [discriminate|].
  destruct (String.eqb k k0) eqn:E.
  - apply String.eqb_eq in E. intros [= ->]. left. congruence.
  - intros Hd. right. auto.
Qed.

Lemma dmem_true_iff d k : dmem d k = true <-> In k (dkeys d).
Proof.
  unfold dmem, dkeys. induction d as [|[k0 v0] d IH]; simpl.
  - split; [discriminate | tauto].
  - destruct (String.eqb k k0) eqn:E.
    + apply String.eqb_eq in E. split; auto.
    + apply String.eqb_neq in E. rewrite IH. split; [auto | intros [?|?]; congruence].
Qed.

Lemma dkeys_dset d k v :
  dkeys (dset d k v) = if dmem d k then dkeys d else dkeys d ++ [k].
Proof.
  unfold dmem, dkeys. induction d as [|[k0 v0] d IH]; simpl; [reflexivity|].
  destruct (String.eqb k k0) eqn:E; simpl; [reflexivity|].
  rewrite IH. destruct (dget d k); reflexivity.
Qed.

Lemma dset_NoDup d k v : NoDup (dkeys d) -> NoDup (dkeys (dset d k v)).
Proof.
  intros Hnd. rewrite dkeys_dset. destruct (dmem d k) eqn:Hm; [exact Hnd|].
  apply NoDup_app. repeat split.
  - exact Hnd.
  - intros x Hx Hx'. apply list_elem_of_In in Hx. apply list_elem_of_In in Hx'.
    destruct Hx' as [<-|[]].
    apply dmem_true_iff in Hx. congruence.
  - apply NoDup_singleton.
Qed.

Lemma In_dget d k v : NoDup (dkeys d) -> In (k, v) d -> dget d k = Some v.
Proof.
  induction d as [|[k0 v0] d IH]; simpl; [tauto|].
  intros Hnd [Heq|Hin].
  - injection Heq as -> ->. rewrite String.eqb_refl. reflexivity.
  - apply NoDup_cons in Hnd as [Hk0 Hnd].
    destruct (String.eqb k k0) eqn:E.
    + apply String.eqb_eq in E. subst k0. exfalso. apply Hk0.
      apply list_elem_of_In. unfold dkeys. apply in_map_iff. exists (k, v). auto.
    + auto.
Qed.

Lemma In_dset d k v k' v' :
  NoDup (dkeys d) -> In (k', v') (dset d k v) ->
  (k' = k /\ v' = v) \/ (k' <> k /\ In (k', v') d).
Proof.
  intros Hnd Hin.
  pose proof (In_dget _ _ _ (dset_NoDup d k v Hnd) Hin) as Hg.
  rewrite dget_dset in Hg.
  destruct (String.eqb k' k) eqn:E.
  - apply String.eqb_eq in E. left. split; congruence.
  - apply String.eqb_neq in E. right. split; [exact E|]. apply dget_In. exact Hg.
Qed.

End DictFacts.

Lemma dappend_inv {V} (d d' : dict (list V)) k v :
  dappend d k v = inr d' ->
  exists l, dget d k = Some l /\ d' = dset d k (l ++ [v]).
Proof.
  unfold dappend. destruct (dget d k) as [l|]; [|discriminate].
  intros [= <-]. eauto.
Qed.

(** ** Reset gating at explicit indices *)

(** C1.  A manager with one reset term whose gate is 10 steps, four
    environments that have never triggered, called at step 10 for the
    environment index 2 (elapsed steps exactly 10).  The term is invoked for
    index 0, the position of 2 inside [env_ids], and the stamp lands on
    index 0; index 2 is neither passed to the term nor stamped. *)
Theorem reset_gate_uses_positions_in_env_ids :
  let mc := Demo.build 4 Demo.rand_zero
              (CfgDict [("push", EntryTerm (Demo.reset_term "push" 10))]) in
  let r := apply Demo.rand_zero (fst mc) (snd mc) "reset" (IdsList [2%Z]) None (Some 10%Z) in
  _reset_term_last_triggered_step_id (fst mc) = [[0; 0; 0; 0]%Z] /\
  ap_raised r = None /\
  ap_calls r = [mkCall (Function "push") (IdsList [0%Z]) []] /\
  _reset_term_last_triggered_step_id (ap_manager r) = [[10; 0; 0; 0]%Z].
Proof. vm_compute. repeat split. Qed.

(** C4.  A manager with one reset term without gate (minimum step count 0)
    and three environments, called at step 7 for the environment index 1.
    The term is invoked for index 1, and the whole last-triggered-step tensor
    is set to 7: the entries of the indices 0 and 2, which are not in
    [env_ids], change from 0 to 7. *)
Theorem reset_without_gate_stamps_every_environment :
  let mc := Demo.build 3 Demo.rand_zero
              (CfgDict [("push", EntryTerm (Demo.reset_term "push" 0))]) in
  let r := apply Demo.rand_zero (fst mc) (snd mc) "reset" (IdsList [1%Z]) None (Some 7%Z) in
  _reset_term_last_triggered_step_id (fst mc) = [[0; 0; 0]%Z] /\
  ap_raised r = None /\
  ap_calls r = [mkCall (Function "push") (IdsList [1%Z]) []] /\
  _reset_term_last_triggered_step_id (ap_manager r) = [[7; 7; 7]%Z].
Proof. vm_compute. repeat split. Qed.

(** ** Argument checks of [apply] *)

Section ApplyChecks.

Context {T : Type} `{Scalar T}.
Variable rand : nat -> T.

Lemma apply_mode_not_defined (m : EventManager T) cursor mode env_ids dt g :
  dmem (_mode_term_names m) mode = false ->
  apply rand m cursor mode env_ids dt g
  = mkResult m cursor [] [msg_mode_not_defined mode] None.
Proof. intros Hm. unfold apply. rewrite Hm. reflexivity. Qed.

(** C5, as the code has it.  When at least one term is configured for the
    mode, "interval" without [dt] and "reset" without the global step count
    raise [ValueError]; no term is invoked and the manager, with its timing
    and gating tensors, is the one before the call. *)
Theorem apply_missing_argument_raises (m : EventManager T) cursor env_ids :
  (dmem (_mode_term_names m) "interval" = true ->
   forall g,
     apply rand m cursor "interval" env_ids None g
     = mkResult m cursor [] [] (Some (ValueError (msg_requires_dt "interval")))) /\
  (dmem (_mode_term_names m) "reset" = true ->
   forall dt,
     apply rand m cursor "reset" env_ids dt None
     = mkResult m cursor [] [] (Some (ValueError (msg_requires_step_count "reset")))).
Proof.
  split; intros Hm ?; unfold apply; rewrite Hm; reflexivity.
Qed.

End ApplyChecks.

(** C5, as stated, fails: with no interval term configured, "interval"
    without [dt] returns with a warning and raises nothing; likewise "reset"
    without the step count when no reset term is configured. *)
Lemma apply_missing_argument_unconfigured_mode_returns :
  let mc := Demo.build 2 Demo.rand_zero
              (CfgDict [("init", EntryTerm (Demo.startup_term "init"))]) in
  ap_raised (apply Demo.rand_zero (fst mc) (snd mc) "interval" IdsNone None None) = None /\
  ap_raised (apply Demo.rand_zero (fst mc) (snd mc) "reset" IdsNone None None) = None.
Proof. vm_compute. split; reflexivity. Qed.

Lemma apply_missing_argument_raises_witness :
  let mc := Demo.build 2 Demo.rand_zero
              (CfgDict [("push", EntryTerm (Demo.interval_term "push" (1#2) (1#2) false));
                        ("init", EntryTerm (Demo.reset_term "init" 0))]) in
  apply Demo.rand_zero (fst mc) (snd mc) "interval" IdsNone None (Some 3%Z)
  = mkResult (fst mc) (snd mc) [] [] (Some (ValueError (msg_requires_dt "interval"))) /\
  apply Demo.rand_zero (fst mc) (snd mc) "reset" IdsNone (Some (1#2)%Q) None
  = mkResult (fst mc) (snd mc) [] [] (Some (ValueError (msg_requires_step_count "reset"))).
Proof.
  intros mc.
  destruct (apply_missing_argument_raises Demo.rand_zero (fst mc) (snd mc) IdsNone)
    as [Hi Hr].
  split.
  - apply Hi. vm_compute. reflexivity.
  - apply Hr. vm_compute. reflexivity.
Defined.

(** ** What [_prepare_terms] builds *)

Section PrepareFacts.

Context {T : Type} `{Scalar T}.
Variable num_envs : nat.
Variable rand : nat -> T.
Variable resolve : string -> EventTermCfg.t T -> Exn + (Callable * Params).

Local Abbreviation prep_term := (prepare_term num_envs rand resolve).
Local Abbreviation prep_loop := (prepare_loop num_envs rand resolve).

Lemma prepare_term_inv st name tc st' :
  prep_term st name (EntryTerm tc) = inr st' ->
  exists r ln lc,
    let mode := EventTermCfg.mode tc in
    let m := ps_manager st in
    let names0 := if dmem (_mode_term_names m) mode then _mode_term_names m
                  else dset (_mode_term_names m) mode [] in
    let cfgs0 := if dmem (_mode_term_names m) mode then _mode_term_cfgs m
                 else dset (_mode_term_cfgs m) mode [] in
    resolve name tc = inr r /\
    dget names0 mode = Some ln /\
    dget cfgs0 mode = Some lc /\
    _mode_term_names (ps_manager st') = dset names0 mode (ln ++ [name]) /\
    _mode_term_cfgs (ps_manager st') = dset cfgs0 mode (lc ++ [resolved_cfg tc r]).
Proof.
  unfold prepare_term. intros Hp.
  destruct (resolve name tc) as [e|r] eqn:Hr; [discriminate|].
  change (EventTermCfg.mode (resolved_cfg tc r)) with (EventTermCfg.mode tc) in Hp.
  destruct (dmem (_mode_term_names (ps_manager st)) (EventTermCfg.mode tc)) eqn:Hmem;
    cbn [negb] in Hp.
  all: repeat match type of Hp with
         | context [match ?x with _ => _ end] => destruct x eqn:?; try discriminate
         end.
  all: repeat match goal with
         | Hd : dappend _ _ _ = inr _ |- _ => apply dappend_inv in Hd as (? & ? & ->)
         end.
  all: injection Hp as <-; cbn.
  all: eauto 10.
Qed.

(** A property kept by every iteration holds of the prepared manager. *)
Lemma prepare_loop_invariant (P : PrepState (T:=T) -> Prop) items :
  (forall st name e st',
      In (name, e) items -> P st -> prep_term st name e = inr st' -> P st') ->
  forall st0 st, P st0 -> prep_loop items st0 = inr st -> P st.
Proof.
  induction items as [|[name e] items IH]; simpl; intros Hstep st0 st H0 Hl.
  - congruence.
  - destruct (prep_term st0 name e) as [err|st1] eqn:Ht; [discriminate|].
    eapply IH; [| |exact Hl].
    + intros. eapply Hstep; eauto.
    + eapply Hstep; eauto.
Qed.

(** Every mode of the prepared manager is the mode of a configured term. *)
Lemma prepare_modes_configured cfg cursor st mode :
  _prepare_terms num_envs rand resolve cfg cursor = inr st ->
  dmem (_mode_term_names (ps_manager st)) mode = true ->
  exists name tc, In (name, EntryTerm tc) (cfg_items cfg) /\ EventTermCfg.mode tc = mode.
Proof.
  unfold _prepare_terms. intros Hp.
  revert mode.
  apply (prepare_loop_invariant
           (fun st => forall mode,
                dmem (_mode_term_names (ps_manager st)) mode = true ->
                exists name tc, In (name, EntryTerm tc) (cfg_items cfg)
                                /\ EventTermCfg.mode tc = mode))
    with (3 := Hp).
  - intros st0 name e st1 Hin IH Ht mode Hmem.
    destruct e as [|tc|ty]; [injection Ht as <-; auto| |discriminate].
    apply prepare_term_inv in Ht as (r & ln & lc & _ & _ & _ & Hn & _).
    cbn zeta in Hn. rewrite Hn, dmem_dset in Hmem.
    destruct (String.eqb mode (EventTermCfg.mode tc)) eqn:E.
    + apply String.eqb_eq in E. eauto.
    + simpl in Hmem.
      destruct (dmem (_mode_term_names (ps_manager st0)) (EventTermCfg.mode tc)); auto.
      rewrite dmem_dset, E in Hmem. auto.
  - intros mode. discriminate.
Qed.

End PrepareFacts.

(** ** Modes without terms *)

(** C6.  When no term of the configuration has the mode, [apply] with that
    mode returns without an exception, invokes nothing, leaves the manager
    with its interval and reset tensors (and the random stream) as they were,
    and logs one warning. *)
Theorem apply_unconfigured_mode_is_noop
    {T : Type} `{Scalar T} (num_envs : nat) (rand : nat -> T)
    (resolve : string -> EventTermCfg.t T -> Exn + (Callable * Params))
    (cfg : ManagerCfg T) (cursor0 : nat) (st : PrepState)
    (mode : string) (cursor : nat) (env_ids : EnvIds) (dt : option T) (g : option Z) :
  _prepare_terms num_envs rand resolve cfg cursor0 = inr st ->
  (forall name tc, In (name, EntryTerm tc) (cfg_items cfg) -> EventTermCfg.mode tc <> mode) ->
  apply rand (ps_manager st) cursor mode env_ids dt g
  = mkResult (ps_manager st) cursor [] [msg_mode_not_defined mode] None.
Proof.
  intros Hp Hnone. apply apply_mode_not_defined.
  destruct (dmem (_mode_term_names (ps_manager st)) mode) eqn:Hm; [|reflexivity].
  destruct (prepare_modes_configured _ _ _ _ _ _ _ Hp Hm) as (name & tc & Hin & Hmode).
  exfalso. eapply Hnone; eauto.
Qed.

Lemma apply_unconfigured_mode_is_noop_witness :
  let cfg := CfgDict [("init", EntryTerm (Demo.startup_term "init"))] in
  let mc := Demo.build 2 Demo.rand_zero cfg in
  apply Demo.rand_zero (fst mc) 0 "interval" (IdsList [0%Z]) (Some (1 # 2)%Q) None
  = mkResult (fst mc) 0 [] [msg_mode_not_defined "interval"] None.
Proof.
  intros cfg mc.
  apply (apply_unconfigured_mode_is_noop 2 Demo.rand_zero Demo.resolve_ok cfg 0
           (mkPrep (fst mc) 0 [])).
  - vm_compute. reflexivity.
  - intros name tc Hin. simpl in Hin. destruct Hin as [Heq|[]].
    injection Heq as _ <-. simpl. discriminate.
Defined.

(** ** Preparation: well-formed dictionaries, buffers, rejected descriptors *)

Section PrepareWf.

Context {T : Type} `{Scalar T}.
Variable num_envs : nat.
Variable rand : nat -> T.
Variable resolve : string -> EventTermCfg.t T -> Exn + (Callable * Params).

Local Abbreviation prep_term := (prepare_term num_envs rand resolve).
Local Abbreviation prep_loop := (prepare_loop num_envs rand resolve).

Local Ltac split_prepare Hp :=
  repeat match type of Hp with
    | context [match ?x with _ => _ end] => destruct x eqn:?; try discriminate
    end;
  repeat match goal with
    | Hd : dappend _ _ _ = inr _ |- _ => apply dappend_inv in Hd as (? & ? & ->)
    end.

Lemma prepare_term_class st name tc st' :
  prep_term st name (EntryTerm tc) = inr st' ->
  let mode := EventTermCfg.mode tc in
  let m := ps_manager st in
  let cls0 := if dmem (_mode_term_names m) mode then _mode_class_term_cfgs m
              else dset (_mode_class_term_cfgs m) mode [] in
  _mode_class_term_cfgs (ps_manager st') = cls0 \/
  exists l, _mode_class_term_cfgs (ps_manager st') = dset cls0 mode l.
Proof.
  unfold prepare_term. intros Hp.
  destruct (resolve name tc) as [e|r] eqn:Hr; [discriminate|].
  change (EventTermCfg.mode (resolved_cfg tc r)) with (EventTermCfg.mode tc) in Hp.
  destruct (dmem (_mode_term_names (ps_manager st)) (EventTermCfg.mode tc)) eqn:Hmem;
    cbn [negb] in Hp.
  all: split_prepare Hp.
  all: match goal with
       | Hc : (if ?b then _ else _) = inr _ |- _ =>
           destruct b;
           [apply dappend_inv in Hc as (? & ? & ->) | injection Hc as <-]
       end.
  all: injection Hp as <-; cbn; eauto.
Qed.

Lemma prepare_term_buffers st name tc st' :
  prep_term st name (EntryTerm tc) = inr st' ->
  let mode := EventTermCfg.mode tc in
  length (_interval_term_time_left (ps_manager st'))
  = length (_interval_term_time_left (ps_manager st))
    + (if String.eqb mode "interval" then 1 else 0) /\
  length (_reset_term_last_triggered_step_id (ps_manager st'))
  = length (_reset_term_last_triggered_step_id (ps_manager st))
    + (if String.eqb mode "reset" then 1 else 0) /\
  ~ bad_timing tc.
Proof.
  unfold prepare_term, bad_timing. intros Hp.
  destruct (resolve name tc) as [e|r] eqn:Hr; [discriminate|].
  change (EventTermCfg.mode (resolved_cfg tc r)) with (EventTermCfg.mode tc) in Hp.
  change (EventTermCfg.interval_range_s (resolved_cfg tc r))
    with (EventTermCfg.interval_range_s tc) in Hp.
  change (EventTermCfg.min_step_count_between_reset (resolved_cfg tc r))
    with (EventTermCfg.min_step_count_between_reset tc) in Hp.
  assert (Hir : String.eqb (EventTermCfg.mode tc) "interval" = true ->
                String.eqb (EventTermCfg.mode tc) "reset" = false).
  { intros E. apply String.eqb_eq in E. rewrite E. reflexivity. }
  destruct (String.eqb (EventTermCfg.mode tc) "interval") eqn:Ei;
    [rewrite (Hir eq_refl) in *
    |destruct (String.eqb (EventTermCfg.mode tc) "reset") eqn:Er].
  all: clear Hir.
  all: split_prepare Hp.
  all: injection Hp as <-; cbn zeta; cbn [ps_manager _interval_term_time_left
                                          _reset_term_last_triggered_step_id].
  all: rewrite ?length_app; cbn [length].
  all: split; [lia|split; [lia|]].
  all: intros [[Hm Hb]|[Hm Hb]]; rewrite Hm in *; try discriminate; try congruence.
  all: repeat match goal with
         | Hz : (_ <? _)%Z = false |- _ => apply Z.ltb_ge in Hz
         end; lia.
Qed.

Lemma prepare_term_wf st name e st' :
  manager_wf (ps_manager st) ->
  prep_term st name e = inr st' ->
  manager_wf (ps_manager st').
Proof.
  intros (Hnd & Hall & Hcls) Hp.
  destruct e as [|tc|ty]; [injection Hp as <-; repeat split; auto| |discriminate].
  pose proof (prepare_term_class _ _ _ _ Hp) as Hc.
  apply prepare_term_inv in Hp as (r & ln & lc & _ & Hln & Hlc & Hn & Hcf).
  cbn zeta in *.
  set (mode := EventTermCfg.mode tc) in *.
  set (m := ps_manager st) in *.
  assert (Hnd0 : NoDup (dkeys (if dmem (_mode_term_names m) mode then _mode_term_names m
                               else dset (_mode_term_names m) mode []))).
  { destruct (dmem (_mode_term_names m) mode); [exact Hnd | apply dset_NoDup; exact Hnd]. }
  assert (Hlen : length lc = length ln).
  { destruct (dmem (_mode_term_names m) mode) eqn:Hmem.
    - apply dget_In in Hln. rewrite Forall_forall in Hall.
      apply list_elem_of_In in Hln.
      destruct (Hall _ Hln) as (l & Hl & Hlen). congruence.
    - rewrite dget_dset, String.eqb_refl in Hln.
      rewrite dget_dset, String.eqb_refl in Hlc.
      injection Hln as <-. injection Hlc as <-. reflexivity. }
  repeat split.
  - rewrite Hn. apply dset_NoDup. exact Hnd0.
  - rewrite Forall_forall. intros [k ts] Hin. apply list_elem_of_In in Hin.
    rewrite Hn in Hin. apply In_dset in Hin; [|exact Hnd0].
    rewrite Hcf, dget_dset.
    destruct Hin as [[-> ->]|[Hne Hin]].
    + rewrite String.eqb_refl. eexists; split; [reflexivity|].
      rewrite !length_app. simpl. lia.
    + apply String.eqb_neq in Hne. rewrite Hne.
      destruct (dmem (_mode_term_names m) mode) eqn:Hmem.
      * rewrite Forall_forall in Hall. apply list_elem_of_In in Hin.
        apply (Hall _ Hin).
      * apply In_dset in Hin; [|exact Hnd].
        destruct Hin as [[-> _]|[_ Hin]]; [rewrite String.eqb_refl in Hne; discriminate|].
        rewrite dget_dset, Hne.
        rewrite Forall_forall in Hall. apply list_elem_of_In in Hin.
        apply (Hall _ Hin).
  - intros k Hk. rewrite Hn, dmem_dset in Hk.
    assert (Hk0 : dmem (if dmem (_mode_term_names m) mode then _mode_class_term_cfgs m
                        else dset (_mode_class_term_cfgs m) mode []) k = true).
    { destruct (dmem (_mode_term_names m) mode) eqn:Hmem.
      - destruct (String.eqb k mode) eqn:E.
        + apply String.eqb_eq in E. subst k. auto.
        + simpl in Hk. auto.
      - rewrite dmem_dset in Hk. rewrite dmem_dset.
        destruct (String.eqb k mode); simpl in *; auto. }
    destruct Hc as [-> | [l ->]]; [exact Hk0|].
    rewrite dmem_dset, Hk0. apply orb_true_r.
Qed.

Lemma empty_manager_wf : manager_wf (empty_manager (T:=T)).
Proof.
  repeat split; simpl.
  - apply NoDup_nil_2.
  - apply Forall_nil_2.
  - discriminate.
Qed.

Lemma prepare_loop_wf items st0 st :
  manager_wf (ps_manager st0) ->
  prep_loop items st0 = inr st ->
  manager_wf (ps_manager st).
Proof.
  intros H0 Hl.
  apply (prepare_loop_invariant num_envs rand resolve
           (fun st => manager_wf (ps_manager st)) items) with (2 := H0) (3 := Hl).
  intros. eapply prepare_term_wf; eauto.
Qed.

(** The manager that construction yields is well formed. *)
Lemma prepare_terms_wf cfg cursor st :
  _prepare_terms num_envs rand resolve cfg cursor = inr st ->
  manager_wf (ps_manager st).
Proof.
  unfold _prepare_terms. apply prepare_loop_wf. apply empty_manager_wf.
Qed.

End PrepareWf.

(** ** Looking a term up by name *)

Lemma list_index_lt term_name terms i :
  list_index term_name terms = Some i -> i < length terms.
Proof.
  revert i. induction terms as [|x terms IH]; simpl; intros i; [discriminate|].
  destruct (String.eqb term_name x).
  - intros [= <-]. lia.
  - destruct (list_index term_name terms) as [j|]; [|discriminate].
    intros [= <-]. specialize (IH j eq_refl). lia.
Qed.

Lemma list_index_In term_name terms :
  In term_name terms -> exists i, list_index term_name terms = Some i.
Proof.
  induction terms as [|x terms IH]; simpl; [tauto|].
  intros Hin. destruct (String.eqb term_name x) eqn:E; [eauto|].
  apply String.eqb_neq in E.
  destruct Hin as [->|Hin]; [congruence|].
  destruct (IH Hin) as [j ->]. eauto.
Qed.

Lemma list_index_Some_In term_name terms i :
  list_index term_name terms = Some i -> In term_name terms.
Proof.
  revert i. induction terms as [|x terms IH]; simpl; intros i; [discriminate|].
  destruct (String.eqb term_name x) eqn:E.
  - apply String.eqb_eq in E. auto.
  - destruct (list_index term_name terms) as [j|]; [|discriminate]. eauto.
Qed.

Lemma find_term_Some names term_name mode i :
  find_term names term_name = Some (mode, i) ->
  exists terms, In (mode, terms) names /\ list_index term_name terms = Some i.
Proof.
  induction names as [|[k ts] names IH]; simpl; [discriminate|].
  destruct (list_index term_name ts) as [j|] eqn:E.
  - intros [= <- <-]. eauto.
  - intros Hf. destruct (IH Hf) as (terms & Hin & Hi). eauto.
Qed.

Lemma find_term_None names term_name :
  find_term names term_name = None ->
  forall mode terms, In (mode, terms) names -> ~ In term_name terms.
Proof.
  induction names as [|[k ts] names IH]; simpl; [tauto|].
  destruct (list_index term_name ts) as [j|] eqn:E; [discriminate|].
  intros Hf mode terms [Heq|Hin] Hn.
  - injection Heq as <- <-. apply list_index_In in Hn as [j Hj]. congruence.
  - eapply IH; eauto.
Qed.

Section TermCfgRoundTrip.

Context {T : Type}.
Implicit Types (m : EventManager T) (cfg : EventTermCfg.t T).

Lemma set_term_cfg_wf m term_name cfg m' :
  manager_wf m -> set_term_cfg m term_name cfg = inr m' -> manager_wf m'.
Proof.
  intros (Hnd & Hall & Hcls). unfold set_term_cfg.
  destruct (find_term (_mode_term_names m) term_name) as [[mode i]|]; [|discriminate].
  destruct (dget (_mode_term_cfgs m) mode) as [l|] eqn:Hl; [|discriminate].
  destruct (i <? length l); [|discriminate].
  intros [= <-]. repeat split; cbn; auto.
  rewrite Forall_forall in *. intros [k ts] Hin.
  destruct (Hall _ Hin) as (l0 & Hl0 & Hlen).
  rewrite dget_dset. destruct (String.eqb k mode) eqn:E; [|eauto].
  apply String.eqb_eq in E. subst k.
  eexists. split; [reflexivity|]. rewrite length_insert. congruence.
Qed.

(** C9.  On a manager whose dictionaries agree (as construction leaves them,
    and as [set_term_cfg] keeps them): for a name listed under some mode,
    [set_term_cfg] succeeds and [get_term_cfg] then returns the descriptor
    that was set; for a name listed under no mode, both raise the error
    "Event term '<name>' not found.". *)
Theorem set_then_get_term_cfg m term_name cfg :
  manager_wf m ->
  (term_configured m term_name ->
   exists m', set_term_cfg m term_name cfg = inr m' /\
              get_term_cfg m' term_name = inr cfg /\
              manager_wf m') /\
  (~ term_configured m term_name ->
   forall cfg',
     set_term_cfg m term_name cfg' = inl (ValueError (msg_term_not_found term_name)) /\
     get_term_cfg m term_name = inl (ValueError (msg_term_not_found term_name))).
Proof.
  intros Hwf. split.
  - intros (mode0 & terms0 & Hin0 & Hn0).
    destruct (find_term (_mode_term_names m) term_name) as [[mode i]|] eqn:Hf.
    + destruct (find_term_Some _ _ _ _ Hf) as (terms & Hin & Hi).
      destruct Hwf as (Hnd & Hall & Hcls).
      rewrite Forall_forall in Hall.
      destruct (Hall _ (proj2 (list_elem_of_In _ _) Hin)) as (l & Hl & Hlen).
      pose proof (list_index_lt _ _ _ Hi) as Hlt.
      assert (Hset : set_term_cfg m term_name cfg
                     = inr (mkManager (_mode_term_names m)
                              (dset (_mode_term_cfgs m) mode (<[i := cfg]> l))
                              (_mode_class_term_cfgs m)
                              (_interval_term_time_left m)
                              (_reset_term_last_triggered_step_id m))).
      { unfold set_term_cfg. rewrite Hf, Hl.
        destruct (Nat.ltb_spec i (length l)); [reflexivity | lia]. }
      eexists. split; [exact Hset|]. split.
      * unfold get_term_cfg. cbn. rewrite Hf, dget_dset, String.eqb_refl.
        rewrite list_lookup_insert_eq by lia. reflexivity.
      * eapply set_term_cfg_wf; [|exact Hset]. repeat split; auto.
        rewrite Forall_forall. exact Hall.
    + exfalso. eapply find_term_None; eauto.
  - intros Hnot cfg'.
    destruct (find_term (_mode_term_names m) term_name) as [[mode i]|] eqn:Hf.
    + exfalso. apply Hnot.
      destruct (find_term_Some _ _ _ _ Hf) as (terms & Hin & Hi).
      exists mode, terms. split; [exact Hin|]. eapply list_index_Some_In; eauto.
    + unfold set_term_cfg, get_term_cfg. rewrite Hf. auto.
Qed.

End TermCfgRoundTrip.

Lemma set_then_get_term_cfg_witness :
  let mc := Demo.build 2 Demo.rand_zero
              (CfgDict [("init", EntryTerm (Demo.startup_term "init"));
                        ("push", EntryTerm (Demo.interval_term "push" (1#2) (1#2) false))]) in
  let cfg := Demo.interval_term "shove" 1 2 true in
  (exists m', set_term_cfg (fst mc) "push" cfg = inr m' /\
              get_term_cfg m' "push" = inr cfg /\
              manager_wf m') /\
  (set_term_cfg (fst mc) "pull" cfg = inl (ValueError (msg_term_not_found "pull")) /\
   get_term_cfg (fst mc) "pull" = inl (ValueError (msg_term_not_found "pull"))).
Proof.
  intros mc cfg.
  assert (Hwf : manager_wf (fst mc)).
  { apply (prepare_terms_wf 2 Demo.rand_zero Demo.resolve_ok
             (CfgDict [("init", EntryTerm (Demo.startup_term "init"));
                       ("push", EntryTerm (Demo.interval_term "push" (1#2) (1#2) false))])
             0 (mkPrep (fst mc) (snd mc) [])).
    vm_compute. reflexivity. }
  split.
  - apply (proj1 (set_then_get_term_cfg (fst mc) "push" cfg Hwf)).
    exists "interval", ["push"]. simpl. auto.
  - apply (proj2 (set_then_get_term_cfg (fst mc) "pull" cfg Hwf)).
    intros (mode & terms & Hin & Hn). simpl in Hin.
    destruct Hin as [Heq|[Heq|[]]]; injection Heq as <- <-;
      simpl in Hn; destruct Hn as [Hn|[]]; discriminate.
Defined.

(** ** Descriptors that preparation rejects *)

Section PrepareRejects.

Context {T : Type} `{Scalar T}.
Variable num_envs : nat.
Variable rand : nat -> T.
Variable resolve : string -> EventTermCfg.t T -> Exn + (Callable * Params).

Local Abbreviation prep_term := (prepare_term num_envs rand resolve).
Local Abbreviation prep_loop := (prepare_loop num_envs rand resolve).

Lemma prepare_loop_app pre post st0 :
  prep_loop (pre ++ post) st0
  = match prep_loop pre st0 with
    | inl e => inl e
    | inr st1 => prep_loop post st1
    end.
Proof.
  revert st0. induction pre as [|[name e] pre IH]; simpl; intros st0; [reflexivity|].
  destruct (prep_term st0 name e); [reflexivity | apply IH].
Qed.

Lemma prepare_loop_no_bad_timing items st0 st name tc :
  prep_loop items st0 = inr st ->
  In (name, EntryTerm tc) items ->
  ~ bad_timing tc.
Proof.
  revert st0. induction items as [|[n e] items IH]; simpl; intros st0 Hl Hin; [tauto|].
  destruct (prep_term st0 n e) as [err|st1] eqn:Ht; [discriminate|].
  destruct Hin as [Heq|Hin].
  - injection Heq as -> ->. apply prepare_term_buffers in Ht. tauto.
  - eapply IH; eauto.
Qed.

Lemma dmem_dget {V} (d : dict V) k : dmem d k = true -> exists v, dget d k = Some v.
Proof. unfold dmem. destruct (dget d k); [eauto | discriminate]. Qed.

Lemma prepare_term_bad_timing st name tc r :
  manager_wf (ps_manager st) ->
  resolve name tc = inr r ->
  bad_timing tc ->
  prep_term st name (EntryTerm tc) = inl (bad_timing_error name tc).
Proof.
  intros (Hnd & Hall & Hcls) Hr Hbad.
  unfold prepare_term. rewrite Hr.
  change (EventTermCfg.mode (resolved_cfg tc r)) with (EventTermCfg.mode tc).
  change (EventTermCfg.interval_range_s (resolved_cfg tc r))
    with (EventTermCfg.interval_range_s tc).
  change (EventTermCfg.min_step_count_between_reset (resolved_cfg tc r))
    with (EventTermCfg.min_step_count_between_reset tc).
  set (mode := EventTermCfg.mode tc) in *.
  set (m := ps_manager st) in *.
  assert (Hok : exists names cfgs cls,
             dappend (if negb (dmem (_mode_term_names m) mode)
                      then dset (_mode_term_names m) mode [] else _mode_term_names m)
               mode name = inr names /\
             dappend (if negb (dmem (_mode_term_names m) mode)
                      then dset (_mode_term_cfgs m) mode [] else _mode_term_cfgs m)
               mode (resolved_cfg tc r) = inr cfgs /\
             (if is_manager_term (EventTermCfg.func (resolved_cfg tc r))
              then dappend (if negb (dmem (_mode_term_names m) mode)
                            then dset (_mode_class_term_cfgs m) mode []
                            else _mode_class_term_cfgs m)
                     mode (resolved_cfg tc r)
              else inr (if negb (dmem (_mode_term_names m) mode)
                        then dset (_mode_class_term_cfgs m) mode []
                        else _mode_class_term_cfgs m)) = inr cls).
  { unfold dappend. destruct (dmem (_mode_term_names m) mode) eqn:Hmem; cbn [negb].
    - destruct (dmem_dget _ _ Hmem) as [ln Hln]. rewrite Hln.
      rewrite Forall_forall in Hall.
      destruct (Hall _ (proj2 (list_elem_of_In _ _) (dget_In _ _ _ Hln))) as (lc & Hlc & _).
      rewrite Hlc.
      destruct (dmem_dget _ _ (Hcls _ Hmem)) as [lk Hlk]. rewrite Hlk.
      destruct (is_manager_term _); eauto 10.
    - rewrite !dget_dset, String.eqb_refl.
      destruct (is_manager_term _); eauto 10. }
  destruct Hok as (names & cfgs & cls & -> & -> & ->).
  unfold bad_timing_error. fold mode.
  destruct Hbad as [[Hm Hb]|[Hm Hb]]; fold mode in Hm; rewrite Hm; cbn.
  - rewrite Hb. reflexivity.
  - destruct (Z.ltb_spec (EventTermCfg.min_step_count_between_reset tc) 0);
      [reflexivity | lia].
Qed.

(** C7.  A configuration with a descriptor of mode "interval" without
    [interval_range_s], or of mode "reset" with a negative
    [min_step_count_between_reset], is rejected by [_prepare_terms]:
    construction ends in an exception and yields no manager on which [apply]
    could be called.  When the entries before that descriptor prepare without
    error and the descriptor passes the common resolution, the exception is
    the [ValueError] that names the term. *)
Theorem prepare_rejects_bad_timing cfg cursor name tc :
  In (name, EntryTerm tc) (cfg_items cfg) ->
  bad_timing tc ->
  (exists e, _prepare_terms num_envs rand resolve cfg cursor = inl e) /\
  (forall pre post st1 r,
      cfg_items cfg = pre ++ (name, EntryTerm tc) :: post ->
      prep_loop pre (mkPrep empty_manager cursor []) = inr st1 ->
      resolve name tc = inr r ->
      _prepare_terms num_envs rand resolve cfg cursor = inl (bad_timing_error name tc)).
Proof.
  intros Hin Hbad. split.
  - destruct (_prepare_terms num_envs rand resolve cfg cursor) as [e|st] eqn:Hp; [eauto|].
    exfalso. eapply prepare_loop_no_bad_timing; eauto.
  - intros pre post st1 r Hitems Hpre Hr.
    unfold _prepare_terms. rewrite Hitems, prepare_loop_app, Hpre.
    cbn [prepare_loop].
    rewrite (prepare_term_bad_timing st1 name tc r); auto.
    eapply prepare_loop_wf; [|exact Hpre]. apply empty_manager_wf.
Qed.

End PrepareRejects.

Lemma prepare_rejects_bad_timing_witness :
  let bad_interval : EventTermCfg.t Q :=
    EventTermCfg.mk (Function "push") [] "interval" None false 0%Z in
  let bad_reset := Demo.reset_term "respawn" (-1) in
  let cfg1 := CfgDict [("init", EntryTerm (Demo.startup_term "init"));
                       ("push", EntryTerm bad_interval)] in
  let cfg2 := CfgObject [("respawn", EntryTerm bad_reset)] in
  _prepare_terms 2 Demo.rand_zero Demo.resolve_ok cfg1 0
    = inl (ValueError (msg_no_interval_range "push")) /\
  _prepare_terms 2 Demo.rand_zero Demo.resolve_ok cfg2 0
    = inl (ValueError (msg_negative_min_step "respawn" (-1))).
Proof.
  intros bad_interval bad_reset cfg1 cfg2. split.
  - refine (proj2 (prepare_rejects_bad_timing 2 Demo.rand_zero Demo.resolve_ok
                     cfg1 0 "push" bad_interval _ _)
              [("init", EntryTerm (Demo.startup_term "init"))] []
              (mkPrep (fst (Demo.build 2 Demo.rand_zero
                              (CfgDict [("init", EntryTerm (Demo.startup_term "init"))])))
                 0 [])
              (Function "push", []) _ _ _).
    + simpl. auto.
    + left. split; reflexivity.
    + reflexivity.
    + vm_compute. reflexivity.
    + reflexivity.
  - refine (proj2 (prepare_rejects_bad_timing 2 Demo.rand_zero Demo.resolve_ok
                     cfg2 0 "respawn" bad_reset _ _)
              [] [] (mkPrep empty_manager 0 []) (Function "respawn", []) _ _ _).
    + simpl. auto.
    + right. split; [reflexivity | simpl; lia].
    + reflexivity.
    + reflexivity.
    + reflexivity.
Defined.

(** ** Disabled terms *)

Section PrepareDisabled.

Context {T : Type} `{Scalar T}.
Variable num_envs : nat.
Variable rand : nat -> T.
Variable resolve : string -> EventTermCfg.t T -> Exn + (Callable * Params).

Local Abbreviation prep_term := (prepare_term num_envs rand resolve).
Local Abbreviation prep_loop := (prepare_loop num_envs rand resolve).

Lemma prepare_loop_enabled items st0 :
  prep_loop items st0 = prep_loop (enabled_items items) st0.
Proof.
  revert st0. induction items as [|[name e] items IH]; intros st0; [reflexivity|].
  destruct e as [|tc|ty]; cbn [enabled_items List.filter snd is_entry_none negb].
  - cbn [prepare_loop prepare_term]. apply IH.
  - cbn [prepare_loop].
    destruct (prep_term st0 name (EntryTerm tc)); [reflexivity | apply IH].
  - reflexivity.
Qed.

Lemma prepare_loop_buffers items st0 st :
  prep_loop items st0 = inr st ->
  length (_interval_term_time_left (ps_manager st))
  = length (_interval_term_time_left (ps_manager st0)) + count_mode "interval" items /\
  length (_reset_term_last_triggered_step_id (ps_manager st))
  = length (_reset_term_last_triggered_step_id (ps_manager st0)) + count_mode "reset" items.
Proof.
  revert st0. induction items as [|[name e] items IH]; intros st0 Hl.
  - injection Hl as <-. unfold count_mode. simpl. lia.
  - cbn [prepare_loop] in Hl.
    destruct (prep_term st0 name e) as [err|st1] eqn:Ht; [discriminate|].
    destruct (IH _ Hl) as [Hi Hr]. rewrite Hi, Hr.
    unfold count_mode. cbn [List.filter snd].
    destruct e as [|tc|ty]; [injection Ht as <-; lia| |discriminate].
    destruct (prepare_term_buffers _ _ _ _ _ _ _ Ht) as (Hi1 & Hr1 & _).
    cbn zeta in Hi1, Hr1. rewrite Hi1, Hr1.
    split.
    + destruct (String.eqb (EventTermCfg.mode tc) "interval"); cbn [length]; lia.
    + destruct (String.eqb (EventTermCfg.mode tc) "reset"); cbn [length]; lia.
Qed.

(** The names the prepared manager lists are names of descriptors of the
    configuration. *)
Lemma prepare_names_configured cfg cursor st mode terms term_name :
  _prepare_terms num_envs rand resolve cfg cursor = inr st ->
  In (mode, terms) (_mode_term_names (ps_manager st)) ->
  In term_name terms ->
  exists tc, In (term_name, EntryTerm tc) (cfg_items cfg).
Proof.
  unfold _prepare_terms. intros Hp.
  enough (Hinv : manager_wf (ps_manager st) /\
                 forall mode terms term_name,
                   In (mode, terms) (_mode_term_names (ps_manager st)) ->
                   In term_name terms ->
                   exists tc, In (term_name, EntryTerm tc) (cfg_items cfg))
    by (intros; eapply (proj2 Hinv); eauto).
  apply (prepare_loop_invariant num_envs rand resolve
           (fun st => manager_wf (ps_manager st) /\
                      forall mode terms term_name,
                        In (mode, terms) (_mode_term_names (ps_manager st)) ->
                        In term_name terms ->
                        exists tc, In (term_name, EntryTerm tc) (cfg_items cfg)))
    with (3 := Hp).
  - intros st0 name e st1 Hin [Hwf IH] Ht.
    split; [eapply prepare_term_wf; eauto|].
    destruct e as [|tc|ty]; [injection Ht as <-; exact IH| |discriminate].
    apply prepare_term_inv in Ht as (r & ln & lc & _ & Hln & _ & Hn & _).
    cbn zeta in Hln, Hn.
    destruct Hwf as (Hnd & _ & _).
    intros k ts n Hk Hn'. rewrite Hn in Hk.
    destruct (dmem (_mode_term_names (ps_manager st0)) (EventTermCfg.mode tc)) eqn:Hmem.
    + apply In_dset in Hk; [|exact Hnd].
      destruct Hk as [[-> ->]|[_ Hk]]; [|eauto].
      apply in_app_or in Hn'. destruct Hn' as [Hn'|[<-|[]]]; [|eauto].
      apply dget_In in Hln. eauto.
    + rewrite dget_dset, String.eqb_refl in Hln. injection Hln as <-.
      apply In_dset in Hk; [|apply dset_NoDup; exact Hnd].
      destruct Hk as [[-> ->]|[_ Hk]].
      * destruct Hn' as [<-|[]]. eauto.
      * apply In_dset in Hk; [|exact Hnd].
        destruct Hk as [[-> ->]|[_ Hk]]; [destruct Hn'|eauto].
  - split; [apply empty_manager_wf|]. intros k ts n [].
Qed.

(** C8.  A term name whose descriptor is [None], in a configuration given as
    a dictionary or as an object (names are not repeated in either):
    preparation yields exactly what it yields for the configuration without
    the [None] entries (the same manager, the same use of the random stream,
    the same warnings, or the same exception), so [apply] on the manager
    never sees the term; the name is listed under no mode of [active_terms];
    and there are as many interval and reset tensors as there are
    descriptors of mode "interval" and "reset". *)
Theorem prepare_skips_disabled_terms cfg cursor term_name :
  In (term_name, EntryNone) (cfg_items cfg) ->
  NoDup (map fst (cfg_items cfg)) ->
  _prepare_terms num_envs rand resolve cfg cursor
  = _prepare_terms num_envs rand resolve (enabled_cfg cfg) cursor /\
  forall st,
    _prepare_terms num_envs rand resolve cfg cursor = inr st ->
    (forall mode terms,
        In (mode, terms) (active_terms (ps_manager st)) -> ~ In term_name terms) /\
    length (_interval_term_time_left (ps_manager st))
    = count_mode "interval" (cfg_items cfg) /\
    length (_reset_term_last_triggered_step_id (ps_manager st))
    = count_mode "reset" (cfg_items cfg).
Proof.
  intros Hnone Hnd. split.
  - unfold _prepare_terms. rewrite prepare_loop_enabled.
    destruct cfg; reflexivity.
  - intros st Hp. split.
    + intros mode terms Hin Hn.
      destruct (prepare_names_configured _ _ _ _ _ _ Hp Hin Hn) as [tc Htc].
      assert (Heq : EntryNone = EntryTerm tc); [|discriminate].
      clear -Hnone Htc Hnd.
      induction (cfg_items cfg) as [|[n e] items IH]; [destruct Hnone|].
      cbn [map fst] in Hnd. apply NoDup_cons in Hnd as [Hfresh Hnd].
      assert (Hkey : forall e', In (term_name, e') items -> n <> term_name).
      { intros e' He' ->. apply Hfresh. apply list_elem_of_In.
        apply in_map_iff. exists (term_name, e'). auto. }
      destruct Hnone as [Hnone|Hnone], Htc as [Htc|Htc].
      * congruence.
      * injection Hnone as -> _. exfalso. eapply Hkey; eauto.
      * injection Htc as -> _. exfalso. eapply Hkey; eauto.
      * auto.
    + unfold _prepare_terms in Hp. apply prepare_loop_buffers in Hp. simpl in Hp. exact Hp.
Qed.

End PrepareDisabled.

Lemma prepare_skips_disabled_terms_witness :
  let cfg := CfgObject [("init", EntryTerm (Demo.startup_term "init"));
                        ("push", EntryNone);
                        ("respawn", EntryTerm (Demo.reset_term "respawn" 0))] in
  let mc := Demo.build 2 Demo.rand_zero cfg in
  _prepare_terms 2 Demo.rand_zero Demo.resolve_ok cfg 0
  = _prepare_terms 2 Demo.rand_zero Demo.resolve_ok (enabled_cfg cfg) 0 /\
  (forall mode terms, In (mode, terms) (active_terms (fst mc)) -> ~ In "push" terms) /\
  length (_interval_term_time_left (fst mc)) = 0 /\
  length (_reset_term_last_triggered_step_id (fst mc)) = 1.
Proof.
  intros cfg mc.
  assert (Hin : In ("push", EntryNone) (cfg_items cfg)) by (simpl; auto).
  assert (Hnd : NoDup (map fst (cfg_items cfg))).
  { simpl. repeat (apply NoDup_cons_2; [rewrite !list_elem_of_In; simpl; intuition discriminate|]).
    apply NoDup_nil_2. }
  destruct (prepare_skips_disabled_terms 2 Demo.rand_zero Demo.resolve_ok cfg 0 "push" Hin Hnd)
    as [Heq Hst].
  split; [exact Heq|].
  apply (Hst (mkPrep (fst mc) (snd mc) [])).
  vm_compute. reflexivity.
Defined.

(** ** [env_ids] across the terms of one call *)

Section EnvIdsThreading.

Context {T : Type} `{Scalar T}.
Variable rand : nat -> T.

Local Abbreviation gate_of := (gate rand).
Local Abbreviation run_terms := (apply_terms rand).

Lemma gate_calls ctx index tc st :
  ls_calls (gate_state (gate_of ctx index tc st)) = ls_calls st.
Proof.
  destruct ctx; cbn [gate];
    unfold interval_gate, reset_gate; repeat case_match; reflexivity.
Qed.

Lemma gate_keeps_env_ids ctx index tc st :
  rebinds_env_ids ctx tc = false ->
  ls_env_ids (gate_state (gate_of ctx index tc st)) = ls_env_ids st.
Proof.
  destruct ctx; cbn [gate rebinds_env_ids]; intros Hk.
  - apply negb_false_iff in Hk. unfold interval_gate. rewrite Hk.
    repeat case_match; reflexivity.
  - apply negb_false_iff in Hk. unfold reset_gate. rewrite Hk.
    repeat case_match; reflexivity.
  - reflexivity.
Qed.

Lemma gate_rebinds_env_ids ctx index tc st :
  rebinds_env_ids ctx tc = true ->
  (exists e st', gate_of ctx index tc st = Raise e st') \/
  exists fired, ls_env_ids (gate_state (gate_of ctx index tc st)) = IdsList fired.
Proof.
  destruct ctx; cbn [gate rebinds_env_ids]; intros Hk.
  - apply negb_true_iff in Hk. unfold interval_gate. rewrite Hk.
    repeat case_match; eauto.
  - apply negb_true_iff in Hk. unfold reset_gate. rewrite Hk.
    repeat case_match; eauto.
  - discriminate.
Qed.

Lemma apply_terms_without_rebinding ctx rest st :
  forallb (fun it => negb (rebinds_env_ids ctx (snd it))) rest = true ->
  ls_env_ids (fst (run_terms ctx rest st)) = ls_env_ids st /\
  exists later,
    ls_calls (fst (run_terms ctx rest st)) = ls_calls st ++ later /\
    Forall (fun c => call_env_ids c = ls_env_ids st) later.
Proof.
  revert st. induction rest as [|[index tc] rest IH]; intros st Hall.
  - simpl. split; [reflexivity|]. exists []. rewrite app_nil_r. auto.
  - cbn [forallb snd] in Hall. apply andb_true_iff in Hall as [Hk Hall].
    apply negb_true_iff in Hk.
    pose proof (gate_keeps_env_ids ctx index tc st Hk) as He.
    pose proof (gate_calls ctx index tc st) as Hc.
    cbn [apply_terms].
    destruct (gate_of ctx index tc st) as [st'|st'|e st']; cbn [gate_state] in He, Hc.
    + destruct (IH (with_call st' (mkCall (EventTermCfg.func tc) (ls_env_ids st')
                                      (EventTermCfg.params tc))) Hall)
        as (He' & later & Hl & Hf).
      cbn [with_call ls_env_ids ls_calls] in He', Hl, Hf.
      split; [congruence|].
      exists (mkCall (EventTermCfg.func tc) (ls_env_ids st') (EventTermCfg.params tc) :: later).
      split.
      * rewrite Hl, Hc, <- app_assoc. reflexivity.
      * constructor; [exact He|]. rewrite <- He. exact Hf.
    + destruct (IH st' Hall) as (He' & later & Hl & Hf).
      split; [congruence|]. exists later. split; [congruence|].
      rewrite <- He. exact Hf.
    + simpl. split; [exact He|]. exists []. rewrite app_nil_r. auto.
Qed.

End EnvIdsThreading.

(** Within two calls of [apply]: the gated term has fired for the
    environments 0 and 1 at step 5; at step 8, called for all environments
    ([env_ids] is [None]), it fires for 2 and 3, and the ungated term after
    it is invoked for 2 and 3 as well, not for all environments. *)
Example apply_reset_second_term_gets_fired_subset :
  let mc := Demo.build 4 Demo.rand_zero
              (CfgDict [("respawn", EntryTerm (Demo.reset_term "respawn" 5));
                        ("recolor", EntryTerm (Demo.reset_term "recolor" 0))]) in
  let r1 := apply Demo.rand_zero (fst mc) (snd mc) "reset" (IdsList [0; 1]%Z) None (Some 5%Z) in
  let r2 := apply Demo.rand_zero (ap_manager r1) (ap_cursor r1) "reset" IdsNone None (Some 8%Z) in
  ap_calls r2 = [mkCall (Function "respawn") (IdsList [2; 3]%Z) [];
                 mkCall (Function "recolor") (IdsList [2; 3]%Z) []].
Proof. vm_compute. reflexivity. Qed.

(** ** Tensor facts *)

Section TorchFacts.

Context {A : Type}.
Implicit Types (t vs pre : list A) (mask : list bool).

Lemma resolve_index_nat n k : k < n -> Torch.resolve_index n (Z.of_nat k) = Some k.
Proof.
  intros Hk. unfold Torch.resolve_index.
  destruct (Z.leb_spec 0 (Z.of_nat k)); [|lia].
  destruct (Z.ltb_spec (Z.of_nat k) (Z.of_nat n)); [|lia].
  simpl. rewrite Nat2Z.id. reflexivity.
Qed.

Lemma length_nonzero_from i mask :
  length (Torch.nonzero_from i mask) = length (List.filter (fun b => b) mask).
Proof.
  revert i. induction mask as [|[] mask IH]; intros i; simpl; auto.
Qed.

Lemma In_nonzero_from i mask z :
  In z (Torch.nonzero_from i mask) <->
  exists k, z = (i + Z.of_nat k)%Z /\ mask !! k = Some true.
Proof.
  revert i. induction mask as [|b mask IH]; intros i; simpl.
  - split; [tauto | intros (k & _ & Hk); discriminate].
  - assert (Hrest : In z (Torch.nonzero_from (i + 1) mask) <->
                    exists k, z = (i + Z.of_nat (S k))%Z /\ mask !! k = Some true).
    { rewrite IH. split; intros (k & -> & Hk); exists k; split; auto; lia. }
    destruct b; simpl; rewrite ?Hrest; split.
    + intros [<-|(k & -> & Hk)]; [exists 0; split; [lia|reflexivity] | exists (S k); auto].
    + intros ([|k] & -> & Hk); [left; lia | right; eauto].
    + intros (k & -> & Hk). exists (S k); auto.
    + intros ([|k] & -> & Hk); [discriminate | eauto].
Qed.

Lemma index_put_nonzero_from pre t mask vs :
  length mask = length t ->
  length (Torch.nonzero_from (Z.of_nat (length pre)) mask) <= length vs ->
  Torch.index_put (pre ++ t) (Torch.nonzero_from (Z.of_nat (length pre)) mask) vs
  = Some (pre ++ masked_scatter mask t vs).
Proof.
  revert pre t vs. induction mask as [|b mask IH]; intros pre t vs Hlen Hvs.
  - destruct t; [reflexivity | discriminate].
  - destruct t as [|x t]; [discriminate|]. injection Hlen as Hlen.
    assert (Hnext : (Z.of_nat (length pre) + 1)%Z = Z.of_nat (length (pre ++ [x]))).
    { rewrite length_app. simpl. lia. }
    destruct b; cbn [Torch.nonzero_from masked_scatter] in *.
    + destruct vs as [|v vs]; [simpl in Hvs; lia|].
      cbn [Torch.index_put].
      rewrite resolve_index_nat by (rewrite length_app; simpl; lia).
      replace (<[length pre := v]> (pre ++ x :: t)) with ((pre ++ [v]) ++ t).
      2:{ rewrite <- (Nat.add_0_r (length pre)), insert_app_r. simpl.
          rewrite <- app_assoc. reflexivity. }
      replace (Z.of_nat (length pre) + 1)%Z with (Z.of_nat (length (pre ++ [v]))) in *
        by (rewrite length_app; simpl; lia).
      rewrite IH; [|exact Hlen|simpl in Hvs; lia].
      rewrite <- app_assoc. reflexivity.
    + rewrite Hnext in *.
      replace (pre ++ x :: t) with ((pre ++ [x]) ++ t) by (rewrite <- app_assoc; reflexivity).
      rewrite IH; [|exact Hlen|exact Hvs].
      rewrite <- app_assoc. reflexivity.
Qed.

Lemma index_put_nonzero t mask vs :
  length mask = length t ->
  length (Torch.nonzero mask) <= length vs ->
  Torch.index_put t (Torch.nonzero mask) vs = Some (masked_scatter mask t vs).
Proof. intros. apply (index_put_nonzero_from [] t mask vs); assumption. Qed.

Lemma length_masked_scatter mask t vs : length (masked_scatter mask t vs) = length t.
Proof.
  revert t vs. induction mask as [|[] mask IH]; intros [|x t] vs; simpl; auto.
  destruct vs; simpl; auto.
Qed.

(** Entries under a false mask bit stay. *)
Lemma masked_scatter_keeps mask t vs k :
  mask !! k = Some false -> masked_scatter mask t vs !! k = t !! k.
Proof.
  revert t vs k. induction mask as [|b mask IH]; intros t vs k Hk; [discriminate|].
  destruct t as [|x t]; [destruct b; reflexivity|].
  destruct b.
  - destruct k as [|k]; [discriminate|]. simpl in Hk.
    destruct vs as [|v vs]; [reflexivity|]. simpl. apply IH. exact Hk.
  - destruct k as [|k]; [reflexivity|]. simpl. apply IH. exact Hk.
Qed.

(** Entries under a true mask bit take a value of [vs]: the one whose rank is
    the number of true bits before the entry. *)
Lemma masked_scatter_takes mask t vs k :
  length mask = length t ->
  length (List.filter (fun b => b) mask) <= length vs ->
  mask !! k = Some true ->
  masked_scatter mask t vs !! k = vs !! length (List.filter (fun b => b) (take k mask)).
Proof.
  revert t vs k. induction mask as [|b mask IH]; intros [|x t] vs k Hlen Hvs Hk;
    try discriminate.
  injection Hlen as Hlen.
  destruct b.
  - destruct vs as [|v vs]; [simpl in Hvs; lia|].
    destruct k as [|k]; [reflexivity|].
    simpl. simpl in Hk. apply IH; auto. simpl in Hvs. lia.
  - destruct k as [|k]; [discriminate|]. simpl. apply IH; auto.
Qed.

End TorchFacts.

Lemma lookup_map {A B} (f : A -> B) (l : list A) i :
  map f l !! i = option_map f (l !! i).
Proof.
  revert i. induction l as [|x l IH]; intros [|i]; simpl; auto.
Qed.

(** ** Interval timing per environment *)

Section IntervalPerEnv.

Context {T : Type} `{Scalar T}.
Variable rand : nat -> T.

Local Abbreviation run_terms := (apply_terms rand).

Lemma lookup_draws cursor n j :
  j < n -> draws rand cursor n !! j = Some (rand (cursor + j)).
Proof.
  intros Hj. unfold draws. rewrite lookup_map, lookup_seq_lt by exact Hj. reflexivity.
Qed.

Lemma length_draws cursor n : length (draws rand cursor n) = n.
Proof. unfold draws. rewrite length_map, length_seq. reflexivity. Qed.

(** C2, as the code has it.  For a per-environment interval term whose tensor
    is [time_left]: every entry is decremented by [dt]; the fired subset is
    the set of all environment indices whose decremented entry is at or below
    zero, whatever [env_ids] held before; when it is not empty, the entries of
    exactly that subset are replaced by samples [u * (upper - lower) + lower]
    of fresh draws [u], the other entries keep their decremented value, and
    the term is invoked once with the fired subset; when it is empty the term
    is not invoked. *)
Theorem interval_per_env_fires_elapsed_environments
    dt index tc rest st time_left lower upper :
  EventTermCfg.is_global_time tc = false ->
  EventTermCfg.interval_range_s tc = Some (lower, upper) ->
  ls_interval st !! index = Some time_left ->
  let decremented := map (fun x => t_sub x dt) time_left in
  let mask := map t_le0 decremented in
  let fired := Torch.nonzero mask in
  let sampled := map (scale_sample lower upper) (draws rand (ls_cursor st) (length fired)) in
  let new_time_left := masked_scatter mask decremented sampled in
  (forall z, In z fired <->
             exists k x, z = Z.of_nat k /\ time_left !! k = Some x /\
                         t_le0 (t_sub x dt) = true) /\
  run_terms (ModeInterval dt) ((index, tc) :: rest) st
  = (if 0 <? length fired
     then run_terms (ModeInterval dt) rest
            (mkLoop (<[index := new_time_left]> (ls_interval st)) (ls_reset st)
               (ls_cursor st + length fired) (IdsList fired)
               (ls_calls st ++ [mkCall (EventTermCfg.func tc) (IdsList fired)
                                  (EventTermCfg.params tc)]))
     else run_terms (ModeInterval dt) rest
            (mkLoop (<[index := decremented]> (ls_interval st)) (ls_reset st)
               (ls_cursor st) (IdsList fired) (ls_calls st))) /\
  (forall k x,
      time_left !! k = Some x ->
      (t_le0 (t_sub x dt) = false -> new_time_left !! k = Some (t_sub x dt)) /\
      (t_le0 (t_sub x dt) = true ->
       exists j, j < length fired /\
                 new_time_left !! k
                 = Some (scale_sample lower upper (rand (ls_cursor st + j))))).
Proof.
  intros Hglobal Hrange Hbuf decremented mask fired sampled new_time_left.
  assert (Hmask : forall k, mask !! k
                            = option_map (fun x => t_le0 (t_sub x dt)) (time_left !! k)).
  { intros k. unfold mask, decremented. rewrite !lookup_map.
    destruct (time_left !! k); reflexivity. }
  assert (Hlm : length mask = length decremented) by (unfold mask; apply length_map).
  assert (Hls : length sampled = length fired).
  { unfold sampled. rewrite length_map, length_draws. reflexivity. }
  split; [|split].
  - intros z. unfold fired, Torch.nonzero. rewrite In_nonzero_from.
    split.
    + intros (k & -> & Hk). rewrite Hmask in Hk.
      destruct (time_left !! k) as [x|] eqn:Hx; [|discriminate].
      injection Hk as Hk. exists k, x. auto.
    + intros (k & x & -> & Hx & Hle). exists k. split; [lia|].
      rewrite Hmask, Hx. simpl. congruence.
  - cbn [apply_terms gate]. unfold interval_gate.
    rewrite Hbuf, Hglobal. cbn [ls_interval with_interval with_env_ids ls_cursor
                                 with_cursor ls_env_ids ls_reset ls_calls].
    fold decremented. fold mask. fold fired.
    destruct (0 <? length fired) eqn:Hfired; [|reflexivity].
    rewrite Hrange. fold sampled.
    unfold fired at 1. rewrite index_put_nonzero; [|exact Hlm|fold fired; lia].
    fold new_time_left.
    cbn [with_interval with_call ls_interval ls_reset ls_cursor ls_env_ids ls_calls].
    rewrite list_insert_insert_eq. reflexivity.
  - intros k x Hx. split; intros Hle.
    + unfold new_time_left. rewrite masked_scatter_keeps.
      * unfold decremented. rewrite lookup_map, Hx. reflexivity.
      * rewrite Hmask, Hx. simpl. congruence.
    + assert (Hk : mask !! k = Some true) by (rewrite Hmask, Hx; simpl; congruence).
      assert (Hlf : length fired = length (List.filter (fun b => b) mask)).
      { unfold fired, Torch.nonzero. apply length_nonzero_from. }
      assert (Hrank : length (List.filter (fun b => b) (take k mask)) < length fired).
      { rewrite Hlf. rewrite <- (take_drop k mask) at 2.
        rewrite List.filter_app, length_app.
        rewrite (drop_S _ _ _ Hk). simpl. lia. }
      exists (length (List.filter (fun b => b) (take k mask))). split; [exact Hrank|].
      unfold new_time_left. rewrite masked_scatter_takes; [|exact Hlm|lia|exact Hk].
      unfold sampled. rewrite lookup_map, lookup_draws by exact Hrank. reflexivity.
Qed.

End IntervalPerEnv.

(** C2, as stated, fails.  Two environments with 1 s and 0.5 s left; [apply]
    is called with [dt = 0.5] for the environment index 0 only.  Index 0 has
    0.5 s left after the call and has not elapsed, so no environment of the
    supplied [env_ids] has; the term is invoked all the same, for index 1,
    which is not in the supplied [env_ids]. *)
Lemma interval_per_env_ignores_supplied_env_ids :
  let mc := Demo.build 2 Demo.rand_half_then_zero
              (CfgDict [("push", EntryTerm (Demo.interval_term "push" (1#2) (3#2) false))]) in
  let r := apply Demo.rand_half_then_zero (fst mc) (snd mc) "interval"
             (IdsList [0%Z]) (Some (1#2)%Q) None in
  _interval_term_time_left (fst mc) = [[1; 1#2]%Q] /\
  ap_raised r = None /\
  ap_calls r = [mkCall (Function "push") (IdsList [1%Z]) []] /\
  _interval_term_time_left (ap_manager r) = [[1#2; 1#2]%Q].
Proof. vm_compute. repeat split. Qed.

Lemma interval_per_env_fires_elapsed_environments_witness :
  let tc := Demo.interval_term "push" (1#2) (3#2) false in
  let st := mkLoop [[1; 1#2]%Q] [] 2 (IdsList [0%Z]) [] in
  apply_terms Demo.rand_half_then_zero (ModeInterval (1#2)%Q) [(0, tc)] st
  = (mkLoop [[1#2; 1#2]%Q] [] 3 (IdsList [1%Z])
       [mkCall (Function "push") (IdsList [1%Z]) []], None).
Proof.
  intros tc st.
  destruct (interval_per_env_fires_elapsed_environments Demo.rand_half_then_zero
              (1#2)%Q 0 tc [] st [1; 1#2]%Q (1#2)%Q (3#2)%Q)
    as (_ & Heq & _).
  - reflexivity.
  - reflexivity.
  - reflexivity.
  - exact Heq.
Defined.

(** ** Fixed intervals *)

Lemma nonzero_from_repeat_true i n :
  Torch.nonzero_from i (repeat true n) = map (fun k => (i + Z.of_nat k)%Z) (seq 0 n).
Proof.
  revert i. induction n as [|n IH]; intros i; [reflexivity|].
  cbn [repeat Torch.nonzero_from seq map]. f_equal; [lia|].
  rewrite IH, <- seq_shift, map_map. apply map_ext. intros k. lia.
Qed.

Lemma nonzero_repeat_true n :
  Torch.nonzero (repeat true n) = map Z.of_nat (seq 0 n).
Proof. unfold Torch.nonzero. rewrite nonzero_from_repeat_true. reflexivity. Qed.

Lemma nonzero_repeat_false n : Torch.nonzero (repeat false n) = [].
Proof.
  unfold Torch.nonzero. generalize 0%Z. induction n as [|n IH]; intros i; simpl; auto.
Qed.

Lemma masked_scatter_all_true {A} n (t vs : list A) :
  length t = n -> length vs = n -> masked_scatter (repeat true n) t vs = vs.
Proof.
  revert t vs. induction n as [|n IH]; intros [|x t] [|v vs] Ht Hv; try discriminate;
    [reflexivity|].
  simpl. f_equal. apply IH; simpl in *; lia.
Qed.

Lemma map_const_repeat {A B} (f : A -> B) v (l : list A) :
  (forall u, f u = v) -> map f l = repeat v (length l).
Proof. intros Hf. induction l as [|x l IH]; simpl; [reflexivity|]. rewrite Hf, IH. reflexivity. Qed.

Section FixedInterval.

Context {T : Type} `{Scalar T}.
Variable num_envs : nat.
Variable rand : nat -> T.
Variable resolve : string -> EventTermCfg.t T -> Exn + (Callable * Params).

(** The gate of an interval term whose tensor holds one value [x] throughout
    and whose samples all come out as [v]. *)
Lemma interval_gate_uniform index tc dt st x n0 lower upper v :
  ls_interval st !! index = Some (repeat x n0) ->
  0 < n0 ->
  (EventTermCfg.is_global_time tc = true -> n0 = 1) ->
  EventTermCfg.interval_range_s tc = Some (lower, upper) ->
  (forall u, scale_sample lower upper u = v) ->
  interval_gate rand index tc dt st
  = if t_le0 (t_sub x dt)
    then Invoke (mkLoop (<[index := repeat v n0]> (ls_interval st)) (ls_reset st)
                   (ls_cursor st + n0)
                   (if EventTermCfg.is_global_time tc then ls_env_ids st
                    else IdsList (map Z.of_nat (seq 0 n0)))
                   (ls_calls st))
    else Skip (mkLoop (<[index := repeat (t_sub x dt) n0]> (ls_interval st)) (ls_reset st)
                 (ls_cursor st)
                 (if EventTermCfg.is_global_time tc then ls_env_ids st else IdsList [])
                 (ls_calls st)).
Proof.
  intros Hbuf Hn0 Hglobal Hrange Hdeg.
  unfold interval_gate. rewrite Hbuf, map_repeat.
  cbn [with_interval ls_interval ls_cursor ls_reset ls_env_ids ls_calls].
  destruct (EventTermCfg.is_global_time tc) eqn:Hg.
  - rewrite (Hglobal eq_refl). cbn [repeat].
    destruct (t_le0 (t_sub x dt)); [|reflexivity].
    rewrite Hrange. cbn [draws seq map with_interval with_cursor ls_interval ls_cursor
                          ls_reset ls_env_ids ls_calls].
    rewrite Hdeg, list_insert_insert_eq. reflexivity.
  - rewrite map_repeat.
    destruct (t_le0 (t_sub x dt)).
    + rewrite nonzero_repeat_true, length_map, length_seq.
      destruct (Nat.ltb_spec 0 n0) as [_|]; [|lia].
      rewrite Hrange.
      cbn [with_env_ids with_cursor with_interval ls_interval ls_cursor ls_reset
           ls_env_ids ls_calls].
      rewrite (map_const_repeat _ v _ Hdeg), length_draws.
      rewrite <- nonzero_repeat_true.
      rewrite index_put_nonzero;
        [|rewrite !repeat_length; reflexivity
         |rewrite nonzero_repeat_true, length_map, length_seq, repeat_length; lia].
      rewrite masked_scatter_all_true by apply repeat_length.
      rewrite list_insert_insert_eq, nonzero_repeat_true. reflexivity.
    + rewrite nonzero_repeat_false. reflexivity.
Qed.

End FixedInterval.

(** A degenerate range [(L, L)] yields [L] for every draw. *)
Lemma Q_scale_sample_degenerate (L u : Q) : Qred L = L -> scale_sample L L u = L.
Proof.
  intros HL. unfold scale_sample. cbn [t_add t_mul py_sub Q_scalar].
  rewrite <- HL at 4. apply Qred_complete.
  rewrite !Qred_correct. ring.
Qed.

(** * Further properties of the manager *)

(** ** One iteration of preparation, in full *)

Section PrepareStep.

Context {T : Type} `{Scalar T}.
Variable num_envs : nat.
Variable rand : nat -> T.
Variable resolve : string -> EventTermCfg.t T -> Exn + (Callable * Params).

Lemma prepare_term_full st name tc st' :
  prepare_term num_envs rand resolve st name (EntryTerm tc) = inr st' ->
  let mode := EventTermCfg.mode tc in
  let m := ps_manager st in
  let is_new := negb (dmem (_mode_term_names m) mode) in
  let names0 := if is_new then dset (_mode_term_names m) mode [] else _mode_term_names m in
  let cfgs0 := if is_new then dset (_mode_term_cfgs m) mode [] else _mode_term_cfgs m in
  let cls0 := if is_new then dset (_mode_class_term_cfgs m) mode []
              else _mode_class_term_cfgs m in
  let n := if EventTermCfg.is_global_time tc then 1 else num_envs in
  exists r ln lc cls' bi br c,
    resolve name tc = inr r /\
    dget names0 mode = Some ln /\
    dget cfgs0 mode = Some lc /\
    (if is_manager_term (fst r)
     then exists lk, dget cls0 mode = Some lk /\
                     cls' = dset cls0 mode (lk ++ [resolved_cfg tc r])
     else cls' = cls0) /\
    st' = mkPrep
            (mkManager (dset names0 mode (ln ++ [name]))
               (dset cfgs0 mode (lc ++ [resolved_cfg tc r])) cls' bi br)
            c (ps_log st ++ entry_warning (name, EntryTerm tc)) /\
    ((mode = "interval" /\
      exists lower upper,
        EventTermCfg.interval_range_s tc = Some (lower, upper) /\
        bi = _interval_term_time_left m
             ++ [map (scale_sample lower upper) (draws rand (ps_cursor st) n)] /\
        br = _reset_term_last_triggered_step_id m /\
        c = ps_cursor st + n) \/
     (mode = "reset" /\
      (0 <= EventTermCfg.min_step_count_between_reset tc)%Z /\
      bi = _interval_term_time_left m /\
      br = _reset_term_last_triggered_step_id m ++ [repeat 0%Z num_envs] /\
      c = ps_cursor st) \/
     (mode <> "interval" /\ mode <> "reset" /\
      bi = _interval_term_time_left m /\
      br = _reset_term_last_triggered_step_id m /\
      c = ps_cursor st)).
Proof.
  unfold prepare_term. intros Hp. cbn zeta.
  destruct (resolve name tc) as [e|r] eqn:Hr; [discriminate|].
  change (EventTermCfg.mode (resolved_cfg tc r)) with (EventTermCfg.mode tc) in Hp.
  change (EventTermCfg.interval_range_s (resolved_cfg tc r))
    with (EventTermCfg.interval_range_s tc) in Hp.
  change (EventTermCfg.is_global_time (resolved_cfg tc r))
    with (EventTermCfg.is_global_time tc) in Hp.
  change (EventTermCfg.min_step_count_between_reset (resolved_cfg tc r))
    with (EventTermCfg.min_step_count_between_reset tc) in Hp.
  change (EventTermCfg.func (resolved_cfg tc r)) with (fst r) in Hp.
  unfold entry_warning. cbn [fst snd].
  set (mode := EventTermCfg.mode tc) in *.
  set (names0 := if negb (dmem (_mode_term_names (ps_manager st)) mode) then _ else _) in *.
  set (cfgs0 := if negb (dmem (_mode_term_names (ps_manager st)) mode)
                then dset (_mode_term_cfgs (ps_manager st)) mode [] else _) in *.
  set (cls0 := if negb (dmem (_mode_term_names (ps_manager st)) mode)
               then dset (_mode_class_term_cfgs (ps_manager st)) mode [] else _) in *.
  destruct (dappend names0 mode name) as [e|names'] eqn:Hn; [discriminate|].
  destruct (dappend cfgs0 mode (resolved_cfg tc r)) as [e|cfgs'] eqn:Hc; [discriminate|].
  apply dappend_inv in Hn as (ln & Hln & ->).
  apply dappend_inv in Hc as (lc & Hlc & ->).
  set (log' := if negb (String.eqb mode "reset")
                  && negb (EventTermCfg.min_step_count_between_reset tc =? 0)%Z
               then ps_log st ++ [msg_min_step_ignored name] else ps_log st) in *.
  assert (Hlog : log' = ps_log st ++
                        (if negb (String.eqb mode "reset")
                            && negb (EventTermCfg.min_step_count_between_reset tc =? 0)%Z
                         then [msg_min_step_ignored name] else [])).
  { unfold log'. destruct (_ && _); [reflexivity | rewrite app_nil_r; reflexivity]. }
  rewrite <- Hlog. clearbody log'. clear Hlog.
  assert (Hcls : exists cls',
             (if is_manager_term (fst r) then dappend cls0 mode (resolved_cfg tc r)
              else inr cls0) = inr cls' /\
             (if is_manager_term (fst r)
              then exists lk, dget cls0 mode = Some lk /\
                              cls' = dset cls0 mode (lk ++ [resolved_cfg tc r])
              else cls' = cls0)).
  { destruct (is_manager_term (fst r)).
    - destruct (dappend cls0 mode (resolved_cfg tc r)) as [e|cls'] eqn:Hk; [discriminate|].
      exists cls'. split; [reflexivity|]. apply dappend_inv in Hk as (lk & Hlk & ->). eauto.
    - eauto. }
  destruct Hcls as (cls' & Hk & Hcls). rewrite Hk in Hp. clear Hk.
  destruct (String.eqb mode "interval") eqn:Ei.
  - apply String.eqb_eq in Ei.
    destruct (EventTermCfg.interval_range_s tc) as [[lower upper]|] eqn:Hrange;
      [|discriminate].
    injection Hp as <-.
    do 7 eexists. repeat (split; [first [reflexivity | eassumption]|]).
    left. split; [exact Ei|]. eauto 10.
  - apply String.eqb_neq in Ei.
    destruct (String.eqb mode "reset") eqn:Er.
    + apply String.eqb_eq in Er.
      destruct (Z.ltb_spec (EventTermCfg.min_step_count_between_reset tc) 0);
        [discriminate|].
      injection Hp as <-.
      do 7 eexists. repeat (split; [first [reflexivity | eassumption]|]).
      right. left. auto.
    + apply String.eqb_neq in Er.
      injection Hp as <-.
      do 7 eexists. repeat (split; [first [reflexivity | eassumption]|]).
      right. right. auto.
Qed.

End PrepareStep.

(** ** Terms grouped by mode *)

Lemma appended_Some {A} (l l' : list A) : appended l = Some l' -> l = l' /\ l <> [].
Proof. destruct l; [discriminate|]. intros [= <-]. split; [reflexivity | discriminate]. Qed.

Lemma appended_None {A} (l : list A) : appended l = None -> l = [].
Proof. destruct l; [reflexivity | discriminate]. Qed.

Lemma appended_snoc {A} (l : list A) x : appended (l ++ [x]) = Some (l ++ [x]).
Proof. destruct l; reflexivity. Qed.

Lemma filter_snoc {A} (p : A -> bool) l x :
  List.filter p (l ++ [x]) = List.filter p l ++ (if p x then [x] else []).
Proof. rewrite List.filter_app. reflexivity. Qed.

Section PrepareGroups.

Context {T : Type} `{Scalar T}.
Variable num_envs : nat.
Variable rand : nat -> T.
Variable resolve : string -> EventTermCfg.t T -> Exn + (Callable * Params).

Local Abbreviation prep_term := (prepare_term num_envs rand resolve).
Local Abbreviation prep_loop := (prepare_loop num_envs rand resolve).

Lemma prepare_loop_snoc pre name e st0 st :
  prep_loop (pre ++ [(name, e)]) st0 = inr st ->
  exists st1, prep_loop pre st0 = inr st1 /\ prep_term st1 name e = inr st.
Proof.
  rewrite prepare_loop_app.
  destruct (prep_loop pre st0) as [err|st1]; [discriminate|].
  cbn [prepare_loop].
  destruct (prep_term st1 name e) as [err|st2] eqn:Ht; [discriminate|].
  intros [= <-]. eauto.
Qed.

Lemma prepare_loop_groups items cursor st :
  prep_loop items (mkPrep empty_manager cursor []) = inr st ->
  forall mode,
    let ts := mode_terms resolve mode items in
    dget (_mode_term_names (ps_manager st)) mode = appended (map fst ts) /\
    dget (_mode_term_cfgs (ps_manager st)) mode = appended (map snd ts) /\
    dget (_mode_class_term_cfgs (ps_manager st)) mode
    = option_map (List.filter is_class_term) (appended (map snd ts)).
Proof.
  revert st. induction items as [|[name e] pre IH] using rev_ind; intros st Hl k.
  - injection Hl as <-. auto.
  - apply prepare_loop_snoc in Hl as (st1 & Hpre & Ht).
    specialize (IH st1 Hpre).
    unfold mode_terms. rewrite flat_map_app. cbn [flat_map]. rewrite app_nil_r.
    fold (mode_terms resolve k pre).
    destruct e as [|tc|ty]; [|clear Hpre|discriminate].
    { injection Ht as <-. cbn [resolved_entry snd]. rewrite app_nil_r. apply IH. }
    apply prepare_term_full in Ht
      as (r & ln & lc & cls' & bi & br & c & Hr & Hln & Hlc & Hcls & -> & _).
    cbn zeta in *. cbn [ps_manager _mode_term_names _mode_term_cfgs _mode_class_term_cfgs].
    unfold resolved_entry. cbn [fst snd].
    set (mt := EventTermCfg.mode tc) in *.
    set (m := ps_manager st1) in *.
    destruct (IH mt) as (IHn & IHc & IHk).
    set (ts := mode_terms resolve mt pre) in *.
    assert (Hpresent : dmem (_mode_term_names m) mt
                       = negb (match ts with [] => true | _ => false end)).
    { unfold dmem. rewrite IHn. destruct ts; reflexivity. }
    assert (Eln : ln = map fst ts).
    { destruct (dmem (_mode_term_names m) mt) eqn:Hm; cbn [negb] in Hln.
      - rewrite IHn in Hln. apply appended_Some in Hln. symmetry. apply Hln.
      - rewrite dget_dset, String.eqb_refl in Hln. injection Hln as <-.
        destruct ts; [reflexivity | discriminate]. }
    assert (Elc : lc = map snd ts).
    { destruct (dmem (_mode_term_names m) mt) eqn:Hm; cbn [negb] in Hlc.
      - rewrite IHc in Hlc. apply appended_Some in Hlc. symmetry. apply Hlc.
      - rewrite dget_dset, String.eqb_refl in Hlc. injection Hlc as <-.
        destruct ts; [reflexivity | discriminate]. }
    assert (Ecls0 : dget (if negb (dmem (_mode_term_names m) mt)
                          then dset (_mode_class_term_cfgs m) mt []
                          else _mode_class_term_cfgs m) mt
                    = Some (List.filter is_class_term (map snd ts))).
    { destruct (dmem (_mode_term_names m) mt) eqn:Hm; cbn [negb].
      - rewrite IHk. destruct ts; [discriminate | reflexivity].
      - rewrite dget_dset, String.eqb_refl. destruct ts; [reflexivity | discriminate]. }
    subst ln lc.
    destruct (String.eqb mt k) eqn:E.
    + apply String.eqb_eq in E. subst k. rewrite Hr.
      rewrite !map_app. cbn [map fst snd].
      rewrite !dget_dset, String.eqb_refl, !appended_snoc. cbn [option_map].
      split; [reflexivity|]. split; [reflexivity|].
      rewrite filter_snoc. unfold is_class_term at 2. cbn [resolved_cfg EventTermCfg.func].
      destruct (is_manager_term (fst r)).
      * destruct Hcls as (lk & Hlk & ->). rewrite Ecls0 in Hlk. injection Hlk as <-.
        rewrite dget_dset, String.eqb_refl. reflexivity.
      * subst cls'. rewrite Ecls0, app_nil_r. reflexivity.
    + rewrite app_nil_r. rewrite String.eqb_sym in E.
      assert (Hk : forall (A : Type) (d : dict (list A)),
                 dget (if negb (dmem (_mode_term_names m) mt) then dset d mt [] else d) k
                 = dget d k).
      { intros A d. destruct (negb _); [|reflexivity]. rewrite dget_dset, E. reflexivity. }
      rewrite !dget_dset, E, !Hk.
      destruct (IH k) as (IHn' & IHc' & IHk'). fold (mode_terms resolve k pre).
      split; [exact IHn'|]. split; [exact IHc'|].
      destruct (is_manager_term (fst r)).
      * destruct Hcls as (lk & _ & ->). rewrite dget_dset, E, Hk. exact IHk'.
      * subst cls'. rewrite Hk. exact IHk'.
Qed.

End PrepareGroups.

Lemma list_index_lookup term_name terms i :
  list_index term_name terms = Some i -> terms !! i = Some term_name.
Proof.
  revert i. induction terms as [|x terms IH]; simpl; intros i; [discriminate|].
  destruct (String.eqb term_name x) eqn:E.
  - apply String.eqb_eq in E. intros [= <-]. simpl. congruence.
  - destruct (list_index term_name terms) as [j|]; [|discriminate].
    intros [= <-]. simpl. auto.
Qed.

Lemma NoDup_keys_functional {A} (items : list (string * A)) k v1 v2 :
  NoDup (map fst items) -> In (k, v1) items -> In (k, v2) items -> v1 = v2.
Proof.
  induction items as [|[k0 v0] items IH]; [intros _ []|].
  cbn [map fst]. intros Hnd H1 H2. apply NoDup_cons in Hnd as [Hfresh Hnd].
  assert (Hkey : forall v, In (k, v) items -> k0 <> k).
  { intros v Hv ->. apply Hfresh. apply list_elem_of_In.
    apply in_map_iff. exists (k, v). auto. }
  destruct H1 as [H1|H1], H2 as [H2|H2].
  - congruence.
  - injection H1 as -> _. exfalso. eapply Hkey; eauto.
  - injection H2 as -> _. exfalso. eapply Hkey; eauto.
  - auto.
Qed.

Section PrepareResults.

Context {T : Type} `{Scalar T}.
Variable num_envs : nat.
Variable rand : nat -> T.
Variable resolve : string -> EventTermCfg.t T -> Exn + (Callable * Params).

Local Abbreviation prep_term := (prepare_term num_envs rand resolve).
Local Abbreviation prep_loop := (prepare_loop num_envs rand resolve).
Local Abbreviation prepare := (_prepare_terms num_envs rand resolve).

(** X1.  After construction, the names under a mode in [active_terms] are
    the names of the enabled descriptors of that mode, in configuration
    order; the descriptors stored for the mode are those descriptors as
    resolved, in the same order; the class terms of the mode are the ones
    among them whose callable is a term instance; and a mode without
    descriptor is no key of the three dictionaries. *)
Theorem prepare_groups_terms_by_mode cfg cursor st mode :
  prepare cfg cursor = inr st ->
  let ts := mode_terms resolve mode (cfg_items cfg) in
  dget (active_terms (ps_manager st)) mode = appended (map fst ts) /\
  dget (_mode_term_cfgs (ps_manager st)) mode = appended (map snd ts) /\
  dget (_mode_class_term_cfgs (ps_manager st)) mode
  = option_map (List.filter is_class_term) (appended (map snd ts)).
Proof. intros Hp. apply (prepare_loop_groups num_envs rand resolve _ _ _ Hp). Qed.

Lemma prepare_loop_resolves items st0 st name tc :
  prep_loop items st0 = inr st ->
  In (name, EntryTerm tc) items ->
  exists r, resolve name tc = inr r.
Proof.
  revert st0. induction items as [|[n e] items IH]; simpl; intros st0 Hl Hin; [tauto|].
  destruct (prep_term st0 n e) as [err|st1] eqn:Ht; [discriminate|].
  destruct Hin as [Heq|Hin].
  - injection Heq as -> ->. apply prepare_term_inv in Ht as (r & _ & _ & Hr & _). eauto.
  - eapply IH; eauto.
Qed.

Lemma prepare_loop_no_other items st0 st name ty :
  prep_loop items st0 = inr st -> ~ In (name, EntryOther ty) items.
Proof.
  revert st0. induction items as [|[n e] items IH]; simpl; intros st0 Hl Hin; [tauto|].
  destruct (prep_term st0 n e) as [err|st1] eqn:Ht; [discriminate|].
  destruct Hin as [Heq|Hin].
  - injection Heq as -> ->. discriminate.
  - eapply IH; eauto.
Qed.

Lemma In_mode_terms mode items name rc :
  In (name, rc) (mode_terms resolve mode items) <->
  exists tc r, In (name, EntryTerm tc) items /\ EventTermCfg.mode tc = mode /\
               resolve name tc = inr r /\ rc = resolved_cfg tc r.
Proof.
  unfold mode_terms. rewrite in_flat_map. split.
  - intros ([n e] & Hin & Hr). unfold resolved_entry in Hr. cbn [fst snd] in Hr.
    destruct e as [|tc|ty]; try destruct Hr.
    destruct (String.eqb (EventTermCfg.mode tc) mode) eqn:E; [|destruct Hr].
    apply String.eqb_eq in E.
    destruct (resolve n tc) as [err|r] eqn:Hres; [destruct Hr|].
    destruct Hr as [Heq|[]]. injection Heq as -> <-. eauto 10.
  - intros (tc & r & Hin & Hm & Hr & ->). exists (name, EntryTerm tc). split; [exact Hin|].
    unfold resolved_entry. cbn [fst snd]. rewrite Hm, String.eqb_refl, Hr. left. reflexivity.
Qed.

(** X2.  [available_modes] after construction: no mode is listed twice, and
    a mode is listed exactly when some enabled descriptor has it. *)
Theorem available_modes_are_configured_modes cfg cursor st :
  prepare cfg cursor = inr st ->
  NoDup (available_modes (ps_manager st)) /\
  forall mode,
    In mode (available_modes (ps_manager st)) <->
    exists name tc, In (name, EntryTerm tc) (cfg_items cfg) /\ EventTermCfg.mode tc = mode.
Proof.
  intros Hp. split.
  - apply (prepare_terms_wf num_envs rand resolve _ _ _ Hp).
  - intros mode. unfold available_modes. rewrite <- dmem_true_iff. split.
    + apply (prepare_modes_configured num_envs rand resolve _ _ _ _ Hp).
    + intros (name & tc & Hin & Hm).
      destruct (prepare_loop_resolves _ _ _ _ _ Hp Hin) as [r Hr].
      destruct (prepare_loop_groups num_envs rand resolve _ _ _ Hp mode) as (Hn & _).
      unfold dmem. rewrite Hn.
      assert (Hts : In (name, resolved_cfg tc r) (mode_terms resolve mode (cfg_items cfg))).
      { apply In_mode_terms. eauto 10. }
      destruct (mode_terms resolve mode (cfg_items cfg)); [destruct Hts | reflexivity].
Qed.

(** X3.  After construction from a configuration without repeated names,
    [get_term_cfg] of an enabled term returns its descriptor as resolved: the
    timing attributes as configured, the callable and parameters that the
    resolution returned. *)
Theorem get_term_cfg_after_prepare cfg cursor st name tc :
  prepare cfg cursor = inr st ->
  NoDup (map fst (cfg_items cfg)) ->
  In (name, EntryTerm tc) (cfg_items cfg) ->
  exists r, resolve name tc = inr r /\
            get_term_cfg (ps_manager st) name = inr (resolved_cfg tc r).
Proof.
  intros Hp Hnd Hin.
  destruct (prepare_loop_resolves _ _ _ _ _ Hp Hin) as [r Hr].
  exists r. split; [exact Hr|].
  pose proof (prepare_terms_wf num_envs rand resolve _ _ _ Hp) as (Hkeys & _ & _).
  set (m := ps_manager st) in *.
  assert (Hconf : term_configured m name).
  { destruct (prepare_loop_groups num_envs rand resolve _ _ _ Hp (EventTermCfg.mode tc))
      as (Hn & _).
    assert (Hts : In (name, resolved_cfg tc r)
                    (mode_terms resolve (EventTermCfg.mode tc) (cfg_items cfg)))
      by (apply In_mode_terms; eauto 10).
    exists (EventTermCfg.mode tc), (map fst (mode_terms resolve (EventTermCfg.mode tc)
                                               (cfg_items cfg))).
    split.
    - apply dget_In. fold m in Hn. rewrite Hn.
      destruct (mode_terms resolve (EventTermCfg.mode tc) (cfg_items cfg));
        [destruct Hts | reflexivity].
    - apply in_map_iff. exists (name, resolved_cfg tc r). auto. }
  unfold get_term_cfg.
  destruct (find_term (_mode_term_names m) name) as [[mode i]|] eqn:Hf.
  2:{ exfalso. destruct Hconf as (mode0 & terms0 & Hin0 & Hn0).
      eapply find_term_None; eauto. }
  destruct (find_term_Some _ _ _ _ Hf) as (terms & Hterms & Hi).
  apply (In_dget _ _ _ Hkeys) in Hterms.
  destruct (prepare_loop_groups num_envs rand resolve _ _ _ Hp mode) as (Hn & Hc & _).
  fold m in Hn, Hc. rewrite Hn in Hterms. apply appended_Some in Hterms as [<- Hne].
  assert (Hsome : appended (map snd (mode_terms resolve mode (cfg_items cfg)))
                  = Some (map snd (mode_terms resolve mode (cfg_items cfg)))).
  { destruct (mode_terms resolve mode (cfg_items cfg));
      [exfalso; apply Hne; reflexivity | reflexivity]. }
  rewrite Hc, Hsome.
  apply list_index_lookup in Hi. rewrite lookup_map in Hi.
  rewrite lookup_map.
  destruct (mode_terms resolve mode (cfg_items cfg) !! i) as [[n rc]|] eqn:Hi';
    [|discriminate].
  injection Hi as ->. cbn [option_map snd].
  apply list_elem_of_lookup_2, list_elem_of_In, In_mode_terms in Hi'
    as (tc' & r' & Hin' & _ & Hr' & ->).
  assert (E : EntryTerm tc' = EntryTerm tc) by (eapply NoDup_keys_functional; eauto).
  injection E as ->. rewrite Hr in Hr'. injection Hr' as <-. reflexivity.
Qed.

(** X4.  A configuration entry that is neither [None] nor an [EventTermCfg]
    makes construction fail; when the entries before it prepare without
    error, the exception is the [TypeError] naming the term and the type
    received. *)
Theorem prepare_rejects_non_descriptor cfg cursor name ty :
  In (name, EntryOther ty) (cfg_items cfg) ->
  (exists e, prepare cfg cursor = inl e) /\
  (forall pre post st1,
      cfg_items cfg = pre ++ (name, EntryOther ty) :: post ->
      prep_loop pre (mkPrep empty_manager cursor []) = inr st1 ->
      prepare cfg cursor = inl (TypeError (msg_not_event_term_cfg name ty))).
Proof.
  intros Hin. split.
  - destruct (prepare cfg cursor) as [e|st] eqn:Hp; [eauto|].
    exfalso. eapply prepare_loop_no_other; eauto.
  - intros pre post st1 Hitems Hpre.
    unfold _prepare_terms. rewrite Hitems, prepare_loop_app, Hpre. reflexivity.
Qed.

(** X5.  An exception of the common resolution of a descriptor ends
    construction: it fails whenever the resolution of some enabled descriptor
    fails, and with that very exception when the entries before it prepare
    without error. *)
Theorem prepare_propagates_resolution_error cfg cursor name tc err :
  In (name, EntryTerm tc) (cfg_items cfg) ->
  resolve name tc = inl err ->
  (exists e, prepare cfg cursor = inl e) /\
  (forall pre post st1,
      cfg_items cfg = pre ++ (name, EntryTerm tc) :: post ->
      prep_loop pre (mkPrep empty_manager cursor []) = inr st1 ->
      prepare cfg cursor = inl err).
Proof.
  intros Hin Hr. split.
  - destruct (prepare cfg cursor) as [e|st] eqn:Hp; [eauto|].
    destruct (prepare_loop_resolves _ _ _ _ _ Hp Hin) as [r Hr']. congruence.
  - intros pre post st1 Hitems Hpre.
    unfold _prepare_terms. rewrite Hitems, prepare_loop_app, Hpre.
    cbn [prepare_loop]. unfold prepare_term. rewrite Hr. reflexivity.
Qed.

Lemma prepare_loop_log items st0 st :
  prep_loop items st0 = inr st ->
  ps_log st = ps_log st0 ++ flat_map entry_warning items.
Proof.
  revert st0. induction items as [|[n e] items IH]; intros st0 Hl.
  - injection Hl as <-. cbn. rewrite app_nil_r. reflexivity.
  - cbn [prepare_loop] in Hl.
    destruct (prep_term st0 n e) as [err|st1] eqn:Ht; [discriminate|].
    rewrite (IH _ Hl). cbn [flat_map].
    destruct e as [|tc|ty]; [injection Ht as <-; reflexivity| |discriminate].
    apply prepare_term_full in Ht as (r & ln & lc & cls' & bi & br & c & _ & _ & _ & _ & -> & _).
    cbn [ps_log]. rewrite <- app_assoc. reflexivity.
Qed.

(** X6.  The warnings that construction logs: one for each enabled
    descriptor whose mode is not "reset" and whose
    [min_step_count_between_reset] is not zero, in configuration order, and
    no other. *)
Theorem prepare_warns_about_ignored_min_step cfg cursor st :
  prepare cfg cursor = inr st ->
  ps_log st = flat_map entry_warning (cfg_items cfg).
Proof. intros Hp. apply prepare_loop_log in Hp. exact Hp. Qed.

End PrepareResults.

(** ** What every call of [apply] keeps *)

Lemma map_snd_enumerate_from {A} i (l : list A) : map snd (enumerate_from i l) = l.
Proof. revert i. induction l as [|x l IH]; intros i; simpl; [|rewrite IH]; reflexivity. Qed.

Section ApplyFrame.

Context {T : Type} `{Scalar T}.
Variable rand : nat -> T.

Local Abbreviation gate_of := (gate rand).
Local Abbreviation run_terms := (apply_terms rand).

Lemma other_mode_terms terms st :
  run_terms ModeOther terms st
  = (mkLoop (ls_interval st) (ls_reset st) (ls_cursor st) (ls_env_ids st)
       (ls_calls st ++ map (fun it => mkCall (EventTermCfg.func (snd it)) (ls_env_ids st)
                                        (EventTermCfg.params (snd it))) terms),
     None).
Proof.
  revert st. induction terms as [|[index tc] terms IH]; intros st.
  - cbn. rewrite app_nil_r. destruct st; reflexivity.
  - cbn [apply_terms gate]. rewrite IH. cbn. rewrite <- app_assoc. reflexivity.
Qed.

(** X7.  In a mode other than "interval" and "reset" that has terms,
    [apply] invokes every term of the mode once, in declaration order, each
    with the [env_ids] of the caller; it raises nothing, logs nothing, takes
    no random draw and leaves the manager as it was. *)
Theorem apply_other_mode_invokes_every_term
    (m : EventManager T) cursor mode env_ids dt g term_cfgs :
  mode <> "interval" ->
  mode <> "reset" ->
  dmem (_mode_term_names m) mode = true ->
  dget (_mode_term_cfgs m) mode = Some term_cfgs ->
  apply rand m cursor mode env_ids dt g
  = mkResult m cursor
      (map (fun tc => mkCall (EventTermCfg.func tc) env_ids (EventTermCfg.params tc))
         term_cfgs)
      [] None.
Proof.
  intros Hi Hr Hm Hc. unfold apply, mode_ctx. rewrite Hm, Hc.
  apply String.eqb_neq in Hi. apply String.eqb_neq in Hr. rewrite Hi, Hr.
  cbn [negb]. rewrite other_mode_terms. cbn.
  rewrite <- (map_snd_enumerate_from 0 term_cfgs) at 2. rewrite map_map.
  destruct m; reflexivity.
Qed.

Lemma apply_terms_calls_sublist ctx terms st :
  exists invoked,
    sublist invoked (map snd terms) /\
    map (fun c => (call_func c, call_params c)) (ls_calls (fst (run_terms ctx terms st)))
    = map (fun c => (call_func c, call_params c)) (ls_calls st)
      ++ map (fun tc => (EventTermCfg.func tc, EventTermCfg.params tc)) invoked.
Proof.
  revert st. induction terms as [|[index tc] terms IH]; intros st.
  - exists []. split; [constructor|]. cbn. rewrite app_nil_r. reflexivity.
  - cbn [apply_terms map snd].
    pose proof (gate_calls rand ctx index tc st) as Hc.
    destruct (gate_of ctx index tc st) as [st'|st'|e st']; cbn [gate_state] in Hc.
    + destruct (IH (with_call st' (mkCall (EventTermCfg.func tc) (ls_env_ids st')
                                      (EventTermCfg.params tc)))) as (inv & Hsub & Hcalls).
      exists (tc :: inv). split; [constructor; exact Hsub|].
      rewrite Hcalls. cbn [with_call ls_calls]. rewrite Hc, map_app, <- app_assoc.
      reflexivity.
    + destruct (IH st') as (inv & Hsub & Hcalls).
      exists inv. split; [constructor; exact Hsub|]. rewrite Hcalls, Hc. reflexivity.
    + exists []. split; [apply sublist_nil_l|]. cbn. rewrite Hc, app_nil_r. reflexivity.
Qed.

(** X8.  Whatever the mode, the arguments and the state of the manager, and
    also when the call ends in an exception: the callables that one call of
    [apply] invokes are callables of descriptors of that mode, each
    descriptor at most once, in declaration order. *)
Theorem apply_invokes_each_term_at_most_once
    (m : EventManager T) cursor mode env_ids dt g :
  exists invoked,
    sublist invoked (default [] (dget (_mode_term_cfgs m) mode)) /\
    map (fun c => (call_func c, call_params c))
      (ap_calls (apply rand m cursor mode env_ids dt g))
    = map (fun tc => (EventTermCfg.func tc, EventTermCfg.params tc)) invoked.
Proof.
  unfold apply.
  destruct (negb (dmem (_mode_term_names m) mode));
    [exists []; split; [apply sublist_nil_l | reflexivity]|].
  destruct (mode_ctx mode dt g) as [e|ctx];
    [exists []; split; [apply sublist_nil_l | reflexivity]|].
  destruct (dget (_mode_term_cfgs m) mode) as [tcs|];
    [|exists []; split; [apply sublist_nil_l | reflexivity]].
  destruct (apply_terms_calls_sublist ctx (enumerate tcs)
              (mkLoop (_interval_term_time_left m) (_reset_term_last_triggered_step_id m)
                 cursor env_ids [])) as (inv & Hsub & Hcalls).
  unfold enumerate in *. rewrite map_snd_enumerate_from in Hsub.
  exists inv. split; [exact Hsub|].
  destruct (run_terms ctx (enumerate_from 0 tcs) _) as [st' raised].
  exact Hcalls.
Qed.

Lemma gate_frame ctx index tc st :
  let st' := gate_state (gate_of ctx index tc st) in
  length (ls_interval st') = length (ls_interval st) /\
  length (ls_reset st') = length (ls_reset st) /\
  match ctx with
  | ModeInterval _ => ls_reset st' = ls_reset st
  | ModeReset _ => ls_interval st' = ls_interval st /\ ls_cursor st' = ls_cursor st
  | ModeOther => st' = st
  end.
Proof.
  destruct ctx; cbn [gate]; unfold interval_gate, reset_gate;
    repeat case_match; cbn; rewrite ?length_insert; auto.
Qed.

Lemma apply_terms_frame ctx terms st :
  let st' := fst (run_terms ctx terms st) in
  length (ls_interval st') = length (ls_interval st) /\
  length (ls_reset st') = length (ls_reset st) /\
  match ctx with
  | ModeInterval _ => ls_reset st' = ls_reset st
  | ModeReset _ => ls_interval st' = ls_interval st /\ ls_cursor st' = ls_cursor st
  | ModeOther => ls_interval st' = ls_interval st /\ ls_reset st' = ls_reset st /\
                 ls_cursor st' = ls_cursor st
  end.
Proof.
  revert st. induction terms as [|[index tc] terms IH]; intros st.
  - cbn. destruct ctx; auto.
  - cbn [apply_terms].
    pose proof (gate_frame ctx index tc st) as (Hi & Hr & Hm).
    destruct (gate_of ctx index tc st) as [st1|st1|e st1]; cbn [gate_state] in Hi, Hr, Hm.
    + destruct (IH (with_call st1 (mkCall (EventTermCfg.func tc) (ls_env_ids st1)
                                     (EventTermCfg.params tc)))) as (Hi' & Hr' & Hm').
      cbn [with_call ls_interval ls_reset ls_cursor] in Hi', Hr', Hm'.
      split; [congruence|]. split; [congruence|].
      destruct ctx; [congruence | destruct Hm, Hm'; split; congruence | subst st1; exact Hm'].
    + destruct (IH st1) as (Hi' & Hr' & Hm').
      split; [congruence|]. split; [congruence|].
      destruct ctx; [congruence | destruct Hm, Hm'; split; congruence | subst st1; exact Hm'].
    + cbn [fst]. split; [exact Hi|]. split; [exact Hr|].
      destruct ctx; [exact Hm | exact Hm | subst st1; auto].
Qed.

(** X9.  One call of [apply], whatever its arguments and also when it ends
    in an exception, never changes the dictionaries of names, descriptors and
    class terms, nor the number of interval and reset tensors; in a mode other
    than "interval" it leaves the interval tensors untouched and takes no
    random draw; in a mode other than "reset" it leaves the
    last-triggered-step tensors untouched. *)
Theorem apply_frame (m : EventManager T) cursor mode env_ids dt g :
  let r := apply rand m cursor mode env_ids dt g in
  _mode_term_names (ap_manager r) = _mode_term_names m /\
  _mode_term_cfgs (ap_manager r) = _mode_term_cfgs m /\
  _mode_class_term_cfgs (ap_manager r) = _mode_class_term_cfgs m /\
  length (_interval_term_time_left (ap_manager r)) = length (_interval_term_time_left m) /\
  length (_reset_term_last_triggered_step_id (ap_manager r))
  = length (_reset_term_last_triggered_step_id m) /\
  (mode <> "interval" ->
   _interval_term_time_left (ap_manager r) = _interval_term_time_left m /\
   ap_cursor r = cursor) /\
  (mode <> "reset" ->
   _reset_term_last_triggered_step_id (ap_manager r) = _reset_term_last_triggered_step_id m).
Proof.
  unfold apply.
  destruct (negb (dmem (_mode_term_names m) mode)); [cbn; tauto|].
  destruct (mode_ctx mode dt g) as [e|ctx] eqn:Hctx; [cbn; tauto|].
  destruct (dget (_mode_term_cfgs m) mode) as [tcs|]; [|cbn; tauto].
  pose proof (apply_terms_frame ctx (enumerate tcs)
                (mkLoop (_interval_term_time_left m) (_reset_term_last_triggered_step_id m)
                   cursor env_ids [])) as (Hi & Hr & Hm).
  destruct (run_terms ctx (enumerate tcs) _) as [st' raised].
  cbn [fst ls_interval ls_reset ls_cursor] in Hi, Hr, Hm.
  cbn zeta. cbn [ap_manager ap_cursor _mode_term_names _mode_term_cfgs _mode_class_term_cfgs
                 _interval_term_time_left _reset_term_last_triggered_step_id].
  repeat (split; [first [reflexivity | assumption]|]).
  unfold mode_ctx in Hctx. split; intros Hne; apply String.eqb_neq in Hne.
  - rewrite Hne in Hctx.
    destruct (String.eqb mode "reset"); [destruct g; [|discriminate]|];
      injection Hctx as <-; tauto.
  - destruct (String.eqb mode "interval"); [destruct dt; [|discriminate]|];
      [injection Hctx as <-; exact Hm|].
    rewrite Hne in Hctx. injection Hctx as <-. tauto.
Qed.

End ApplyFrame.

(** ** Reset gating over all environments *)

Lemma index_fill_nonzero_from {A} (pre t : list A) mask v :
  length mask = length t ->
  Torch.index_fill (pre ++ t) (Torch.nonzero_from (Z.of_nat (length pre)) mask) v
  = Some (pre ++ masked_fill mask t v).
Proof.
  revert pre t. induction mask as [|b mask IH]; intros pre t Hlen.
  - destruct t; [reflexivity | discriminate].
  - destruct t as [|x t]; [discriminate|]. injection Hlen as Hlen.
    destruct b; cbn [Torch.nonzero_from masked_fill].
    + cbn [Torch.index_fill].
      rewrite resolve_index_nat by (rewrite length_app; simpl; lia).
      replace (<[length pre := v]> (pre ++ x :: t)) with ((pre ++ [v]) ++ t).
      2:{ rewrite <- (Nat.add_0_r (length pre)), insert_app_r. simpl.
          rewrite <- app_assoc. reflexivity. }
      replace (Z.of_nat (length pre) + 1)%Z with (Z.of_nat (length (pre ++ [v])))
        by (rewrite length_app; simpl; lia).
      rewrite IH by exact Hlen. rewrite <- app_assoc. reflexivity.
    + replace (Z.of_nat (length pre) + 1)%Z with (Z.of_nat (length (pre ++ [x])))
        by (rewrite length_app; simpl; lia).
      replace (pre ++ x :: t) with ((pre ++ [x]) ++ t) by (rewrite <- app_assoc; reflexivity).
      rewrite IH by exact Hlen. rewrite <- app_assoc. reflexivity.
Qed.

Lemma masked_fill_map {A} (p : A -> bool) (t : list A) v :
  masked_fill (map p t) t v = map (fun x => if p x then v else x) t.
Proof. induction t as [|x t IH]; simpl; [|rewrite IH]; reflexivity. Qed.

Lemma index_fill_nonzero_map {A} (p : A -> bool) (t : list A) v :
  Torch.index_fill t (Torch.nonzero (map p t)) v
  = Some (map (fun x => if p x then v else x) t).
Proof.
  unfold Torch.nonzero.
  pose proof (index_fill_nonzero_from [] t (map p t) v (length_map p t)) as Hfill.
  rewrite masked_fill_map in Hfill. exact Hfill.
Qed.

Lemma fits_int32_scalar z : Torch.fits_int32 z = true -> Torch.fits_scalar z = true.
Proof. unfold Torch.fits_int32, Torch.fits_scalar. lia. Qed.

Lemma wrap32_fits z : Torch.fits_int32 z = true -> Torch.wrap32 z = z.
Proof.
  unfold Torch.fits_int32, Torch.wrap32. intros Hz.
  rewrite Z.mod_small; lia.
Qed.

Section ResetAllEnvs.

Context {T : Type} `{Scalar T}.
Variable rand : nat -> T.

Local Abbreviation run_terms := (apply_terms rand).

Lemma reset_gate_all g index (tc : EventTermCfg.t T) st last :
  EventTermCfg.min_step_count_between_reset tc <> 0%Z ->
  Torch.fits_int32 (EventTermCfg.min_step_count_between_reset tc) = true ->
  ls_env_ids st = IdsNone \/ ls_env_ids st = IdsAll ->
  ls_reset st !! index = Some last ->
  Torch.fits_int32 g = true ->
  let due l := (EventTermCfg.min_step_count_between_reset tc <=? Torch.wrap32 (g - l))%Z in
  let fired := Torch.nonzero (map due last) in
  reset_gate index tc g st
  = if 0 <? length fired
    then Invoke (mkLoop (ls_interval st)
                   (<[index := map (fun l => if due l then g else l) last]> (ls_reset st))
                   (ls_cursor st) (IdsList fired) (ls_calls st))
    else Skip (mkLoop (ls_interval st) (ls_reset st) (ls_cursor st) (IdsList fired)
                 (ls_calls st)).
Proof.
  intros Hmin Hthr Henv Hbuf Hfit due fired. unfold reset_gate.
  apply Z.eqb_neq in Hmin. rewrite Hmin.
  assert (Hst : (match ls_env_ids st with
                 | IdsNone => with_env_ids st IdsAll
                 | _ => st
                 end) = with_env_ids st IdsAll).
  { destruct Henv as [E|E]; rewrite E; [reflexivity|]. destruct st. cbn in E. subst.
    reflexivity. }
  rewrite Hst. cbn [with_env_ids ls_reset ls_env_ids select_env_ids ls_interval ls_cursor
                    ls_calls].
  rewrite Hbuf, (fits_int32_scalar _ Hfit), (fits_int32_scalar _ Hthr), (wrap32_fits _ Hthr).
  cbn [negb]. rewrite map_map. fold due. fold fired.
  destruct (0 <? length fired); [|reflexivity].
  rewrite Hfit. unfold fired. rewrite index_fill_nonzero_map. reflexivity.
Qed.

(** X10.  A reset term with a non-zero minimum step count that fits
    [int32], when [env_ids] is [None] (all environments) and the step count
    fits [int32]: the fired subset is the set of environment
    indices whose elapsed steps, the step count minus the last-triggered
    entry in 32-bit arithmetic, reach the minimum; when it is not empty the
    term is invoked once with that subset and exactly the entries of that
    subset are stamped with the step count, the others staying; when it is
    empty the term is not invoked and the tensor stays. *)
Theorem reset_gate_fires_due_environments g index (tc : EventTermCfg.t T) rest st last :
  EventTermCfg.min_step_count_between_reset tc <> 0%Z ->
  Torch.fits_int32 (EventTermCfg.min_step_count_between_reset tc) = true ->
  ls_env_ids st = IdsNone \/ ls_env_ids st = IdsAll ->
  ls_reset st !! index = Some last ->
  Torch.fits_int32 g = true ->
  let due l := (EventTermCfg.min_step_count_between_reset tc <=? Torch.wrap32 (g - l))%Z in
  let fired := Torch.nonzero (map due last) in
  (forall z, In z fired <->
             exists k l, z = Z.of_nat k /\ last !! k = Some l /\
                         (EventTermCfg.min_step_count_between_reset tc
                          <= Torch.wrap32 (g - l))%Z) /\
  run_terms (ModeReset g) ((index, tc) :: rest) st
  = (if 0 <? length fired
     then run_terms (ModeReset g) rest
            (mkLoop (ls_interval st)
               (<[index := map (fun l => if due l then g else l) last]> (ls_reset st))
               (ls_cursor st) (IdsList fired)
               (ls_calls st ++ [mkCall (EventTermCfg.func tc) (IdsList fired)
                                  (EventTermCfg.params tc)]))
     else run_terms (ModeReset g) rest
            (mkLoop (ls_interval st) (ls_reset st) (ls_cursor st) (IdsList fired)
               (ls_calls st))).
Proof.
  intros Hmin Hthr Henv Hbuf Hfit due fired. split.
  - intros z. unfold fired, Torch.nonzero. rewrite In_nonzero_from. split.
    + intros (k & -> & Hk). rewrite lookup_map in Hk.
      destruct (last !! k) as [l|] eqn:Hl; [|discriminate].
      injection Hk as Hk. exists k, l. split; [lia|]. split; [exact Hl|].
      apply Z.leb_le. exact Hk.
    + intros (k & l & -> & Hl & Hle). exists k. split; [lia|].
      rewrite lookup_map, Hl. cbn. f_equal. apply Z.leb_le. exact Hle.
  - cbn [apply_terms gate].
    rewrite (reset_gate_all g index tc st last Hmin Hthr Henv Hbuf Hfit).
    cbn zeta. fold due. fold fired.
    destruct (0 <? length fired); reflexivity.
Qed.

(** X11.  The minimum step count is kept between two triggers, for a
    minimum step count that fits [int32]: when the last-triggered entry of an
    environment is [g0] and the term is gated again for all environments at a
    step [g] less than the minimum step count after [g0], that environment is
    not in the fired subset and its entry stays [g0]. *)
Theorem reset_gate_keeps_min_steps_between_triggers
    g0 g index (tc : EventTermCfg.t T) st last k :
  Torch.fits_int32 (EventTermCfg.min_step_count_between_reset tc) = true ->
  ls_env_ids st = IdsNone \/ ls_env_ids st = IdsAll ->
  ls_reset st !! index = Some last ->
  last !! k = Some g0 ->
  (0 <= g - g0 < EventTermCfg.min_step_count_between_reset tc)%Z ->
  (g - g0 < 2 ^ 31)%Z ->
  Torch.fits_int32 g = true ->
  exists fired last',
    ls_env_ids (gate_state (reset_gate index tc g st)) = IdsList fired /\
    ~ In (Z.of_nat k) fired /\
    ls_reset (gate_state (reset_gate index tc g st)) !! index = Some last' /\
    last' !! k = Some g0.
Proof.
  intros Hthr Henv Hbuf Hk Hlt Hrange Hfit.
  assert (Hmin : EventTermCfg.min_step_count_between_reset tc <> 0%Z) by lia.
  rewrite (reset_gate_all g index tc st last Hmin Hthr Henv Hbuf Hfit). cbn zeta.
  set (due := fun l => (EventTermCfg.min_step_count_between_reset tc
                        <=? Torch.wrap32 (g - l))%Z).
  set (fired := Torch.nonzero (map due last)).
  assert (Hwrap : Torch.wrap32 (g - g0) = (g - g0)%Z).
  { unfold Torch.wrap32. rewrite Z.mod_small; lia. }
  assert (Hdue : due g0 = false).
  { unfold due. rewrite Hwrap. apply Z.leb_gt. lia. }
  assert (Hnot : ~ In (Z.of_nat k) fired).
  { unfold fired, Torch.nonzero. rewrite In_nonzero_from. intros (k' & Hk' & Hm).
    assert (k' = k) by lia. subst k'. rewrite lookup_map, Hk in Hm. cbn in Hm. congruence. }
  destruct (0 <? length fired); cbn [gate_state ls_env_ids ls_reset].
  - exists fired, (map (fun l => if due l then g else l) last).
    split; [reflexivity|]. split; [exact Hnot|]. split.
    + apply list_lookup_insert_eq. eapply lookup_lt_Some; eauto.
    + rewrite lookup_map, Hk. cbn. rewrite Hdue. reflexivity.
  - exists fired, last. auto.
Qed.

End ResetAllEnvs.

(** ** Tensors of the right shape: calls that cannot fail *)

Lemma default_appended {A} (l : list A) : default [] (appended l) = l.
Proof. destruct l; reflexivity. Qed.

Lemma map_insert {A B} (f : A -> B) (l : list A) i x :
  map f (<[i := x]> l) = <[i := f x]> (map f l).
Proof.
  revert i. induction l as [|y l IH]; intros [|i]; simpl; auto. rewrite IH. reflexivity.
Qed.

Lemma map_length_insert {A} (l : list (list A)) i x x' :
  l !! i = Some x -> length x' = length x ->
  map length (<[i := x']> l) = map length l.
Proof.
  intros Hl Hx. rewrite map_insert. apply list_insert_id.
  rewrite lookup_map, Hl, Hx. reflexivity.
Qed.

Lemma map_length_lookup {A} (a b : list (list A)) j x :
  map length a = map length b -> a !! j = Some x ->
  exists y, b !! j = Some y /\ length y = length x.
Proof.
  intros Hab Ha.
  assert (Hj : map length b !! j = Some (length x)).
  { rewrite <- Hab, lookup_map, Ha. reflexivity. }
  rewrite lookup_map in Hj. destruct (b !! j) as [y|]; [|discriminate].
  injection Hj as Hj. eauto.
Qed.

Lemma nonzero_bounds mask :
  length (Torch.nonzero mask) <= length mask /\
  Forall (fun z => (0 <= z < Z.of_nat (length mask))%Z) (Torch.nonzero mask).
Proof.
  split.
  - unfold Torch.nonzero. rewrite length_nonzero_from. apply List.filter_length_le.
  - apply List.Forall_forall. intros z Hz. unfold Torch.nonzero in Hz.
    apply In_nonzero_from in Hz as (k & -> & Hk).
    apply lookup_lt_Some in Hk. lia.
Qed.

Lemma index_select_valid {A} (t : list A) ids :
  Forall (fun z => (0 <= z < Z.of_nat (length t))%Z) ids ->
  exists sel, Torch.index_select t ids = Some sel /\ length sel = length ids.
Proof.
  induction ids as [|z ids IH]; intros Hall.
  - exists []. auto.
  - apply Forall_cons in Hall as [Hz Hall].
    destruct (IH Hall) as (sel & Hsel & Hlen).
    cbn [Torch.index_select].
    replace z with (Z.of_nat (Z.to_nat z)) by lia.
    rewrite resolve_index_nat by lia.
    destruct (lookup_lt_is_Some_2 t (Z.to_nat z)) as [x Hx]; [lia|].
    rewrite Hx, Hsel. exists (x :: sel). simpl. auto.
Qed.

Lemma index_fill_valid {A} (t : list A) ids v :
  Forall (fun z => (0 <= z < Z.of_nat (length t))%Z) ids ->
  exists t', Torch.index_fill t ids v = Some t' /\ length t' = length t.
Proof.
  revert t. induction ids as [|z ids IH]; intros t Hall.
  - exists t. auto.
  - apply Forall_cons in Hall as [Hz Hall].
    cbn [Torch.index_fill].
    replace z with (Z.of_nat (Z.to_nat z)) by lia.
    rewrite resolve_index_nat by lia.
    destruct (IH (<[Z.to_nat z := v]> t)) as (t' & Ht' & Hlen).
    { rewrite length_insert. exact Hall. }
    exists t'. rewrite length_insert in Hlen. auto.
Qed.

Section Ready.

Context {T : Type} `{Scalar T}.
Variable num_envs : nat.
Variable rand : nat -> T.

Local Abbreviation run_terms := (apply_terms rand).

Lemma interval_gate_ok index (tc : EventTermCfg.t T) dt st tl :
  ls_interval st !! index = Some tl ->
  interval_shape_ok num_envs tc tl ->
  exists st1 tl',
    (interval_gate rand index tc dt st = Invoke st1 \/
     interval_gate rand index tc dt st = Skip st1) /\
    ls_interval st1 = <[index := tl']> (ls_interval st) /\
    length tl' = length tl.
Proof.
  intros Hbuf [Hrange Hlen]. unfold interval_gate. rewrite Hbuf.
  destruct (EventTermCfg.interval_range_s tc) as [[lower upper]|]; [clear Hrange|congruence].
  cbn [with_interval ls_interval ls_cursor ls_reset ls_env_ids ls_calls].
  destruct (EventTermCfg.is_global_time tc).
  - destruct tl as [|x [|y tl]]; try discriminate. cbn [map].
    destruct (t_le0 (t_sub x dt)).
    + eexists _, _. split; [left; reflexivity|].
      cbn [with_cursor with_interval ls_interval]. rewrite list_insert_insert_eq.
      split; reflexivity.
    + eexists _, _. split; [right; reflexivity|]. cbn. split; reflexivity.
  - set (dec := map (fun x => t_sub x dt) tl).
    pose proof (fun vs => index_put_nonzero dec (map t_le0 dec) vs
                            (length_map t_le0 dec)) as Hput.
    set (fired := Torch.nonzero (map t_le0 dec)) in *.
    destruct (0 <? length fired).
    + rewrite Hput by (rewrite length_map, length_draws; lia).
      eexists _, _. split; [left; reflexivity|].
      cbn [with_env_ids with_cursor with_interval ls_interval].
      rewrite list_insert_insert_eq. split; [reflexivity|].
      rewrite length_masked_scatter. unfold dec. apply length_map.
    + eexists _, _. split; [right; reflexivity|]. cbn. split; [reflexivity|].
      unfold dec. apply length_map.
Qed.

Lemma interval_terms_ok dt tcs i st :
  (forall j tc, tcs !! j = Some tc ->
                exists tl, ls_interval st !! (i + j) = Some tl /\
                           interval_shape_ok num_envs tc tl) ->
  snd (run_terms (ModeInterval dt) (enumerate_from i tcs) st) = None /\
  map length (ls_interval (fst (run_terms (ModeInterval dt) (enumerate_from i tcs) st)))
  = map length (ls_interval st).
Proof.
  revert i st. induction tcs as [|tc tcs IH]; intros i st Hpre; [auto|].
  destruct (Hpre 0 tc eq_refl) as (tl & Hbuf & Hshape).
  rewrite Nat.add_0_r in Hbuf.
  destruct (interval_gate_ok i tc dt st tl Hbuf Hshape) as (st1 & tl' & Hg & Hb1 & Hlen).
  assert (Hmap : map length (ls_interval st1) = map length (ls_interval st)).
  { rewrite Hb1. eapply map_length_insert; eauto. }
  assert (Hrest : forall st2,
             ls_interval st2 = ls_interval st1 ->
             snd (run_terms (ModeInterval dt) (enumerate_from (S i) tcs) st2) = None /\
             map length (ls_interval
                           (fst (run_terms (ModeInterval dt) (enumerate_from (S i) tcs) st2)))
             = map length (ls_interval st)).
  { intros st2 H2. destruct (IH (S i) st2) as [Hn Hl].
    - intros j tc' Hj. destruct (Hpre (S j) tc' Hj) as (tlj & Hbj & Hsj).
      replace (i + S j) with (S i + j) in Hbj by lia.
      rewrite H2.
      destruct (map_length_lookup _ _ _ _ (eq_sym Hmap) Hbj) as (y & Hy & Hly).
      exists y. split; [exact Hy|]. destruct Hsj as [Hr Hs]. split; [exact Hr|]. congruence.
    - split; [exact Hn|]. rewrite Hl, H2. exact Hmap. }
  cbn [enumerate_from apply_terms gate].
  destruct Hg as [-> | ->]; apply Hrest; reflexivity.
Qed.

Lemma reset_gate_ok index (tc : EventTermCfg.t T) g st last :
  ls_reset st !! index = Some last ->
  length last = num_envs ->
  Torch.fits_int32 g = true ->
  Torch.fits_int32 (EventTermCfg.min_step_count_between_reset tc) = true ->
  env_ids_valid num_envs (ls_env_ids st) ->
  exists st1 last',
    (reset_gate index tc g st = Invoke st1 \/ reset_gate index tc g st = Skip st1) /\
    ls_reset st1 = <[index := last']> (ls_reset st) /\
    length last' = num_envs /\
    env_ids_valid num_envs (ls_env_ids st1).
Proof.
  intros Hbuf Hlen Hfit Hthr Hvalid. unfold reset_gate.
  destruct (EventTermCfg.min_step_count_between_reset tc =? 0)%Z.
  - rewrite Hbuf, Hfit. eexists _, _. split; [left; reflexivity|].
    cbn. split; [reflexivity|]. split; [rewrite length_map; exact Hlen | exact Hvalid].
  - set (st0 := match ls_env_ids st with IdsNone => with_env_ids st IdsAll | _ => st end).
    assert (Hst0 : ls_reset st0 = ls_reset st /\ ls_env_ids st0 <> IdsNone /\
                   env_ids_valid num_envs (ls_env_ids st0)).
    { unfold st0. destruct (ls_env_ids st) eqn:E; cbn; rewrite ?E; repeat split;
        try discriminate; try exact I; apply Hvalid. }
    destruct Hst0 as (Hr0 & Hne & Hv0). clearbody st0. rewrite Hr0, Hbuf.
    rewrite (fits_int32_scalar _ Hfit), (fits_int32_scalar _ Hthr). cbn [negb].
    set (steps := map (fun l => Torch.wrap32 (g - l)) last).
    assert (Hsel : exists sel, select_env_ids steps (ls_env_ids st0) = Some sel /\
                               length sel <= num_envs).
    { destruct (ls_env_ids st0) as [| |ids]; [congruence| |].
      - exists steps. split; [reflexivity|]. unfold steps. rewrite length_map. lia.
      - destruct Hv0 as [Hl Hall].
        destruct (index_select_valid steps ids) as (sel & Hsel & Hls).
        { unfold steps. rewrite length_map, Hlen. exact Hall. }
        exists sel. split; [exact Hsel | lia]. }
    destruct Hsel as (sel & -> & Hls).
    set (fired := Torch.nonzero _).
    assert (Hfired : env_ids_valid num_envs (IdsList fired)).
    { destruct (nonzero_bounds
                  (map (fun s => (Torch.wrap32 (EventTermCfg.min_step_count_between_reset tc)
                                  <=? s)%Z) sel))
        as [Hl Hall]. fold fired in Hl, Hall. rewrite length_map in Hl, Hall.
      split; [lia|]. eapply Forall_impl; [exact Hall|]. cbn. intros z Hz. lia. }
    cbn [with_env_ids ls_reset ls_env_ids].
    destruct (0 <? length fired).
    + rewrite Hfit.
      destruct (index_fill_valid last fired g) as (last' & Hfill & Hl').
      { rewrite Hlen. apply Hfired. }
      rewrite Hfill. eexists _, _. split; [left; reflexivity|].
      unfold with_reset, with_env_ids. cbn [ls_reset ls_env_ids].
      split; [exact (f_equal (fun l => <[index := last']> l) Hr0)|].
      split; [congruence | exact Hfired].
    + eexists _, last. split; [right; reflexivity|].
      cbn [ls_reset ls_env_ids]. rewrite (list_insert_id _ _ _ Hbuf). auto.
Qed.

Lemma reset_terms_ok g (tcs : list (EventTermCfg.t T)) i st :
  Torch.fits_int32 g = true ->
  Forall (fun tc => Torch.fits_int32 (EventTermCfg.min_step_count_between_reset tc) = true)
         tcs ->
  env_ids_valid num_envs (ls_env_ids st) ->
  (forall j tc, tcs !! j = Some tc ->
                exists last, ls_reset st !! (i + j) = Some last /\ length last = num_envs) ->
  snd (run_terms (ModeReset g) (enumerate_from i tcs) st) = None /\
  map length (ls_reset (fst (run_terms (ModeReset g) (enumerate_from i tcs) st)))
  = map length (ls_reset st).
Proof.
  intros Hfit Hthrs. revert i st.
  induction Hthrs as [|tc tcs Hthr Hthrs IH]; intros i st Hvalid Hpre; [auto|].
  destruct (Hpre 0 tc eq_refl) as (last & Hbuf & Hlen).
  rewrite Nat.add_0_r in Hbuf.
  destruct (reset_gate_ok i tc g st last Hbuf Hlen Hfit Hthr Hvalid)
    as (st1 & last' & Hg & Hb1 & Hlen' & Hv1).
  assert (Hmap : map length (ls_reset st1) = map length (ls_reset st)).
  { rewrite Hb1. eapply map_length_insert; eauto. congruence. }
  assert (Hrest : forall st2,
             ls_reset st2 = ls_reset st1 ->
             ls_env_ids st2 = ls_env_ids st1 ->
             snd (run_terms (ModeReset g) (enumerate_from (S i) tcs) st2) = None /\
             map length (ls_reset
                           (fst (run_terms (ModeReset g) (enumerate_from (S i) tcs) st2)))
             = map length (ls_reset st)).
  { intros st2 H2 He2. destruct (IH (S i) st2) as [Hn Hl].
    - rewrite He2. exact Hv1.
    - intros j tc' Hj. destruct (Hpre (S j) tc' Hj) as (lj & Hbj & Hlj).
      replace (i + S j) with (S i + j) in Hbj by lia.
      rewrite H2.
      destruct (map_length_lookup _ _ _ _ (eq_sym Hmap) Hbj) as (y & Hy & Hly).
      exists y. split; [exact Hy | congruence].
    - split; [exact Hn|]. rewrite Hl, H2. exact Hmap. }
  cbn [enumerate_from apply_terms gate].
  destruct Hg as [-> | ->]; apply Hrest; reflexivity.
Qed.

End Ready.

Section ReadyManagers.

Context {T : Type} `{Scalar T}.
Variable num_envs : nat.
Variable rand : nat -> T.
Variable resolve : string -> EventTermCfg.t T -> Exn + (Callable * Params).

Local Abbreviation prep_loop := (prepare_loop num_envs rand resolve).
Local Abbreviation prepare := (_prepare_terms num_envs rand resolve).

Lemma prepare_loop_buffers_by_term items cursor st :
  prep_loop items (mkPrep empty_manager cursor []) = inr st ->
  Forall2 (interval_shape_ok num_envs)
    (map snd (mode_terms resolve "interval" items))
    (_interval_term_time_left (ps_manager st)) /\
  _reset_term_last_triggered_step_id (ps_manager st)
  = map (fun _ => repeat 0%Z num_envs) (mode_terms resolve "reset" items).
Proof.
  revert st. induction items as [|[name e] pre IH] using rev_ind; intros st Hl.
  - injection Hl as <-. split; [constructor | reflexivity].
  - apply prepare_loop_snoc in Hl as (st1 & Hpre & Ht).
    destruct (IH st1 Hpre) as [IHi IHr]. clear IH.
    unfold mode_terms. rewrite !flat_map_app. cbn [flat_map]. rewrite !app_nil_r.
    fold (mode_terms resolve "interval" pre). fold (mode_terms resolve "reset" pre).
    destruct e as [|tc|ty]; [| |discriminate].
    { injection Ht as <-. cbn [resolved_entry snd]. rewrite !app_nil_r. auto. }
    apply prepare_term_full in Ht
      as (r & ln & lc & cls' & bi & br & c & Hr & _ & _ & _ & -> & Hmode).
    cbn zeta in Hmode. cbn [ps_manager _interval_term_time_left
                            _reset_term_last_triggered_step_id].
    unfold resolved_entry. cbn [fst snd]. rewrite Hr.
    destruct Hmode as [(Hm & lower & upper & Hrange & -> & -> & _)
                      |[(Hm & Hmin & -> & -> & _)|(Hi & Hre & -> & -> & _)]].
    + rewrite Hm. cbn [String.eqb Ascii.eqb Bool.eqb]. rewrite app_nil_r.
      split; [|exact IHr]. rewrite map_app. apply Forall2_app; [exact IHi|].
      constructor; [|constructor]. split.
      * cbn. rewrite Hrange. discriminate.
      * rewrite length_map, length_draws. reflexivity.
    + rewrite Hm. cbn [String.eqb Ascii.eqb Bool.eqb]. rewrite app_nil_r.
      split; [exact IHi|]. rewrite map_app, IHr. reflexivity.
    + apply String.eqb_neq in Hi. apply String.eqb_neq in Hre. rewrite Hi, Hre.
      rewrite !app_nil_r. auto.
Qed.

Lemma prepare_buffers_ready cfg cursor st :
  prepare cfg cursor = inr st ->
  buffers_ready num_envs (ps_manager st) /\
  _reset_term_last_triggered_step_id (ps_manager st)
  = map (fun _ => repeat 0%Z num_envs)
      (default [] (dget (_mode_term_cfgs (ps_manager st)) "reset")).
Proof.
  intros Hp. unfold buffers_ready.
  destruct (prepare_loop_buffers_by_term _ _ _ Hp) as [Hi Hr].
  destruct (prepare_loop_groups num_envs rand resolve _ _ _ Hp "interval") as (_ & Hci & _).
  destruct (prepare_loop_groups num_envs rand resolve _ _ _ Hp "reset") as (_ & Hcr & _).
  rewrite Hci, Hcr, !default_appended, Hr, map_map.
  split; [|reflexivity]. split; [exact Hi|].
  clear Hr Hcr.
  induction (mode_terms resolve "reset" (cfg_items cfg)) as [|x l IHl]; cbn;
    constructor; [apply repeat_length | exact IHl].
Qed.

(** X12.  After construction every interval descriptor has, at its index, a
    tensor with one entry when its timing is global and one entry per
    environment otherwise, and has a sampling range; every reset descriptor
    has, at its index, a tensor of one zero per environment. *)
Theorem prepare_allocates_buffers cfg cursor st :
  prepare cfg cursor = inr st ->
  buffers_ready num_envs (ps_manager st) /\
  _reset_term_last_triggered_step_id (ps_manager st)
  = map (fun _ => repeat 0%Z num_envs)
      (default [] (dget (_mode_term_cfgs (ps_manager st)) "reset")).
Proof. apply prepare_buffers_ready. Qed.

Lemma shapes_kept {A B} (P : A -> nat -> Prop) (tcs : list A) (a b : list (list B)) :
  Forall2 (fun tc tl => P tc (length tl)) tcs a ->
  map length b = map length a ->
  Forall2 (fun tc tl => P tc (length tl)) tcs b.
Proof.
  intros Hf. revert b. induction Hf as [|tc tl tcs a Hp Hf IH]; intros b Hb.
  - destruct b; [constructor | discriminate].
  - destruct b as [|y b]; [discriminate|]. injection Hb as Hy Hb.
    constructor; [rewrite Hy; exact Hp | apply IH; exact Hb].
Qed.

Lemma wf_cfgs_present (m : EventManager T) mode :
  manager_wf m -> dmem (_mode_term_names m) mode = true ->
  exists tcs, dget (_mode_term_cfgs m) mode = Some tcs.
Proof.
  intros (_ & Hall & _) Hm. destruct (dmem_dget _ _ Hm) as [terms Hterms].
  apply dget_In, list_elem_of_In in Hterms. rewrite Forall_forall in Hall.
  destruct (Hall _ Hterms) as (l & Hl & _). eauto.
Qed.

(** X13.  On a manager whose dictionaries agree and whose tensors have the
    shapes of their descriptors (as construction leaves it), [apply] in mode
    "interval" with a time step raises nothing, whatever [env_ids] is, and
    leaves a manager of the same kind: the call can be repeated at every
    step. *)
Theorem apply_interval_never_raises (m : EventManager T) cursor env_ids dt g :
  manager_wf m ->
  buffers_ready num_envs m ->
  let r := apply rand m cursor "interval" env_ids (Some dt) g in
  ap_raised r = None /\
  manager_wf (ap_manager r) /\
  buffers_ready num_envs (ap_manager r).
Proof.
  intros Hwf [Hbi Hbr]. unfold apply.
  destruct (dmem (_mode_term_names m) "interval") eqn:Hm; cbn [negb];
    [|cbn; unfold buffers_ready; auto].
  destruct (wf_cfgs_present m "interval" Hwf Hm) as [tcs Htcs].
  rewrite Htcs in Hbi |- *. cbn [mode_ctx String.eqb Ascii.eqb Bool.eqb default] in Hbi |- *.
  set (st := mkLoop _ _ cursor env_ids []).
  destruct (interval_terms_ok num_envs rand dt tcs 0 st) as [Hnone Hlen].
  { intros j tc Hj. apply (Forall2_lookup_l _ _ _ _ _ Hbi Hj). }
  pose proof (apply_terms_frame rand (ModeInterval dt) (enumerate_from 0 tcs) st)
    as (_ & _ & Hreset).
  unfold enumerate. destruct (apply_terms rand (ModeInterval dt) (enumerate_from 0 tcs) st)
    as [st' raised]. cbn [fst snd] in *. subst raised.
  cbn zeta. cbn [ap_raised ap_manager].
  split; [reflexivity|]. split; [exact Hwf|].
  unfold buffers_ready.
  cbn [_mode_term_cfgs _interval_term_time_left _reset_term_last_triggered_step_id].
  rewrite Htcs, Hreset. cbn [default]. split; [|exact Hbr].
  apply (shapes_kept (fun tc n => EventTermCfg.interval_range_s tc <> None /\
                                  n = if EventTermCfg.is_global_time tc then 1 else num_envs)
           tcs (_interval_term_time_left m)); [exact Hbi | exact Hlen].
Qed.

(** X14.  On such a manager, when the minimum step counts of its reset
    descriptors fit [int32], [apply] in mode "reset" with a step count that
    fits [int32] and with [env_ids] either [None] or at most [num_envs]
    indices within [0, num_envs) raises nothing and leaves a manager of the
    same kind. *)
Theorem apply_reset_never_raises (m : EventManager T) cursor env_ids dt g :
  manager_wf m ->
  buffers_ready num_envs m ->
  reset_thresholds_fit m ->
  env_ids_valid num_envs env_ids ->
  Torch.fits_int32 g = true ->
  let r := apply rand m cursor "reset" env_ids dt (Some g) in
  ap_raised r = None /\
  manager_wf (ap_manager r) /\
  buffers_ready num_envs (ap_manager r) /\
  reset_thresholds_fit (ap_manager r).
Proof.
  intros Hwf [Hbi Hbr] Hthrs Hvalid Hfit. unfold apply.
  destruct (dmem (_mode_term_names m) "reset") eqn:Hm; cbn [negb];
    [|cbn; unfold buffers_ready; auto].
  destruct (wf_cfgs_present m "reset" Hwf Hm) as [tcs Htcs].
  unfold reset_thresholds_fit in Hthrs |- *.
  rewrite Htcs in Hbr, Hthrs |- *.
  cbn [mode_ctx String.eqb Ascii.eqb Bool.eqb default] in Hbr, Hthrs |- *.
  set (st := mkLoop _ _ cursor env_ids []).
  destruct (reset_terms_ok num_envs rand g tcs 0 st Hfit Hthrs Hvalid) as [Hnone Hlen].
  { intros j tc Hj. apply (Forall2_lookup_l _ _ _ _ _ Hbr Hj). }
  pose proof (apply_terms_frame rand (ModeReset g) (enumerate_from 0 tcs) st)
    as (_ & _ & Hinterval & _).
  unfold enumerate. destruct (apply_terms rand (ModeReset g) (enumerate_from 0 tcs) st)
    as [st' raised]. cbn [fst snd] in *. subst raised.
  cbn zeta. cbn [ap_raised ap_manager].
  split; [reflexivity|]. split; [exact Hwf|].
  unfold buffers_ready.
  cbn [_mode_term_cfgs _interval_term_time_left _reset_term_last_triggered_step_id].
  rewrite Htcs, Hinterval. cbn [default]. split; [|exact Hthrs].
  split; [exact Hbi|].
  apply (shapes_kept (fun (_ : EventTermCfg.t T) n => n = num_envs)
           tcs (_reset_term_last_triggered_step_id m)); [exact Hbr | exact Hlen].
Qed.

End ReadyManagers.

(** ** [env_ids] across the terms of one call: what later terms receive *)

Lemma index_select_length {A} (t : list A) ids sel :
  Torch.index_select t ids = Some sel -> length sel = length ids.
Proof.
  revert sel. induction ids as [|z ids IH]; intros sel Hsel.
  - injection Hsel as <-. reflexivity.
  - cbn [Torch.index_select] in Hsel.
    destruct (Torch.resolve_index (length t) z) as [k|]; [|discriminate].
    destruct (t !! k) as [x|]; [|discriminate].
    destruct (Torch.index_select t ids) as [sel'|]; [|discriminate].
    injection Hsel as <-. simpl. rewrite (IH sel' eq_refl). reflexivity.
Qed.

Lemma gated_from_refl l : gated_from l (IdsList l).
Proof. exists l. auto. Qed.

Lemma gated_from_trans sub l e :
  gated_from sub (IdsList l) -> gated_from l e -> gated_from sub e.
Proof.
  intros (l1 & E1 & Hlen1 & H1) (l2 & -> & Hlen2 & H2). injection E1 as <-.
  exists l2. split; [reflexivity|]. split; [lia|].
  destruct H2 as [-> | H2]; [exact H1|].
  right. eapply Forall_impl; [exact H2|]. cbn. intros z Hz. lia.
Qed.

Section EnvIdsLater.

Context {T : Type} `{Scalar T}.
Variable rand : nat -> T.

Local Abbreviation run_terms := (apply_terms rand).

Lemma apply_terms_app ctx a b st :
  run_terms ctx (a ++ b) st
  = match run_terms ctx a st with
    | (st', None) => run_terms ctx b st'
    | (st', Some e) => (st', Some e)
    end.
Proof.
  revert st. induction a as [|[index tc] a IH]; intros st; [reflexivity|].
  cbn [app apply_terms]. destruct (gate rand ctx index tc st); auto.
Qed.

(** The gated branch of a reset term, whatever [env_ids] holds. *)
Lemma reset_gate_gated g index (tc : EventTermCfg.t T) st last sel last' :
  EventTermCfg.min_step_count_between_reset tc <> 0%Z ->
  Torch.fits_int32 (EventTermCfg.min_step_count_between_reset tc) = true ->
  Torch.fits_int32 g = true ->
  ls_reset st !! index = Some last ->
  select_env_ids (map (fun l => Torch.wrap32 (g - l)) last)
    (match ls_env_ids st with IdsNone => IdsAll | e => e end) = Some sel ->
  let fired :=
    Torch.nonzero
      (map (fun s => (EventTermCfg.min_step_count_between_reset tc <=? s)%Z) sel) in
  Torch.index_fill last fired g = Some last' ->
  reset_gate index tc g st
  = if 0 <? length fired
    then Invoke (mkLoop (ls_interval st) (<[index := last']> (ls_reset st)) (ls_cursor st)
                   (IdsList fired) (ls_calls st))
    else Skip (mkLoop (ls_interval st) (ls_reset st) (ls_cursor st) (IdsList fired)
                 (ls_calls st)).
Proof.
  intros Hmin Hthr Hfit Hbuf Hsel fired Hfill. unfold reset_gate.
  apply Z.eqb_neq in Hmin. rewrite Hmin.
  set (st0 := match ls_env_ids st with IdsNone => with_env_ids st IdsAll | _ => st end).
  assert (Hst0 : ls_interval st0 = ls_interval st /\ ls_reset st0 = ls_reset st /\
                 ls_cursor st0 = ls_cursor st /\ ls_calls st0 = ls_calls st /\
                 ls_env_ids st0 = match ls_env_ids st with IdsNone => IdsAll | e => e end).
  { unfold st0. destruct (ls_env_ids st) eqn:E; cbn; rewrite ?E; auto. }
  destruct Hst0 as (Hi0 & Hr0 & Hc0 & Hl0 & He0). clearbody st0.
  rewrite Hr0, Hbuf, (fits_int32_scalar _ Hfit), (fits_int32_scalar _ Hthr),
    (wrap32_fits _ Hthr), He0, Hsel.
  cbn [negb]. fold fired.
  destruct (0 <? length fired).
  - rewrite Hfit, Hfill. unfold with_reset, with_env_ids.
    cbn [ls_interval ls_reset ls_cursor ls_env_ids ls_calls].
    rewrite Hi0, Hr0, Hc0, Hl0. reflexivity.
  - unfold with_env_ids. rewrite Hi0, Hr0, Hc0, Hl0. reflexivity.
Qed.

(** A reset term that finds a subset in [env_ids] leaves that subset or
    positions within it. *)
Lemma reset_gate_gated_from g index (tc : EventTermCfg.t T) st l :
  ls_env_ids st = IdsList l ->
  match reset_gate index tc g st with
  | Invoke st1 | Skip st1 => gated_from l (ls_env_ids st1)
  | Raise _ _ => True
  end.
Proof.
  intros He. unfold reset_gate. rewrite He. cbv iota. rewrite ?He.
  destruct (EventTermCfg.min_step_count_between_reset tc =? 0)%Z.
  - destruct (ls_reset st !! index); [|exact I].
    destruct (Torch.fits_int32 g); [|exact I].
    cbn. rewrite He. apply gated_from_refl.
  - destruct (ls_reset st !! index) as [last|]; [|exact I].
    destruct (negb (Torch.fits_scalar g)); [exact I|].
    cbn [select_env_ids].
    destruct (Torch.index_select (A:=Z) _ l) as [sel|] eqn:Hsel; [|exact I].
    destruct (negb (Torch.fits_scalar _)); [exact I|].
    apply index_select_length in Hsel.
    set (fired := Torch.nonzero _).
    assert (Hg : gated_from l (IdsList fired)).
    { destruct (nonzero_bounds
                  (map (fun s => (Torch.wrap32 (EventTermCfg.min_step_count_between_reset tc)
                                  <=? s)%Z) sel)) as [Hl Hall].
      fold fired in Hl, Hall. rewrite length_map, Hsel in Hl, Hall.
      exists fired. auto. }
    destruct (0 <? length fired); [|exact Hg].
    destruct (Torch.fits_int32 g); [|exact I].
    destruct (Torch.index_fill last fired g); [exact Hg | exact I].
Qed.

(** In reset mode every call after [env_ids] holds a subset is made with
    that subset or with positions within it. *)
Lemma reset_terms_gated_from g rest st sub :
  gated_from sub (ls_env_ids st) ->
  exists later,
    ls_calls (fst (run_terms (ModeReset g) rest st)) = ls_calls st ++ later /\
    Forall (fun c => gated_from sub (call_env_ids c)) later.
Proof.
  revert st. induction rest as [|[index tc] rest IH]; intros st Hsub.
  - exists []. rewrite app_nil_r. auto.
  - destruct Hsub as (l & He & Hsub).
    assert (Hl : gated_from sub (IdsList l)) by (exists l; auto).
    pose proof (reset_gate_gated_from g index tc st l He) as Hg.
    pose proof (gate_calls rand (ModeReset g) index tc st) as Hc.
    cbn [apply_terms gate] in Hc |- *.
    destruct (reset_gate index tc g st) as [st1|st1|e st1]; cbn [gate_state] in Hc.
    + pose proof (gated_from_trans _ _ _ Hl Hg) as Hg1.
      destruct (IH (with_call st1 (mkCall (EventTermCfg.func tc) (ls_env_ids st1)
                                     (EventTermCfg.params tc))) Hg1)
        as (later & Heq & Hall).
      exists (mkCall (EventTermCfg.func tc) (ls_env_ids st1) (EventTermCfg.params tc)
              :: later).
      split.
      * rewrite Heq. cbn [with_call ls_calls]. rewrite Hc, <- app_assoc. reflexivity.
      * constructor; [exact Hg1 | exact Hall].
    + pose proof (gated_from_trans _ _ _ Hl Hg) as Hg1.
      destruct (IH st1 Hg1) as (later & Heq & Hall).
      exists later. split; [congruence | exact Hall].
    + exists []. rewrite app_nil_r. cbn. auto.
Qed.

(** The gate of a per-environment interval term. *)
Lemma interval_gate_per_env index (tc : EventTermCfg.t T) dt st time_left lower upper :
  EventTermCfg.is_global_time tc = false ->
  EventTermCfg.interval_range_s tc = Some (lower, upper) ->
  ls_interval st !! index = Some time_left ->
  let decremented := map (fun x => t_sub x dt) time_left in
  let mask := map t_le0 decremented in
  let fired := Torch.nonzero mask in
  let sampled := map (scale_sample lower upper) (draws rand (ls_cursor st) (length fired)) in
  interval_gate rand index tc dt st
  = if 0 <? length fired
    then Invoke (mkLoop (<[index := masked_scatter mask decremented sampled]> (ls_interval st))
                   (ls_reset st) (ls_cursor st + length fired) (IdsList fired) (ls_calls st))
    else Skip (mkLoop (<[index := decremented]> (ls_interval st)) (ls_reset st)
                 (ls_cursor st) (IdsList fired) (ls_calls st)).
Proof.
  intros Hglobal Hrange Hbuf decremented mask fired sampled.
  unfold interval_gate.
  rewrite Hbuf, Hglobal. cbn [ls_interval with_interval with_env_ids ls_cursor
                               with_cursor ls_env_ids ls_reset ls_calls].
  fold decremented. fold mask. fold fired.
  destruct (0 <? length fired) eqn:Hfired; [|reflexivity].
  rewrite Hrange. fold sampled.
  unfold fired at 1. rewrite index_put_nonzero.
  - cbn [with_interval ls_interval ls_reset ls_cursor ls_env_ids ls_calls].
    rewrite list_insert_insert_eq. reflexivity.
  - unfold mask. apply length_map.
  - fold fired. unfold sampled. rewrite length_map, length_draws. lia.
Qed.

(** From a per-environment interval term on, the loop does not depend on
    what [env_ids] holds. *)
Lemma interval_per_env_forgets_env_ids dt index (tc : EventTermCfg.t T) rest st time_left e :
  EventTermCfg.is_global_time tc = false ->
  ls_interval st !! index = Some time_left ->
  run_terms (ModeInterval dt) ((index, tc) :: rest) (with_env_ids st e)
  = run_terms (ModeInterval dt) ((index, tc) :: rest) st.
Proof.
  intros Hglobal Hbuf.
  assert (Hgate : interval_gate rand index tc dt (with_env_ids st e)
                  = interval_gate rand index tc dt st).
  { unfold interval_gate. destruct st as [bi br c e0 calls].
    cbn [with_env_ids ls_interval] in Hbuf |- *. rewrite Hbuf, Hglobal.
    cbn [ls_interval with_interval with_env_ids ls_cursor with_cursor ls_env_ids ls_reset
         ls_calls]. reflexivity. }
  cbn [apply_terms gate]. rewrite Hgate. reflexivity.
Qed.

(** C10, as the code has it.  [env_ids] is a variable of the loop and is
    not read again from the caller's argument.

    In reset mode: a term with a non-zero minimum step count (within
    [int32], as the step count is) whose gather and stamping succeed rebinds
    [env_ids] to its fired subset, the positions within the [env_ids] it
    found where the selected elapsed steps reach the minimum; the loop goes
    on over the remaining terms from that subset, and every call made for a
    later term of the same loop, gated or not, carries that subset or
    positions selected within it, never the caller's value.

    In interval mode: a per-environment term rebinds [env_ids] to its fired
    subset; the global-time terms that follow it are invoked with exactly
    that subset, and the loop reaches the term after them with [env_ids]
    still holding it; if that term is a per-environment term, it and the rest
    of the loop do not depend on what [env_ids] holds: it computes its
    subset from its own tensor. *)
Theorem apply_later_terms_start_from_rebound_env_ids :
  (forall g index (tc : EventTermCfg.t T) rest st last sel last',
      EventTermCfg.min_step_count_between_reset tc <> 0%Z ->
      Torch.fits_int32 (EventTermCfg.min_step_count_between_reset tc) = true ->
      Torch.fits_int32 g = true ->
      ls_reset st !! index = Some last ->
      select_env_ids (map (fun l => Torch.wrap32 (g - l)) last)
        (match ls_env_ids st with IdsNone => IdsAll | e => e end) = Some sel ->
      let fired :=
        Torch.nonzero
          (map (fun s => (EventTermCfg.min_step_count_between_reset tc <=? s)%Z) sel) in
      Torch.index_fill last fired g = Some last' ->
      let st1 :=
        if 0 <? length fired
        then mkLoop (ls_interval st) (<[index := last']> (ls_reset st)) (ls_cursor st)
               (IdsList fired)
               (ls_calls st ++ [mkCall (EventTermCfg.func tc) (IdsList fired)
                                  (EventTermCfg.params tc)])
        else mkLoop (ls_interval st) (ls_reset st) (ls_cursor st) (IdsList fired)
               (ls_calls st) in
      run_terms (ModeReset g) ((index, tc) :: rest) st = run_terms (ModeReset g) rest st1 /\
      exists later,
        ls_calls (fst (run_terms (ModeReset g) rest st1)) = ls_calls st1 ++ later /\
        Forall (fun c => gated_from fired (call_env_ids c)) later) /\
  (forall dt index (tc : EventTermCfg.t T) globals rest st time_left lower upper,
      EventTermCfg.is_global_time tc = false ->
      EventTermCfg.interval_range_s tc = Some (lower, upper) ->
      ls_interval st !! index = Some time_left ->
      forallb (fun it => EventTermCfg.is_global_time (snd it)) globals = true ->
      let decremented := map (fun x => t_sub x dt) time_left in
      let mask := map t_le0 decremented in
      let fired := Torch.nonzero mask in
      let sampled :=
        map (scale_sample lower upper) (draws rand (ls_cursor st) (length fired)) in
      let st1 :=
        if 0 <? length fired
        then mkLoop (<[index := masked_scatter mask decremented sampled]> (ls_interval st))
               (ls_reset st) (ls_cursor st + length fired) (IdsList fired)
               (ls_calls st ++ [mkCall (EventTermCfg.func tc) (IdsList fired)
                                  (EventTermCfg.params tc)])
        else mkLoop (<[index := decremented]> (ls_interval st)) (ls_reset st)
               (ls_cursor st) (IdsList fired) (ls_calls st) in
      exists st2 raised later,
        run_terms (ModeInterval dt) globals st1 = (st2, raised) /\
        ls_env_ids st2 = IdsList fired /\
        ls_calls st2 = ls_calls st1 ++ later /\
        Forall (fun c => call_env_ids c = IdsList fired) later /\
        run_terms (ModeInterval dt) ((index, tc) :: globals ++ rest) st
        = match raised with
          | None => run_terms (ModeInterval dt) rest st2
          | Some _ => (st2, raised)
          end /\
        forall j tcj rest' tl e,
          rest = (j, tcj) :: rest' ->
          EventTermCfg.is_global_time tcj = false ->
          ls_interval st2 !! j = Some tl ->
          run_terms (ModeInterval dt) rest (with_env_ids st2 e)
          = run_terms (ModeInterval dt) rest st2).
Proof.
  split.
  - intros g index tc rest st last sel last' Hmin Hthr Hfit Hbuf Hsel fired Hfill st1.
    assert (Heq : run_terms (ModeReset g) ((index, tc) :: rest) st
                  = run_terms (ModeReset g) rest st1).
    { cbn [apply_terms gate].
      rewrite (reset_gate_gated g index tc st last sel last' Hmin Hthr Hfit Hbuf Hsel Hfill).
      fold fired. unfold st1. destruct (0 <? length fired); reflexivity. }
    split; [exact Heq|].
    apply reset_terms_gated_from.
    unfold st1. destruct (0 <? length fired); apply gated_from_refl.
  - intros dt index tc globals rest st time_left lower upper Hglobal Hrange Hbuf Hall
           decremented mask fired sampled st1.
    assert (Heq : run_terms (ModeInterval dt) ((index, tc) :: globals ++ rest) st
                  = run_terms (ModeInterval dt) (globals ++ rest) st1).
    { cbn [apply_terms gate].
      rewrite (interval_gate_per_env index tc dt st time_left lower upper Hglobal Hrange Hbuf).
      cbn zeta. fold decremented. fold mask. fold fired. fold sampled. unfold st1.
      destruct (0 <? length fired); reflexivity. }
    assert (He1 : ls_env_ids st1 = IdsList fired).
    { unfold st1. destruct (0 <? length fired); reflexivity. }
    assert (Hkeep : forallb (fun it => negb (rebinds_env_ids (ModeInterval dt) (snd it)))
                      globals = true).
    { rewrite <- Hall. clear. induction globals as [|[j tcj] globals IH]; [reflexivity|].
      cbn [forallb]. rewrite IH. cbn [snd rebinds_env_ids].
      rewrite negb_involutive. reflexivity. }
    destruct (apply_terms_without_rebinding rand (ModeInterval dt) globals st1 Hkeep)
      as (He2 & later & Hcalls & Hlater).
    destruct (run_terms (ModeInterval dt) globals st1) as [st2 raised] eqn:Hrun.
    cbn [fst] in He2, Hcalls.
    exists st2, raised, later.
    split; [reflexivity|]. split; [congruence|]. split; [exact Hcalls|].
    split; [rewrite <- He1; exact Hlater|]. split.
    + rewrite Heq, apply_terms_app, Hrun. destruct raised; reflexivity.
    + intros j tcj rest' tl e -> Hg Hj.
      apply (interval_per_env_forgets_env_ids dt j tcj rest' st2 tl e Hg Hj).
Qed.

End EnvIdsLater.

(** C10, as stated, fails in interval mode.  Two per-environment interval
    terms over two environments: after construction the first has 1 s and
    0.5 s left, the second 0.5 s and 0.5 s.  In one call with [dt = 0.5] the
    first term fires for environment 1 and rebinds [env_ids] to that subset;
    the second term is invoked for the environments 0 and 1: it is gated
    from its own tensor, not from the subset the first term left. *)
Lemma interval_later_per_env_term_recomputes_env_ids :
  let mc := Demo.build 2 Demo.rand_half_then_zero
              (CfgDict [("push", EntryTerm (Demo.interval_term "push" (1#2) (3#2) false));
                        ("shove", EntryTerm (Demo.interval_term "shove" (1#2) (1#2) false))]) in
  let r := apply Demo.rand_half_then_zero (fst mc) (snd mc) "interval" IdsNone
             (Some (1#2)%Q) None in
  _interval_term_time_left (fst mc) = [[1; 1#2]; [1#2; 1#2]]%Q /\
  ap_raised r = None /\
  ap_calls r = [mkCall (Function "push") (IdsList [1%Z]) [];
                mkCall (Function "shove") (IdsList [0; 1]%Z) []] /\
  (gated_from [1%Z] (IdsList [0; 1]%Z) -> False).
Proof.
  vm_compute. repeat split.
  intros (l & E & Hlen & _). injection E as <-. simpl in Hlen. lia.
Qed.

Lemma apply_later_terms_start_from_rebound_env_ids_witness :
  (let respawn := Demo.reset_term "respawn" 5 in
   let recolor := Demo.reset_term "recolor" 0 in
   let regate := Demo.reset_term "regate" 3 in
   let st := mkLoop (T:=Q) [] [[5; 5; 0; 0]; [5; 5; 5; 5]; [0; 0; 0; 0]]%Z 0 IdsNone [] in
   let st1 := mkLoop (T:=Q) [] [[5; 5; 8; 8]; [5; 5; 5; 5]; [0; 0; 0; 0]]%Z 0
                (IdsList [2; 3]%Z) [mkCall (Function "respawn") (IdsList [2; 3]%Z) []] in
   apply_terms Demo.rand_zero (ModeReset 8) [(0, respawn); (1, recolor); (2, regate)] st
   = apply_terms Demo.rand_zero (ModeReset 8) [(1, recolor); (2, regate)] st1 /\
   exists later,
     ls_calls (fst (apply_terms Demo.rand_zero (ModeReset 8) [(1, recolor); (2, regate)] st1))
     = ls_calls st1 ++ later /\
     Forall (fun c => gated_from [2; 3]%Z (call_env_ids c)) later) /\
  (let push := Demo.interval_term "push" (1#2) (3#2) false in
   let blink := Demo.interval_term "blink" 1 1 true in
   let shove := Demo.interval_term "shove" (1#2) (3#2) false in
   let st := mkLoop [[1; 1#2]; [1#2]; [1#2; 1]]%Q [] 0 (IdsList [0; 1]%Z) [] in
   let st1 := mkLoop [[1#2; 1#2]; [1#2]; [1#2; 1]]%Q [] 1 (IdsList [1%Z])
                [mkCall (Function "push") (IdsList [1%Z]) []] in
   exists st2 raised later,
     apply_terms Demo.rand_zero (ModeInterval (1#2)%Q) [(1, blink)] st1 = (st2, raised) /\
     ls_env_ids st2 = IdsList [1%Z] /\
     ls_calls st2 = ls_calls st1 ++ later /\
     Forall (fun c => call_env_ids c = IdsList [1%Z]) later /\
     apply_terms Demo.rand_zero (ModeInterval (1#2)%Q)
       ((0, push) :: [(1, blink)] ++ [(2, shove)]) st
     = match raised with
       | None => apply_terms Demo.rand_zero (ModeInterval (1#2)%Q) [(2, shove)] st2
       | Some _ => (st2, raised)
       end /\
     forall j tcj rest' tl e,
       [(2, shove)] = (j, tcj) :: rest' ->
       EventTermCfg.is_global_time tcj = false ->
       ls_interval st2 !! j = Some tl ->
       apply_terms Demo.rand_zero (ModeInterval (1#2)%Q) [(2, shove)] (with_env_ids st2 e)
       = apply_terms Demo.rand_zero (ModeInterval (1#2)%Q) [(2, shove)] st2).
Proof.
  split.
  - intros respawn recolor regate st st1.
    refine (proj1 (apply_later_terms_start_from_rebound_env_ids Demo.rand_zero) 8%Z 0 respawn
              [(1, recolor); (2, regate)] st [5; 5; 0; 0]%Z [3; 3; 8; 8]%Z [5; 5; 8; 8]%Z
              _ eq_refl eq_refl eq_refl eq_refl eq_refl).
    discriminate.
  - intros push blink shove st st1.
    exact (proj2 (apply_later_terms_start_from_rebound_env_ids Demo.rand_zero) (1#2)%Q 0 push
             [(1, blink)] [(2, shove)] st [1; 1#2]%Q (1#2)%Q (3#2)%Q
             eq_refl eq_refl eq_refl eq_refl).
Defined.

(** The calls of that witness in full: the gated reset term fires for the
    environments 2 and 3, the ungated term after it is invoked for 2 and 3,
    and the gated term after that selects from the two entries of the subset
    and is invoked with the positions 0 and 1 within it.  In interval mode
    the per-environment term fires for environment 1, the global term after
    it is invoked for 1, and the per-environment term after that for 0. *)
Example apply_later_terms_calls :
  map call_env_ids
    (ls_calls (fst (apply_terms Demo.rand_zero (ModeReset 8)
                      [(0, Demo.reset_term "respawn" 5); (1, Demo.reset_term "recolor" 0);
                       (2, Demo.reset_term "regate" 3)]
                      (mkLoop (T:=Q) [] [[5; 5; 0; 0]; [5; 5; 5; 5]; [0; 0; 0; 0]]%Z 0
                         IdsNone []))))
  = [IdsList [2; 3]%Z; IdsList [2; 3]%Z; IdsList [0; 1]%Z] /\
  map call_env_ids
    (ls_calls (fst (apply_terms Demo.rand_zero (ModeInterval (1#2)%Q)
                      [(0, Demo.interval_term "push" (1#2) (3#2) false);
                       (1, Demo.interval_term "blink" 1 1 true);
                       (2, Demo.interval_term "shove" (1#2) (3#2) false)]
                      (mkLoop [[1; 1#2]; [1#2]; [1#2; 1]]%Q [] 0 (IdsList [0; 1]%Z) []))))
  = [IdsList [1%Z]; IdsList [1%Z]; IdsList [0%Z]].
Proof. vm_compute. split; reflexivity. Qed.

(** ** Fixed intervals in a manager with any other terms *)

Lemma enumerate_from_app {A} i (l1 l2 : list A) :
  enumerate_from i (l1 ++ l2) = enumerate_from i l1 ++ enumerate_from (i + length l1) l2.
Proof.
  revert i. induction l1 as [|x l1 IH]; intros i; simpl.
  - rewrite Nat.add_0_r. reflexivity.
  - rewrite IH. replace (i + S (length l1)) with (S i + length l1) by lia. reflexivity.
Qed.

Lemma enumerate_split {A} (l : list A) i x :
  l !! i = Some x ->
  enumerate l = enumerate (take i l) ++ (i, x) :: enumerate_from (S i) (drop (S i) l).
Proof.
  intros Hi. unfold enumerate.
  rewrite <- (take_drop_middle l i x Hi) at 1.
  rewrite enumerate_from_app. cbn [enumerate_from].
  rewrite length_take_le by (apply lookup_lt_Some in Hi; lia). reflexivity.
Qed.

Section RepeatedCalls.

Context {T : Type} `{Scalar T}.
Variable rand : nat -> T.

Lemma before_call_S k (m : EventManager T) cursor mode env_ids dt g :
  before_call rand (S k) m cursor mode env_ids dt g
  = let r := apply rand m cursor mode env_ids dt g in
    before_call rand k (ap_manager r) (ap_cursor r) mode env_ids dt g.
Proof.
  unfold before_call. cbn [repeat_apply]. cbn zeta.
  rewrite last_cons.
  destruct (last (repeat_apply rand k _ _ mode env_ids dt g)); reflexivity.
Qed.

Lemma repeat_apply_lookup n k (m : EventManager T) cursor mode env_ids dt g :
  k < n ->
  repeat_apply rand n m cursor mode env_ids dt g !! k
  = Some (apply rand (fst (before_call rand k m cursor mode env_ids dt g))
            (snd (before_call rand k m cursor mode env_ids dt g)) mode env_ids dt g).
Proof.
  revert k m cursor. induction n as [|n IH]; intros k m cursor Hk; [lia|].
  destruct k as [|k].
  - reflexivity.
  - rewrite before_call_S. cbn [repeat_apply]. cbn zeta.
    apply (IH k). lia.
Qed.

End RepeatedCalls.

Section FixedIntervalAmongTerms.

Context {T : Type} `{Scalar T}.
Variable num_envs : nat.
Variable rand : nat -> T.

Local Abbreviation run_terms := (apply_terms rand).

Lemma interval_gate_other_index index (tc : EventTermCfg.t T) dt st j :
  j <> index ->
  ls_interval (gate_state (interval_gate rand index tc dt st)) !! j = ls_interval st !! j.
Proof.
  intros Hj. unfold interval_gate.
  repeat case_match; cbn; rewrite ?list_lookup_insert_ne by congruence; reflexivity.
Qed.

Lemma interval_terms_other_index dt tcs i st j :
  j < i \/ i + length tcs <= j ->
  ls_interval (fst (run_terms (ModeInterval dt) (enumerate_from i tcs) st)) !! j
  = ls_interval st !! j.
Proof.
  revert i st. induction tcs as [|tc tcs IH]; intros i st Hj; [reflexivity|].
  cbn [length] in Hj.
  pose proof (interval_gate_other_index i tc dt st j ltac:(lia)) as Hg.
  cbn [enumerate_from apply_terms gate].
  destruct (interval_gate rand i tc dt st) as [st1|st1|e st1]; cbn [gate_state] in Hg.
  - rewrite IH by lia. exact Hg.
  - rewrite IH by lia. exact Hg.
  - exact Hg.
Qed.

Lemma apply_terms_calls_grow ctx terms st :
  exists later, ls_calls (fst (run_terms ctx terms st)) = ls_calls st ++ later.
Proof.
  revert st. induction terms as [|[index tc] terms IH]; intros st.
  - exists []. rewrite app_nil_r. reflexivity.
  - pose proof (gate_calls rand ctx index tc st) as Hc.
    cbn [apply_terms].
    destruct (gate rand ctx index tc st) as [st1|st1|e st1]; cbn [gate_state] in Hc.
    + destruct (IH (with_call st1 (mkCall (EventTermCfg.func tc) (ls_env_ids st1)
                                     (EventTermCfg.params tc)))) as [later Hl].
      eexists. rewrite Hl. cbn [with_call ls_calls]. rewrite Hc, <- app_assoc. reflexivity.
    + destruct (IH st1) as [later Hl]. exists later. congruence.
    + exists []. rewrite app_nil_r. exact Hc.
Qed.

(** One call of [apply] on a manager of the kind construction leaves, one
    of whose interval terms has a tensor holding [x] throughout and a range
    whose samples all come out as [v]. *)
Lemma apply_interval_uniform_term (m : EventManager T) index tc x lower upper v
    cursor env_ids dt g :
  fixed_interval_term num_envs m index tc x ->
  EventTermCfg.interval_range_s tc = Some (lower, upper) ->
  (forall u, scale_sample lower upper u = v) ->
  (EventTermCfg.is_global_time tc = true \/ 0 < num_envs) ->
  let r := apply rand m cursor "interval" env_ids (Some dt) g in
  let fires := t_le0 (t_sub x dt) in
  fixed_interval_term num_envs (ap_manager r) index tc (if fires then v else t_sub x dt) /\
  _mode_term_cfgs (ap_manager r) = _mode_term_cfgs m /\
  exists ids,
    interval_iteration rand m cursor env_ids dt g index
      (if fires then Some (mkCall (EventTermCfg.func tc) ids (EventTermCfg.params tc))
       else None) /\
    (EventTermCfg.is_global_time tc = false ->
     ids = IdsList (map Z.of_nat (seq 0 num_envs))) /\
    (forall tcs, dget (_mode_term_cfgs m) "interval" = Some tcs ->
                 EventTermCfg.is_global_time tc = true ->
                 forallb EventTermCfg.is_global_time (take index tcs) = true ->
                 ids = env_ids).
Proof.
  intros (Hwf & [Hbi Hbr] & Hm & (tcs & Htcs & Hi) & Hx) Hrange Hdeg Henvs r fires.
  set (n0 := if EventTermCfg.is_global_time tc then 1 else num_envs) in *.
  assert (Hn0 : 0 < n0).
  { unfold n0. destruct (EventTermCfg.is_global_time tc); [lia|].
    destruct Henvs as [?|?]; [discriminate | assumption]. }
  assert (Hn0g : EventTermCfg.is_global_time tc = true -> n0 = 1).
  { unfold n0. intros ->. reflexivity. }
  rewrite Htcs in Hbi. cbn [default] in Hbi.
  set (st := mkLoop (_interval_term_time_left m) (_reset_term_last_triggered_step_id m)
               cursor env_ids []).
  set (pre := take index tcs). set (post := drop (S index) tcs).
  assert (Hlt : index < length tcs) by (eapply lookup_lt_Some; eauto).
  assert (Hlpre : length pre = index) by (unfold pre; rewrite length_take_le; lia).
  (* the terms before *)
  destruct (interval_terms_ok num_envs rand dt pre 0 st) as [Hnone_a Hlen_a].
  { intros j tcj Hj. unfold pre in Hj. apply lookup_take_Some in Hj as [Hj _].
    apply (Forall2_lookup_l _ _ _ _ _ Hbi Hj). }
  pose proof (fun j => interval_terms_other_index dt pre 0 st j) as Hother_a.
  pose proof (apply_terms_calls_grow (ModeInterval dt) (enumerate_from 0 pre) st)
    as [calls_a Hcalls_a].
  destruct (run_terms (ModeInterval dt) (enumerate_from 0 pre) st) as [st_a raised_a]
    eqn:Hrun_a.
  cbn [fst snd] in Hnone_a, Hlen_a, Hother_a, Hcalls_a. subst raised_a.
  assert (Hx_a : ls_interval st_a !! index = Some (repeat x n0)).
  { rewrite Hother_a by (right; simpl; lia). exact Hx. }
  (* the term itself *)
  pose proof (interval_gate_uniform rand index tc dt st_a x n0 lower upper v
                Hx_a Hn0 Hn0g Hrange Hdeg) as Hgate.
  fold fires in Hgate.
  set (w := if fires then v else t_sub x dt).
  set (ids := if EventTermCfg.is_global_time tc then ls_env_ids st_a
              else IdsList (map Z.of_nat (seq 0 n0))).
  set (st_b := mkLoop (<[index := repeat w n0]> (ls_interval st_a)) (ls_reset st_a)
                 (if fires then ls_cursor st_a + n0 else ls_cursor st_a)
                 (if fires then ids
                  else if EventTermCfg.is_global_time tc then ls_env_ids st_a else IdsList [])
                 (ls_calls st_a)).
  assert (Hgate' : interval_gate rand index tc dt st_a
                   = if fires then Invoke st_b else Skip st_b).
  { rewrite Hgate. unfold st_b, w, ids. destruct fires; reflexivity. }
  clear Hgate.
  set (call := mkCall (EventTermCfg.func tc) ids (EventTermCfg.params tc)).
  set (st_b' := if fires then with_call st_b call else st_b).
  assert (Hint_b : ls_interval st_b' = <[index := repeat w n0]> (ls_interval st_a)).
  { unfold st_b'. destruct fires; reflexivity. }
  assert (Hcalls_b : ls_calls st_b' = ls_calls st_a ++ (if fires then [call] else [])).
  { unfold st_b'. destruct fires; cbn; [reflexivity | rewrite app_nil_r; reflexivity]. }
  (* the terms after *)
  destruct (interval_terms_ok num_envs rand dt post (S index) st_b') as [Hnone_c Hlen_c].
  { intros j tcj Hj. unfold post in Hj. rewrite lookup_drop in Hj.
    destruct (Forall2_lookup_l _ _ _ _ _ Hbi Hj) as (tl & Htl & Hshape).
    exists tl. split; [|exact Hshape].
    rewrite Hint_b, list_lookup_insert_ne by lia.
    rewrite Hother_a by (right; simpl; lia). exact Htl. }
  pose proof (fun j => interval_terms_other_index dt post (S index) st_b' j) as Hother_c.
  pose proof (apply_terms_calls_grow (ModeInterval dt) (enumerate_from (S index) post) st_b')
    as [later Hcalls_c].
  pose proof (apply_terms_frame rand (ModeInterval dt) (enumerate_from (S index) post) st_b')
    as (_ & _ & Hreset_c).
  destruct (run_terms (ModeInterval dt) (enumerate_from (S index) post) st_b')
    as [st_c raised_c] eqn:Hrun_c.
  cbn [fst snd] in Hnone_c, Hlen_c, Hother_c, Hcalls_c, Hreset_c. subst raised_c.
  (* the whole loop *)
  assert (Hrun : run_terms (ModeInterval dt) (enumerate tcs) st = (st_c, None)).
  { rewrite (enumerate_split tcs index tc Hi). fold pre. fold post. unfold enumerate.
    rewrite apply_terms_app, Hrun_a. cbn [apply_terms gate]. rewrite Hgate'.
    unfold st_b' in Hrun_c. destruct fires; exact Hrun_c. }
  assert (Hr : r = mkResult
                     (mkManager (_mode_term_names m) (_mode_term_cfgs m)
                        (_mode_class_term_cfgs m) (ls_interval st_c) (ls_reset st_c))
                     (ls_cursor st_c) (ls_calls st_c) [] None).
  { unfold r, apply. rewrite Hm. cbn [negb mode_ctx String.eqb Ascii.eqb Bool.eqb].
    rewrite Htcs. fold st. rewrite Hrun. reflexivity. }
  pose proof (apply_terms_frame rand (ModeInterval dt) (enumerate_from 0 pre) st)
    as (_ & _ & Hreset_a).
  rewrite Hrun_a in Hreset_a. cbn [fst] in Hreset_a.
  assert (Hreset : ls_reset st_c = _reset_term_last_triggered_step_id m).
  { rewrite Hreset_c. unfold st_b'. destruct fires; cbn; exact Hreset_a. }
  assert (Hlen : map length (ls_interval st_c) = map length (_interval_term_time_left m)).
  { rewrite Hlen_c, Hint_b.
    rewrite (map_length_insert _ _ _ _ Hx_a) by (rewrite !repeat_length; reflexivity).
    exact Hlen_a. }
  assert (Hx_c : ls_interval st_c !! index = Some (repeat w n0)).
  { rewrite Hother_c by (left; lia). rewrite Hint_b.
    apply list_lookup_insert_eq. eapply lookup_lt_Some; eauto. }
  split; [|split; [rewrite Hr; reflexivity|]].
  - rewrite Hr. cbn [ap_manager]. unfold fixed_interval_term.
    cbn [_mode_term_names _mode_term_cfgs _mode_class_term_cfgs _interval_term_time_left
         _reset_term_last_triggered_step_id].
    split; [exact Hwf|]. split; [|split; [exact Hm|split; [eauto | exact Hx_c]]].
    unfold buffers_ready.
    cbn [_mode_term_cfgs _interval_term_time_left _reset_term_last_triggered_step_id].
    rewrite Htcs, Hreset. cbn [default]. split; [|exact Hbr].
    apply (shapes_kept (fun tc n => EventTermCfg.interval_range_s tc <> None /\
                                    n = if EventTermCfg.is_global_time tc then 1 else num_envs)
             tcs (_interval_term_time_left m)); [exact Hbi | exact Hlen].
  - exists ids. split; [|split].
    + unfold interval_iteration.
      exists tcs, tc, st_a, st_b, st_c, later.
      split; [exact Htcs|]. split; [exact Hi|].
      split; [exact Hrun_a|].
      fold r. rewrite Hr. cbn [ap_raised ap_calls gate].
      rewrite Hgate'. rewrite Hcalls_c, Hcalls_b.
      unfold st_b' in Hrun_c.
      destruct fires; cbn [ls_env_ids st_b].
      * split; [reflexivity|]. split; [reflexivity|]. split; [exact Hrun_c|].
        rewrite <- app_assoc. auto.
      * split; [reflexivity|]. split; [exact I|]. split; [exact Hrun_c|].
        rewrite app_nil_r. auto.
    + intros Hg. unfold ids, n0. rewrite Hg. reflexivity.
    + intros tcs' Htcs' Hg Hpre. rewrite Htcs in Htcs'. injection Htcs' as <-.
      unfold ids. rewrite Hg.
      assert (Hkeep : forallb (fun it => negb (rebinds_env_ids (ModeInterval dt) (snd it)))
                        (enumerate_from 0 pre) = true).
      { fold pre in Hpre. clear -Hpre. generalize 0.
        induction pre as [|tcj l IH]; intros a; [reflexivity|].
        cbn [forallb] in Hpre. apply andb_true_iff in Hpre as [Hj Hl].
        cbn [enumerate_from forallb snd rebinds_env_ids].
        rewrite Hj. cbn [negb andb]. apply IH. exact Hl. }
      destruct (apply_terms_without_rebinding rand (ModeInterval dt) _ st Hkeep) as [He _].
      rewrite Hrun_a in He. exact He.
Qed.

End FixedIntervalAmongTerms.

Section FixedIntervalPrepared.

Context {T : Type} `{Scalar T}.
Variable num_envs : nat.
Variable rand : nat -> T.
Variable resolve : string -> EventTermCfg.t T -> Exn + (Callable * Params).

Local Abbreviation prep_loop := (prepare_loop num_envs rand resolve).
Local Abbreviation prepare := (_prepare_terms num_envs rand resolve).

(** The tensor of every interval term holds, after construction, the
    samples of its range for fresh draws. *)
Lemma prepare_loop_interval_samples items cursor st :
  prep_loop items (mkPrep empty_manager cursor []) = inr st ->
  Forall2 (fun (tc : EventTermCfg.t T) tl =>
             exists lower upper c,
               EventTermCfg.interval_range_s tc = Some (lower, upper) /\
               tl = map (scale_sample lower upper)
                      (draws rand c (if EventTermCfg.is_global_time tc then 1 else num_envs)))
    (map snd (mode_terms resolve "interval" items))
    (_interval_term_time_left (ps_manager st)).
Proof.
  revert st. induction items as [|[name e] pre IH] using rev_ind; intros st Hl.
  - injection Hl as <-. constructor.
  - apply prepare_loop_snoc in Hl as (st1 & Hpre & Ht).
    specialize (IH st1 Hpre).
    unfold mode_terms. rewrite !flat_map_app. cbn [flat_map]. rewrite !app_nil_r.
    fold (mode_terms resolve "interval" pre).
    destruct e as [|tc|ty]; [| |discriminate].
    { injection Ht as <-. cbn [resolved_entry snd]. rewrite !app_nil_r. exact IH. }
    apply prepare_term_full in Ht
      as (r & ln & lc & cls' & bi & br & c & Hr & _ & _ & _ & -> & Hmode).
    cbn zeta in Hmode. cbn [ps_manager _interval_term_time_left].
    unfold resolved_entry. cbn [fst snd]. rewrite Hr.
    destruct Hmode as [(Hm & lower & upper & Hrange & -> & _)
                      |[(Hm & _ & -> & _)|(Hi & _ & -> & _)]].
    + rewrite Hm. cbn [String.eqb Ascii.eqb Bool.eqb].
      rewrite map_app. apply Forall2_app; [exact IH|].
      constructor; [|constructor].
      exists lower, upper, (ps_cursor st1). split; [exact Hrange | reflexivity].
    + rewrite Hm. cbn [String.eqb Ascii.eqb Bool.eqb]. rewrite app_nil_r. exact IH.
    + apply String.eqb_neq in Hi. rewrite Hi. rewrite app_nil_r. exact IH.
Qed.

End FixedIntervalPrepared.

Section FixedIntervalRuns.

Variable num_envs : nat.
Variable rand : nat -> Q.
Variables (index : nat) (tc : EventTermCfg.t Q) (env_ids : EnvIds) (g : option Z).

Hypothesis envs : EventTermCfg.is_global_time tc = true \/ 0 < num_envs.

Local Abbreviation at_call k m cursor :=
  (before_call rand k m cursor "interval" env_ids (Some (1#2)%Q) g).

(** Range (0.5, 0.5), [dt = 0.5]: the tensor holds 0.5 before every call. *)
Lemma half_run_state k m cursor :
  EventTermCfg.interval_range_s tc = Some ((1#2)%Q, (1#2)%Q) ->
  fixed_interval_term num_envs m index tc (1#2)%Q ->
  fixed_interval_term num_envs (fst (at_call k m cursor)) index tc (1#2)%Q /\
  _mode_term_cfgs (fst (at_call k m cursor)) = _mode_term_cfgs m.
Proof.
  intros Hrange. revert m cursor. induction k as [|k IH]; intros m cursor Hm.
  - split; [exact Hm | reflexivity].
  - rewrite before_call_S. cbn zeta.
    destruct (apply_interval_uniform_term num_envs rand m index tc (1#2)%Q (1#2)%Q (1#2)%Q
                (1#2)%Q cursor env_ids (1#2)%Q g Hm Hrange
                (fun u => Q_scale_sample_degenerate (1#2) u eq_refl) envs)
      as (Hm' & Hcfgs & _).
    change (t_le0 (t_sub (1#2)%Q (1#2)%Q)) with true in Hm'. cbv iota in Hm'.
    destruct (IH _ (ap_cursor (apply rand m cursor "interval" env_ids (Some (1#2)%Q) g)) Hm')
      as [Hk Hc].
    split; [exact Hk | congruence].
Qed.

(** Range (1.0, 1.0), [dt = 0.5]: the tensor holds 1.0 and 0.5 in turn. *)
Lemma one_run_state k (phase : bool) m cursor :
  EventTermCfg.interval_range_s tc = Some (1%Q, 1%Q) ->
  fixed_interval_term num_envs m index tc (if phase then 1%Q else (1#2)%Q) ->
  fixed_interval_term num_envs (fst (at_call k m cursor)) index tc
    (if xorb phase (Nat.odd k) then 1%Q else (1#2)%Q) /\
  _mode_term_cfgs (fst (at_call k m cursor)) = _mode_term_cfgs m.
Proof.
  intros Hrange. revert phase m cursor. induction k as [|k IH]; intros phase m cursor Hm.
  - rewrite xorb_false_r. split; [exact Hm | reflexivity].
  - rewrite before_call_S. cbn zeta.
    destruct (apply_interval_uniform_term num_envs rand m index tc
                (if phase then 1%Q else (1#2)%Q) 1%Q 1%Q 1%Q cursor env_ids (1#2)%Q g Hm Hrange
                (fun u => Q_scale_sample_degenerate 1 u eq_refl) envs)
      as (Hm' & Hcfgs & _).
    assert (Hnext : fixed_interval_term num_envs
                      (ap_manager (apply rand m cursor "interval" env_ids (Some (1#2)%Q) g))
                      index tc (if negb phase then 1%Q else (1#2)%Q)).
    { destruct phase; exact Hm'. }
    destruct (IH (negb phase) _
                (ap_cursor (apply rand m cursor "interval" env_ids (Some (1#2)%Q) g)) Hnext)
      as [Hk Hc].
    rewrite Nat.odd_succ, <- Nat.negb_odd.
    replace (xorb phase (negb (Nat.odd k))) with (xorb (negb phase) (Nat.odd k))
      by (destruct phase, (Nat.odd k); reflexivity).
    split; [exact Hk | congruence].
Qed.

End FixedIntervalRuns.

(** C3.  A manager built from any configuration that contains the interval
    term, among whatever other terms, over rational time values; [index] is
    where the term is stored among the interval terms.  With the range
    (0.5, 0.5) the initial sample is 0.5 in every entry, and in each of any
    number of calls [apply("interval", dt=0.5)] the loop reaches the term and
    invokes its callable, and raises nothing.  With the range (1.0, 1.0) the
    initial sample is 1.0, and the term is invoked on exactly every second
    call: on the first call its iteration ends in [continue], on the second
    in the call, and so on.  A per-environment term (at least one
    environment) is passed all environment indices; a global term with only
    global terms before it is passed the [env_ids] of the caller. *)
Theorem interval_fixed_range_fires_periodically
    (num_envs : nat) (rand : nat -> Q)
    (resolve : string -> EventTermCfg.t Q -> Exn + (Callable * Params))
    (cfg : ManagerCfg Q) (cursor : nat) (st0 : PrepState) (name : string)
    (tc : EventTermCfg.t Q) (env_ids : EnvIds) (g : option Z) :
  _prepare_terms num_envs rand resolve cfg cursor = inr st0 ->
  In (name, EntryTerm tc) (cfg_items cfg) ->
  EventTermCfg.mode tc = "interval" ->
  (EventTermCfg.is_global_time tc = true \/ 0 < num_envs) ->
  let m0 := ps_manager st0 in
  let n0 := if EventTermCfg.is_global_time tc then 1 else num_envs in
  let run n := repeat_apply rand n m0 (ps_cursor st0) "interval" env_ids (Some (1#2)%Q) g in
  let at_call k :=
    before_call rand k m0 (ps_cursor st0) "interval" env_ids (Some (1#2)%Q) g in
  exists r index names tcs,
    resolve name tc = inr r /\
    dget (_mode_term_names m0) "interval" = Some names /\
    names !! index = Some name /\
    dget (_mode_term_cfgs m0) "interval" = Some tcs /\
    tcs !! index = Some (resolved_cfg tc r) /\
    let result k :=
      apply rand (fst (at_call k)) (snd (at_call k)) "interval" env_ids (Some (1#2)%Q) g in
    let invoked k :=
      exists ids,
        interval_iteration rand (fst (at_call k)) (snd (at_call k)) env_ids (1#2)%Q g index
          (Some (mkCall (fst r) ids (snd r))) /\
        (EventTermCfg.is_global_time tc = false ->
         ids = IdsList (map Z.of_nat (seq 0 num_envs))) /\
        (EventTermCfg.is_global_time tc = true ->
         forallb EventTermCfg.is_global_time (take index tcs) = true ->
         ids = env_ids) in
    let skipped k :=
      interval_iteration rand (fst (at_call k)) (snd (at_call k)) env_ids (1#2)%Q g index
        None in
    (EventTermCfg.interval_range_s tc = Some ((1#2)%Q, (1#2)%Q) ->
     _interval_term_time_left m0 !! index = Some (repeat (1#2)%Q n0) /\
     forall n k, k < n -> run n !! k = Some (result k) /\ invoked k) /\
    (EventTermCfg.interval_range_s tc = Some (1%Q, 1%Q) ->
     _interval_term_time_left m0 !! index = Some (repeat 1%Q n0) /\
     forall n k, k < n ->
       run n !! k = Some (result k) /\ if Nat.odd k then invoked k else skipped k).
Proof.
  intros Hp Hin Hmode Henvs m0 n0 run at_call.
  assert (Hmade : forall n k, k < n ->
            run n !! k
            = Some (apply rand (fst (at_call k)) (snd (at_call k)) "interval" env_ids
                      (Some (1#2)%Q) g)).
  { intros n k Hk. apply (repeat_apply_lookup rand n k). exact Hk. }
  destruct (prepare_loop_resolves num_envs rand resolve _ _ _ _ _ Hp Hin) as [r Hr].
  assert (Hpos : exists index names tcs,
            dget (_mode_term_names m0) "interval" = Some names /\
            names !! index = Some name /\
            dget (_mode_term_cfgs m0) "interval" = Some tcs /\
            tcs !! index = Some (resolved_cfg tc r)).
  { assert (Hterm : In (name, resolved_cfg tc r)
                      (mode_terms resolve "interval" (cfg_items cfg))).
    { apply In_mode_terms. eauto 10. }
    apply list_elem_of_In, list_elem_of_lookup in Hterm as [index Hindex].
    destruct (prepare_loop_groups num_envs rand resolve _ _ _ Hp "interval")
      as (Hnames & Hcfgs & _).
    cbn zeta in Hnames, Hcfgs.
    destruct (mode_terms resolve "interval" (cfg_items cfg)) as [|t ts] eqn:Hts;
      [discriminate|].
    exists index, (map fst (t :: ts)), (map snd (t :: ts)).
    split; [exact Hnames|]. split; [rewrite lookup_map, Hindex; reflexivity|].
    split; [exact Hcfgs|]. rewrite lookup_map, Hindex. reflexivity. }
  destruct Hpos as (index & names & tcs & Hnames & Hname & Htcs & Hi).
  exists r, index, names, tcs.
  split; [exact Hr|]. split; [exact Hnames|]. split; [exact Hname|].
  split; [exact Htcs|]. split; [exact Hi|]. cbn zeta.
  assert (Hfixed : forall lower upper v,
            EventTermCfg.interval_range_s tc = Some (lower, upper) ->
            (forall u, scale_sample lower upper u = v) ->
            fixed_interval_term num_envs m0 index (resolved_cfg tc r) v).
  { intros lower upper v Hrange Hdeg.
    split; [exact (prepare_terms_wf num_envs rand resolve _ _ _ Hp)|].
    split; [exact (proj1 (prepare_buffers_ready num_envs rand resolve _ _ _ Hp))|].
    split; [unfold dmem; fold m0; rewrite Hnames; reflexivity|].
    split; [eauto|].
    pose proof (prepare_loop_interval_samples num_envs rand resolve _ _ _ Hp) as Hsamples.
    destruct (prepare_loop_groups num_envs rand resolve _ _ _ Hp "interval")
      as (_ & Hcfgs & _).
    cbn zeta in Hcfgs. fold m0 in Hcfgs. rewrite Htcs in Hcfgs.
    destruct (mode_terms resolve "interval" (cfg_items cfg)) as [|t ts] eqn:Hts;
      [discriminate|].
    injection Hcfgs as Hcfgs. cbn [map] in Hsamples. rewrite <- Hcfgs in Hsamples.
    destruct (Forall2_lookup_l _ _ _ _ _ Hsamples Hi)
      as (tl & Htl & lower' & upper' & c & Hrange' & ->).
    change (EventTermCfg.interval_range_s (resolved_cfg tc r))
      with (EventTermCfg.interval_range_s tc) in Hrange'.
    rewrite Hrange in Hrange'. injection Hrange' as <- <-.
    unfold m0. rewrite Htl, (map_const_repeat _ v _ Hdeg), length_draws. reflexivity. }
  assert (Henvs' : EventTermCfg.is_global_time (resolved_cfg tc r) = true \/ 0 < num_envs)
    by exact Henvs.
  split; intros Hrange.
  - pose proof (Hfixed _ _ (1#2)%Q Hrange
                  (fun u => Q_scale_sample_degenerate (1#2) u eq_refl)) as Hfix.
    split; [apply Hfix|].
    intros n k Hk. split; [apply Hmade; exact Hk|].
    destruct (half_run_state num_envs rand index (resolved_cfg tc r) env_ids g Henvs'
                k m0 (ps_cursor st0) Hrange Hfix) as [Hstate Hcfgs].
    fold (at_call k) in Hstate, Hcfgs.
    destruct (apply_interval_uniform_term num_envs rand (fst (at_call k)) index
                (resolved_cfg tc r) (1#2)%Q (1#2)%Q (1#2)%Q (1#2)%Q (snd (at_call k)) env_ids
                (1#2)%Q g Hstate Hrange
                (fun u => Q_scale_sample_degenerate (1#2) u eq_refl) Henvs')
      as (_ & _ & ids & Hiter & Hper & Hglob).
    exists ids. split; [exact Hiter|]. split; [exact Hper|].
    intros Hg Hpre. apply (Hglob tcs); [rewrite Hcfgs; exact Htcs | exact Hg | exact Hpre].
  - pose proof (Hfixed _ _ 1%Q Hrange
                  (fun u => Q_scale_sample_degenerate 1 u eq_refl)) as Hfix.
    split; [apply Hfix|].
    intros n k Hk. split; [apply Hmade; exact Hk|].
    destruct (one_run_state num_envs rand index (resolved_cfg tc r) env_ids g Henvs'
                k true m0 (ps_cursor st0) Hrange Hfix) as [Hstate Hcfgs].
    fold (at_call k) in Hstate, Hcfgs.
    destruct (apply_interval_uniform_term num_envs rand (fst (at_call k)) index
                (resolved_cfg tc r) _ 1%Q 1%Q 1%Q (snd (at_call k)) env_ids
                (1#2)%Q g Hstate Hrange
                (fun u => Q_scale_sample_degenerate 1 u eq_refl) Henvs')
      as (_ & _ & ids & Hiter & Hper & Hglob).
    cbn zeta in Hiter. cbn [xorb] in Hiter.
    destruct (Nat.odd k); cbn [negb] in Hiter.
    + exists ids. split; [exact Hiter|]. split; [exact Hper|].
      intros Hg Hpre. apply (Hglob tcs); [rewrite Hcfgs; exact Htcs | exact Hg | exact Hpre].
    + exact Hiter.
Qed.

Lemma fixed_cfg_prepared :
  _prepare_terms 2 Demo.rand_half_then_zero Demo.resolve_ok Demo.fixed_cfg 0
  = inr (Demo.prepared 2 Demo.rand_half_then_zero Demo.resolve_ok Demo.fixed_cfg).
Proof. vm_compute. reflexivity. Qed.

Lemma interval_fixed_range_fires_periodically_witness :
  let st0 := Demo.prepared 2 Demo.rand_half_then_zero Demo.resolve_ok Demo.fixed_cfg in
  let run n := repeat_apply Demo.rand_half_then_zero n (ps_manager st0) (ps_cursor st0)
                 "interval" (IdsList [0%Z]) (Some (1#2)%Q) None in
  (forall n k, k < n ->
     exists res,
       run n !! k = Some res /\
       ap_raised res = None /\
       In (mkCall (Function "push") (IdsList [0; 1]%Z) []) (ap_calls res)) /\
  (forall n k, k < n -> Nat.odd k = true ->
     exists res ids,
       run n !! k = Some res /\
       ap_raised res = None /\
       In (mkCall (Function "blink") ids []) (ap_calls res)).
Proof.
  intros st0 run. split.
  - destruct (interval_fixed_range_fires_periodically 2 Demo.rand_half_then_zero
                Demo.resolve_ok Demo.fixed_cfg 0 st0 "push"
                (Demo.interval_term "push" (1#2) (1#2) false) (IdsList [0%Z]) None
                fixed_cfg_prepared
                (or_intror (or_introl eq_refl)) eq_refl (or_intror (Nat.lt_0_succ 1)))
      as (r & index & names & tcs & Hr & _ & _ & _ & _ & Hhalf & _).
    injection Hr as <-.
    destruct (Hhalf eq_refl) as [_ Hcalls].
    intros n k Hk.
    destruct (Hcalls n k Hk) as [Hres (ids & Hiter & Hids & _)].
    rewrite (Hids eq_refl) in Hiter.
    destruct Hiter as (tcs' & tc' & st_a & st_b & st_c & later & _ & _ & _ & _ & _ & _
                       & Hc & Hraised & Hcalls').
    exists (apply Demo.rand_half_then_zero
              (fst (before_call Demo.rand_half_then_zero k (ps_manager st0) (ps_cursor st0)
                      "interval" (IdsList [0%Z]) (Some (1#2)%Q) None))
              (snd (before_call Demo.rand_half_then_zero k (ps_manager st0) (ps_cursor st0)
                      "interval" (IdsList [0%Z]) (Some (1#2)%Q) None))
              "interval" (IdsList [0%Z]) (Some (1#2)%Q) None).
    split; [exact Hres|]. split; [exact Hraised|].
    rewrite Hcalls', Hc. apply in_or_app. right. left. reflexivity.
  - destruct (interval_fixed_range_fires_periodically 2 Demo.rand_half_then_zero
                Demo.resolve_ok Demo.fixed_cfg 0 st0 "blink"
                (Demo.interval_term "blink" 1 1 true) (IdsList [0%Z]) None
                fixed_cfg_prepared
                (or_intror (or_intror (or_intror (or_introl eq_refl)))) eq_refl
                (or_introl eq_refl))
      as (r & index & names & tcs & Hr & _ & _ & _ & _ & _ & Hone).
    injection Hr as <-.
    destruct (Hone eq_refl) as [_ Hcalls].
    intros n k Hk Hodd.
    destruct (Hcalls n k Hk) as [Hres Hinv].
    rewrite Hodd in Hinv. destruct Hinv as (ids & Hiter & _).
    destruct Hiter as (tcs' & tc' & st_a & st_b & st_c & later & _ & _ & _ & _ & _ & _
                       & Hc & Hraised & Hcalls').
    eexists _, ids.
    split; [exact Hres|]. split; [exact Hraised|].
    rewrite Hcalls', Hc. apply in_or_app. right. left. reflexivity.
Defined.

(** The first four calls on that manager: the per-environment term "push"
    of range (0.5, 0.5) is invoked in every call, after "shove" has been
    invoked, and for all environments although the caller passes the index 0;
    the global term "blink" of range (1.0, 1.0) is invoked in the second and
    in the fourth call. *)
Example fixed_cfg_first_calls :
  let st0 := Demo.prepared 2 Demo.rand_half_then_zero Demo.resolve_ok Demo.fixed_cfg in
  map (fun r => (ap_raised r, map (fun c => (call_func c, call_env_ids c)) (ap_calls r)))
    (repeat_apply Demo.rand_half_then_zero 4 (ps_manager st0) (ps_cursor st0) "interval"
       (IdsList [0%Z]) (Some (1#2)%Q) None)
  = [(None, [(Function "shove", IdsList [1%Z]); (Function "push", IdsList [0; 1]%Z)]);
     (None, [(Function "shove", IdsList [0; 1]%Z); (Function "push", IdsList [0; 1]%Z);
             (Function "blink", IdsList [0; 1]%Z)]);
     (None, [(Function "shove", IdsList [0; 1]%Z); (Function "push", IdsList [0; 1]%Z)]);
     (None, [(Function "shove", IdsList [0; 1]%Z); (Function "push", IdsList [0; 1]%Z);
             (Function "blink", IdsList [0; 1]%Z)])].
Proof. vm_compute. reflexivity. Qed.

(** ** Class terms and [reset] *)

Section DictMap.

Context {V W : Type} (f : V -> W).
Implicit Types (d : dict V) (k : string).

Lemma dget_map_values d k :
  dget (map (fun kv => (fst kv, f (snd kv))) d) k = option_map f (dget d k).
Proof.
  induction d as [|[k0 v0] d IH]; simpl; [reflexivity|].
  destruct (String.eqb k k0); [reflexivity | exact IH].
Qed.

Lemma dset_map_values d k v :
  dset (map (fun kv => (fst kv, f (snd kv))) d) k (f v)
  = map (fun kv => (fst kv, f (snd kv))) (dset d k v).
Proof.
  induction d as [|[k0 v0] d IH]; simpl; [reflexivity|].
  destruct (String.eqb k k0); simpl; [reflexivity | rewrite IH; reflexivity].
Qed.

End DictMap.

Lemma dset_same {V} (d : dict V) k v : dget d k = Some v -> dset d k v = d.
Proof.
  induction d as [|[k0 v0] d IH]; simpl; [discriminate|].
  destruct (String.eqb k k0) eqn:E.
  - intros [= ->]. reflexivity.
  - intros Hd. rewrite IH by exact Hd. reflexivity.
Qed.

Section ClassTerms.

Context {T : Type} `{Scalar T}.
Variable num_envs : nat.
Variable rand : nat -> T.
Variable resolve : string -> EventTermCfg.t T -> Exn + (Callable * Params).

Local Abbreviation prepare := (_prepare_terms num_envs rand resolve).
Local Abbreviation class_view :=
  (map (fun kv : string * list (EventTermCfg.t T) =>
          (fst kv, List.filter is_class_term (snd kv)))).

Lemma prepare_class_terms cfg cursor st :
  prepare cfg cursor = inr st ->
  _mode_class_term_cfgs (ps_manager st) = class_view (_mode_term_cfgs (ps_manager st)).
Proof.
  unfold _prepare_terms. intros Hp.
  apply (prepare_loop_invariant num_envs rand resolve
           (fun st => _mode_class_term_cfgs (ps_manager st)
                      = class_view (_mode_term_cfgs (ps_manager st))))
    with (3 := Hp); [|reflexivity].
  intros st0 name e st1 _ IH Ht.
  destruct e as [|tc|ty]; [injection Ht as <-; exact IH| |discriminate].
  apply prepare_term_full in Ht
    as (r & ln & lc & cls' & bi & br & c & Hr & _ & Hlc & Hcls & -> & _).
  cbn zeta in *. cbn [ps_manager _mode_class_term_cfgs _mode_term_cfgs].
  set (mt := EventTermCfg.mode tc) in *.
  set (m := ps_manager st0) in *.
  set (cfgs0 := if negb (dmem (_mode_term_names m) mt)
                then dset (_mode_term_cfgs m) mt [] else _mode_term_cfgs m) in *.
  assert (Hcls0 : (if negb (dmem (_mode_term_names m) mt)
                   then dset (_mode_class_term_cfgs m) mt []
                   else _mode_class_term_cfgs m) = class_view cfgs0).
  { unfold cfgs0. rewrite IH. destruct (negb _); [|reflexivity].
    rewrite <- (dset_map_values (List.filter is_class_term)). reflexivity. }
  rewrite Hcls0 in Hcls. clear Hcls0.
  rewrite <- (dset_map_values (List.filter is_class_term)), filter_snoc.
  change (is_class_term (resolved_cfg tc r)) with (is_manager_term (fst r)).
  destruct (is_manager_term (fst r)).
  - destruct Hcls as (lk & Hlk & ->).
    rewrite (dget_map_values (List.filter is_class_term)), Hlc in Hlk.
    injection Hlk as <-. reflexivity.
  - subst cls'. rewrite app_nil_r. symmetry. apply dset_same.
    rewrite (dget_map_values (List.filter is_class_term)), Hlc. reflexivity.
Qed.

(** X15.  After construction, [reset] calls the [reset] of exactly the
    stored descriptors whose callable is a term instance, mode by mode and in
    declaration order within a mode, each with the [env_ids] it was given; a
    descriptor with a plain function is never reset; the returned dictionary
    is empty. *)
Theorem reset_calls_class_terms cfg cursor st env_ids :
  prepare cfg cursor = inr st ->
  reset (ps_manager st) env_ids
  = (flat_map (fun kv => map (fun tc => mkResetCall (EventTermCfg.func tc) env_ids)
                           (List.filter is_class_term (snd kv)))
       (_mode_term_cfgs (ps_manager st)),
     []).
Proof.
  intros Hp. unfold reset. rewrite (prepare_class_terms _ _ _ Hp).
  f_equal. induction (_mode_term_cfgs (ps_manager st)) as [|kv d IH]; [reflexivity|].
  cbn [map flat_map snd]. rewrite IH. reflexivity.
Qed.

End ClassTerms.

Section SetTermCfgFrame.

Context {T : Type}.
Implicit Types (m : EventManager T) (cfg : EventTermCfg.t T).

(** X16.  [set_term_cfg] replaces one stored descriptor and nothing else:
    the names, the class terms that [reset] calls, and the interval and reset
    tensors stay as they were, and [get_term_cfg] of every other name returns
    what it returned before. *)
Theorem set_term_cfg_changes_one_descriptor m term_name cfg m' :
  manager_wf m ->
  set_term_cfg m term_name cfg = inr m' ->
  _mode_term_names m' = _mode_term_names m /\
  _mode_class_term_cfgs m' = _mode_class_term_cfgs m /\
  _interval_term_time_left m' = _interval_term_time_left m /\
  _reset_term_last_triggered_step_id m' = _reset_term_last_triggered_step_id m /\
  (forall env_ids, reset m' env_ids = reset m env_ids) /\
  (forall other, other <> term_name -> get_term_cfg m' other = get_term_cfg m other).
Proof.
  intros (Hnd & _ & _). unfold set_term_cfg.
  destruct (find_term (_mode_term_names m) term_name) as [[mode i]|] eqn:Hf; [|discriminate].
  destruct (dget (_mode_term_cfgs m) mode) as [l|] eqn:Hl; [|discriminate].
  destruct (i <? length l); [|discriminate].
  intros [= <-]. cbn [_mode_term_names _mode_class_term_cfgs _interval_term_time_left
                      _reset_term_last_triggered_step_id].
  repeat (split; [reflexivity|]).
  intros other Hne. unfold get_term_cfg. cbn [_mode_term_names _mode_term_cfgs].
  destruct (find_term (_mode_term_names m) other) as [[mode2 i2]|] eqn:Hf2; [|reflexivity].
  rewrite dget_dset. destruct (String.eqb mode2 mode) eqn:E; [|reflexivity].
  apply String.eqb_eq in E. subst mode2. rewrite Hl.
  assert (Hi : i <> i2).
  { intros <-.
    destruct (find_term_Some _ _ _ _ Hf) as (terms1 & Hin1 & Hi1).
    destruct (find_term_Some _ _ _ _ Hf2) as (terms2 & Hin2 & Hi2).
    apply (In_dget _ _ _ Hnd) in Hin1. apply (In_dget _ _ _ Hnd) in Hin2.
    rewrite Hin1 in Hin2. injection Hin2 as <-.
    apply list_index_lookup in Hi1. apply list_index_lookup in Hi2. congruence. }
  rewrite list_lookup_insert_ne by exact Hi. reflexivity.
Qed.

End SetTermCfgFrame.

(** ** The properties on a concrete configuration *)

Lemma sample_prepared :
  _prepare_terms 3 Demo.rand_half_then_zero Demo.resolve_paths Demo.sample_cfg 0
  = inr Demo.sample_state.
Proof. vm_compute. reflexivity. Qed.

Lemma sample_wf : manager_wf (ps_manager Demo.sample_state).
Proof. exact (prepare_terms_wf _ _ _ _ _ _ sample_prepared). Qed.

Lemma sample_ready : buffers_ready 3 (ps_manager Demo.sample_state).
Proof. exact (proj1 (prepare_buffers_ready _ _ _ _ _ _ sample_prepared)). Qed.

Lemma sample_names_NoDup : NoDup (map fst (cfg_items Demo.sample_cfg)).
Proof.
  cbn. repeat (apply NoDup_cons_2; [rewrite !list_elem_of_In; simpl; intuition discriminate|]).
  apply NoDup_nil_2.
Qed.

Lemma prepare_groups_terms_by_mode_witness :
  let m := ps_manager Demo.sample_state in
  dget (active_terms m) "reset" = Some ["respawn"; "recolor"] /\
  dget (_mode_term_cfgs m) "reset"
  = Some [EventTermCfg.mk (TermInstance "Respawn") [] "reset" None false 5%Z;
          Demo.reset_term "recolor" 0] /\
  dget (_mode_class_term_cfgs m) "reset"
  = Some [EventTermCfg.mk (TermInstance "Respawn") [] "reset" None false 5%Z].
Proof.
  exact (prepare_groups_terms_by_mode 3 Demo.rand_half_then_zero Demo.resolve_paths
           Demo.sample_cfg 0 Demo.sample_state "reset" sample_prepared).
Defined.

Lemma available_modes_are_configured_modes_witness :
  NoDup (available_modes (ps_manager Demo.sample_state)) /\
  forall mode,
    In mode (available_modes (ps_manager Demo.sample_state)) <->
    exists name tc, In (name, EntryTerm tc) (cfg_items Demo.sample_cfg) /\
                    EventTermCfg.mode tc = mode.
Proof.
  exact (available_modes_are_configured_modes 3 Demo.rand_half_then_zero Demo.resolve_paths
           Demo.sample_cfg 0 Demo.sample_state sample_prepared).
Defined.

Lemma get_term_cfg_after_prepare_witness :
  let tc := EventTermCfg.mk (TermClass "Respawn") [] "reset" None false 5%Z in
  exists r,
    Demo.resolve_paths "respawn" tc = inr r /\
    get_term_cfg (ps_manager Demo.sample_state) "respawn" = inr (resolved_cfg tc r).
Proof.
  intros tc.
  apply (get_term_cfg_after_prepare 3 Demo.rand_half_then_zero Demo.resolve_paths
           Demo.sample_cfg 0 Demo.sample_state "respawn" tc sample_prepared
           sample_names_NoDup).
  simpl. auto.
Defined.

Lemma prepare_rejects_non_descriptor_witness :
  _prepare_terms 3 Demo.rand_zero Demo.resolve_paths
    (CfgDict [("init", EntryTerm (Demo.startup_term "init")); ("gain", EntryOther "float")]) 0
  = inl (TypeError (msg_not_event_term_cfg "gain" "float")).
Proof.
  refine (proj2 (prepare_rejects_non_descriptor 3 Demo.rand_zero Demo.resolve_paths
                   (CfgDict [("init", EntryTerm (Demo.startup_term "init"));
                             ("gain", EntryOther "float")]) 0 "gain" "float" _)
            [("init", EntryTerm (Demo.startup_term "init"))] []
            (Demo.prepared 3 Demo.rand_zero Demo.resolve_paths
               (CfgDict [("init", EntryTerm (Demo.startup_term "init"))])) _ _).
  - simpl. auto.
  - reflexivity.
  - vm_compute. reflexivity.
Defined.

Lemma prepare_propagates_resolution_error_witness :
  let tc : EventTermCfg.t Q :=
    EventTermCfg.mk (FuncPath "mdp:push_robot") [] "interval"
      (Some ((1 # 2)%Q, (1 # 2)%Q)) false 0%Z in
  _prepare_terms 3 Demo.rand_zero Demo.resolve_paths (CfgDict [("push", EntryTerm tc)]) 0
  = inl (ValueError "cannot resolve mdp:push_robot").
Proof.
  intros tc.
  refine (proj2 (prepare_propagates_resolution_error 3 Demo.rand_zero Demo.resolve_paths
                   (CfgDict [("push", EntryTerm tc)]) 0 "push" tc
                   (ValueError "cannot resolve mdp:push_robot") _ _)
            [] [] (mkPrep empty_manager 0 []) _ _).
  - simpl. auto.
  - reflexivity.
  - reflexivity.
  - reflexivity.
Defined.

Lemma prepare_warns_about_ignored_min_step_witness :
  ps_log Demo.sample_state = [msg_min_step_ignored "push"].
Proof.
  exact (prepare_warns_about_ignored_min_step 3 Demo.rand_half_then_zero Demo.resolve_paths
           Demo.sample_cfg 0 Demo.sample_state sample_prepared).
Defined.

Lemma apply_other_mode_invokes_every_term_witness :
  let m := ps_manager Demo.sample_state in
  apply Demo.rand_half_then_zero m 3 "startup" (IdsList [1%Z]) None None
  = mkResult m 3 [mkCall (Function "init") (IdsList [1%Z]) []] [] None.
Proof.
  intros m.
  apply (apply_other_mode_invokes_every_term Demo.rand_half_then_zero m 3 "startup"
           (IdsList [1%Z]) None None [Demo.startup_term "init"]).
  - discriminate.
  - discriminate.
  - reflexivity.
  - reflexivity.
Defined.

Lemma reset_gate_fires_due_environments_witness :
  let tc := Demo.reset_term "respawn" 5 in
  let st := mkLoop (T:=Q) [] [[5; 5; 0; 0]%Z] 0 IdsNone [] in
  apply_terms Demo.rand_zero (ModeReset 8) [(0, tc)] st
  = (mkLoop [] [[5; 5; 8; 8]%Z] 0 (IdsList [2; 3]%Z)
       [mkCall (Function "respawn") (IdsList [2; 3]%Z) []], None).
Proof.
  intros tc st.
  refine (proj2 (reset_gate_fires_due_environments Demo.rand_zero 8 0 tc [] st
                   [5; 5; 0; 0]%Z _ eq_refl (or_introl eq_refl) eq_refl eq_refl)).
  discriminate.
Defined.

Lemma reset_gate_keeps_min_steps_between_triggers_witness :
  let tc := Demo.reset_term "respawn" 5 in
  let st := mkLoop (T:=Q) [] [[5; 5; 0; 0]%Z] 0 IdsNone [] in
  exists fired last',
    ls_env_ids (gate_state (reset_gate 0 tc 8 st)) = IdsList fired /\
    ~ In (Z.of_nat 1) fired /\
    ls_reset (gate_state (reset_gate 0 tc 8 st)) !! 0 = Some last' /\
    last' !! 1 = Some 5%Z.
Proof.
  intros tc st.
  apply (reset_gate_keeps_min_steps_between_triggers 5 8 0 tc st [5; 5; 0; 0]%Z 1
           eq_refl (or_introl eq_refl) eq_refl eq_refl).
  - simpl. lia.
  - lia.
  - reflexivity.
Defined.

Lemma prepare_allocates_buffers_witness :
  buffers_ready 3 (ps_manager Demo.sample_state) /\
  _reset_term_last_triggered_step_id (ps_manager Demo.sample_state)
  = [[0; 0; 0]%Z; [0; 0; 0]%Z].
Proof.
  exact (prepare_allocates_buffers 3 Demo.rand_half_then_zero Demo.resolve_paths
           Demo.sample_cfg 0 Demo.sample_state sample_prepared).
Defined.

Lemma apply_interval_never_raises_witness :
  let r := apply Demo.rand_half_then_zero (ps_manager Demo.sample_state) 3 "interval"
             (IdsList [7%Z]) (Some (1 # 2)%Q) None in
  ap_raised r = None /\
  manager_wf (ap_manager r) /\
  buffers_ready 3 (ap_manager r).
Proof.
  exact (apply_interval_never_raises 3 Demo.rand_half_then_zero
           (ps_manager Demo.sample_state) 3 (IdsList [7%Z]) (1 # 2)%Q None
           sample_wf sample_ready).
Defined.

Lemma apply_reset_never_raises_witness :
  let r := apply Demo.rand_half_then_zero (ps_manager Demo.sample_state) 3 "reset"
             (IdsList [2; 0]%Z) None (Some 7%Z) in
  ap_raised r = None /\
  manager_wf (ap_manager r) /\
  buffers_ready 3 (ap_manager r) /\
  reset_thresholds_fit (ap_manager r).
Proof.
  refine (apply_reset_never_raises 3 Demo.rand_half_then_zero
            (ps_manager Demo.sample_state) 3 (IdsList [2; 0]%Z) None 7%Z
            sample_wf sample_ready _ _ eq_refl).
  - repeat constructor.
  - split; [simpl; lia|]. repeat constructor; lia.
Defined.

Lemma reset_calls_class_terms_witness :
  reset (ps_manager Demo.sample_state) (IdsList [1%Z])
  = ([mkResetCall (TermInstance "Respawn") (IdsList [1%Z])], []).
Proof.
  exact (reset_calls_class_terms 3 Demo.rand_half_then_zero Demo.resolve_paths
           Demo.sample_cfg 0 Demo.sample_state (IdsList [1%Z]) sample_prepared).
Defined.

Lemma set_term_cfg_changes_one_descriptor_witness :
  let m := ps_manager Demo.sample_state in
  let cfg := Demo.interval_term "shove" 1 2 true in
  let m' := match set_term_cfg m "push" cfg with inr x => x | inl _ => m end in
  _mode_term_names m' = _mode_term_names m /\
  _mode_class_term_cfgs m' = _mode_class_term_cfgs m /\
  _interval_term_time_left m' = _interval_term_time_left m /\
  _reset_term_last_triggered_step_id m' = _reset_term_last_triggered_step_id m /\
  (forall env_ids, reset m' env_ids = reset m env_ids) /\
  (forall other, other <> "push" -> get_term_cfg m' other = get_term_cfg m other).
Proof.
  intros m cfg m'.
  apply (set_term_cfg_changes_one_descriptor m "push" cfg m' sample_wf).
  vm_compute. reflexivity.
Defined.
